(** * Item information pipeline: datasource path resolver, dual-source
      fetcher, reference graph extractor, nested entity validator.

    Shallow embedding of [utils/graphqlQueries.ts] and
    [hooks/useItemInformation.ts].

    Conventions of the embedding.
    - JavaScript strings are [string]s of 8-bit characters; [toUpperCase] is
      the ASCII one (identifiers are hexadecimal GUID text).
    - [null], [undefined] and an absent property are all [None].
    - A plain JavaScript object used as a record of aliases is an
      association list in insertion order with one pair per key ([JSObj]);
      the order is the one [Object.values] and [Object.entries] enumerate
      for keys that are not array indices.
    - [await]ed calls are steps of a state-and-exception monad over a world
      that holds the state of the host and of the two stores, the trace of
      the calls issued so far, and the React state of the hook. *)

From Stdlib Require Import String Ascii DecimalString DecimalNat.
From stdpp Require Import base option list gmap strings.

Local Open Scope string_scope.
Local Open Scope list_scope.

(** ** Strings *)

Module Js.

(** A one-character string holding the double quote, and the newline. *)
Definition dq : string := String (ascii_of_nat 34) EmptyString.
Definition nl : string := String (ascii_of_nat 10) EmptyString.

(** A string is truthy when it is not empty. *)
Definition truthy (s : string) : bool :=
  match s with EmptyString => false | String _ _ => true end.

(** [o || ''] and friends: the truthiness of a possibly absent string. *)
Definition truthyOpt (o : option string) : bool :=
  match o with Some s => truthy s | None => false end.

(** [a || b] on possibly absent strings. *)
Definition or (a b : option string) : option string :=
  if truthyOpt a then a else b.

(** [`${n}`] for a non-negative integer. *)
Definition ofNat (n : nat) : string := NilEmpty.string_of_uint (Nat.to_uint n).

Definition isBrace (c : ascii) : bool :=
  (Ascii.eqb c "{" || Ascii.eqb c "}")%bool.

(** [s.replace(/[{}]/g, '')] *)
Fixpoint stripBraces (s : string) : string :=
  match s with
  | EmptyString => EmptyString
  | String c r => if isBrace c then stripBraces r else String c (stripBraces r)
  end.

Definition upperChar (c : ascii) : ascii :=
  let n := nat_of_ascii c in
  if ((97 <=? n) && (n <=? 122))%nat then ascii_of_nat (n - 32) else c.

(** [s.toUpperCase()] *)
Fixpoint toUpperCase (s : string) : string :=
  match s with
  | EmptyString => EmptyString
  | String c r => String (upperChar c) (toUpperCase r)
  end.

Fixpoint dropChars (n : nat) (s : string) : string :=
  match n, s with
  | S k, String _ r => dropChars k r
  | _, _ => s
  end.

(** [s.startsWith(p)] *)
Definition startsWith (s p : string) : bool := String.prefix p s.

(** [s.includes(p)] *)
Fixpoint includes (s p : string) : bool :=
  if String.prefix p s then true
  else match s with
       | EmptyString => false
       | String _ r => includes r p
       end.

(** [s.replace(pat, rep)] with a string pattern: the first occurrence only. *)
Fixpoint replaceFirst (pat rep s : string) : string :=
  if String.prefix pat s then rep +:+ dropChars (String.length pat) s
  else match s with
       | EmptyString => EmptyString
       | String c r => String c (replaceFirst pat rep r)
       end.

Definition isSpace (c : ascii) : bool :=
  let n := nat_of_ascii c in
  ((n =? 32) || ((9 <=? n) && (n <=? 13)))%nat.

Fixpoint trimStart (s : string) : string :=
  match s with
  | String c r => if isSpace c then trimStart r else s
  | EmptyString => EmptyString
  end.

Fixpoint trimEnd (s : string) : string :=
  match s with
  | EmptyString => EmptyString
  | String c r =>
      match trimEnd r with
      | EmptyString => if isSpace c then EmptyString else String c EmptyString
      | r' => String c r'
      end
  end.

(** [s.trim()] *)
Definition trim (s : string) : string := trimEnd (trimStart s).

(** [parts.join('')] *)
Definition join (parts : list string) : string :=
  fold_right String.append EmptyString parts.

End Js.

(** The canonical form of an identifier, [x.replace(/[{}]/g, '').toUpperCase()]. *)
Definition cleanGuid (s : string) : string := Js.toUpperCase (Js.stripBraces s).

(** ** The GUID pattern

    [/\{?[0-9A-Fa-f]{8}-[0-9A-Fa-f]{4}-[0-9A-Fa-f]{4}-[0-9A-Fa-f]{4}-[0-9A-Fa-f]{12}\}?/g] *)

Module GuidRegex.

Definition isHex (c : ascii) : bool :=
  let n := nat_of_ascii c in
  (((48 <=? n) && (n <=? 57)) || ((65 <=? n) && (n <=? 70))
   || ((97 <=? n) && (n <=? 102)))%nat%bool.

(** [[0-9A-Fa-f]{n}] at the head of [s]: the text matched and what follows. *)
Fixpoint hexRun (n : nat) (s : string) : option (string * string) :=
  match n with
  | 0 => Some (EmptyString, s)
  | S k =>
      match s with
      | String c r =>
          if isHex c
          then match hexRun k r with
               | Some (m, rest) => Some (String c m, rest)
               | None => None
               end
          else None
      | EmptyString => None
      end
  end.

Definition dash (s : string) : option string :=
  match s with
  | String c r => if Ascii.eqb c "-" then Some r else None
  | EmptyString => None
  end.

(** The five hyphenated groups. *)
Definition groups (s : string) : option (string * string) :=
  '(a, s) ← hexRun 8 s; s ← dash s;
  '(b, s) ← hexRun 4 s; s ← dash s;
  '(c, s) ← hexRun 4 s; s ← dash s;
  '(d, s) ← hexRun 4 s; s ← dash s;
  '(e, s) ← hexRun 12 s;
  Some (a +:+ "-" +:+ b +:+ "-" +:+ c +:+ "-" +:+ d +:+ "-" +:+ e, s).

(** The optional closing brace is greedy. *)
Definition closing (s : string) : string :=
  match s with
  | String c _ => if Ascii.eqb c "}" then "}" else EmptyString
  | EmptyString => EmptyString
  end.

(** The match that starts at the head of [s], if there is one. When [s]
    opens with a brace the pattern takes it; letting it go would leave the
    brace to the first hexadecimal group, which refuses it. *)
Definition matchAt (s : string) : option string :=
  match s with
  | String c r =>
      if Ascii.eqb c "{"
      then '(m, rest) ← groups r; Some ("{" +:+ m +:+ closing rest)
      else '(m, rest) ← groups s; Some (m +:+ closing rest)
  | EmptyString => None
  end.

(** The global scan: leftmost matches, the search resuming after each
    one. [skip] counts the characters of the last match still to pass. *)
Fixpoint scan (skip : nat) (s : string) : list string :=
  match s with
  | EmptyString => []
  | String _ r =>
      match skip with
      | S k => scan k r
      | 0 =>
          match matchAt s with
          | Some m => m :: scan (String.length m - 1) r
          | None => scan 0 r
          end
      end
  end.

(** [value.match(guidRegex)]; no match ([null]) is the empty list. *)
Definition matches (value : string) : list string := scan 0 value.

End GuidRegex.

(** ** JavaScript objects as insertion-ordered records *)

Definition JSObj (V : Type) : Type := list (string * V).

Module Obj.
Section WithValues.
Context {V : Type}.

(** [o[k]] *)
Fixpoint get (k : string) (o : JSObj V) : option V :=
  match o with
  | [] => None
  | (k', v) :: r => if decide (k = k') then Some v else get k r
  end.

(** [o[k] = v]: in place when the key exists, appended otherwise. *)
Fixpoint set (k : string) (v : V) (o : JSObj V) : JSObj V :=
  match o with
  | [] => [(k, v)]
  | (k', v') :: r =>
      if decide (k = k') then (k, v) :: r else (k', v') :: set k v r
  end.

(** [Object.keys(o)], [Object.values(o)] *)
Definition keys (o : JSObj V) : list string := o.*1.
Definition values (o : JSObj V) : list V := o.*2.

(** [{ ...a, ...b }] *)
Definition spread (a b : JSObj V) : JSObj V :=
  fold_left (fun acc kv => set kv.1 kv.2 acc) b a.
End WithValues.
End Obj.

(** ** Values exchanged with the host and the stores *)

(** What a [catch] clause receives: an [Error] with its message, or any
    other thrown value. *)
Inductive Thrown : Type :=
| ErrorObj (message : string)
| ThrownValue (description : string).

(** The way an awaited call ends. *)
Inductive outcome (A : Type) : Type :=
| Returned (a : A)
| Threw (e : Thrown).
Arguments Returned {A} a.
Arguments Threw {A} e.

(** [fields { nodes { name value } }]; a value that is not a string is [None]. *)
Record Field : Type := mkField {
  field_name : string;
  field_value : option string }.

(** The projection of an item that the two queries select. The authoring
    store answers [itemId], [name], [path], [version], [template],
    [language] and [fields]; the live store [id], [name], [version] and
    [language]. [item_fields] is [item.fields?.nodes]. *)
Record Item : Type := mkItem {
  item_itemId : option string;
  item_id : option string;
  item_name : option string;
  item_path : option string;
  item_version : option nat;
  item_template : option string;
  item_language : option string;
  item_fields : option (list Field) }.

(** The alias-keyed record of a response; an alias may hold [null]. *)
Definition ItemsData : Type := JSObj (option Item).

(** The body of a GraphQL response, [{ data?: ... }]. *)
Record GraphQLBody : Type := mkBody { body_data : option ItemsData }.

(** [ItemQueryResult]: [{ data?: { data?: ... }, error? }]. *)
Record ItemQueryResult : Type := mkResult {
  qr_data : option GraphQLBody;
  qr_error : option Thrown }.

(** [{ data: { data: {} } }] and [{ error }] *)
Definition emptyResult : ItemQueryResult :=
  {| qr_data := Some {| body_data := Some [] |}; qr_error := None |}.
Definition errorMarker (error : Thrown) : ItemQueryResult :=
  {| qr_data := None; qr_error := Some error |}.

(** [r?.data?.data] *)
Definition innerData (r : option ItemQueryResult) : option ItemsData :=
  q ← r; b ← qr_data q; body_data b.

(** The argument of [client.mutate(endpoint, { params: { query, body: { query } } })]:
    [mp_context] is the [sitecoreContextId] query parameter when one is sent. *)
Record MutateParams : Type := mkParams {
  mp_context : option string;
  mp_query : string }.

(** The second argument of [fetch]; [fi_query] is the [query] property of
    the object that [JSON.stringify] serialises into the body. *)
Record FetchInit : Type := mkInit {
  fi_method : string;
  fi_headers : list (string * string);
  fi_query : string }.

(** What the code reads of a [Response]: [ok], [status] and the way
    [json()] ends. *)
Record HttpResponse : Type := mkResponse {
  resp_ok : bool;
  resp_status : nat;
  resp_json : outcome (option GraphQLBody) }.

(** [application.context], as far as the hook probes it. *)
Record ResourceContext : Type := mkResourceContext {
  ctx_preview : option string;
  ctx_live : option string;
  ctx_master : option string }.
Record ResourceAccess : Type := mkResourceAccess {
  ra_context : option ResourceContext }.
Record AppContext : Type := mkAppContext {
  resourceAccess : option (list (option ResourceAccess));
  app_sitecoreContextId : option string;
  app_contextId : option string }.

(** [import.meta.env] (vite-env.d.ts); a variable that is not set is [None]. *)
Record ImportMetaEnv : Type := mkEnv {
  VITE_SITECORE_EDGE_TOKEN : option string;
  VITE_SITECORE_EDGE_ENDPOINT : option string }.

(** What [extractItemIdsWithLocalPaths] returns. *)
Record ExtractionResult : Type := mkExtraction {
  ex_itemIds : list string;
  ex_localPathsToResolve : list string;
  ex_currentPagePath : string;
  ex_language : string }.

(** An entry of [referencedByMap]. *)
Record ParentInfo : Type := mkParent {
  parent_id : string;
  parent_name : string;
  parent_displayName : option string;
  parent_path : string }.

(** What a batched query asks about: items by identifier, or items by
    absolute path for a list of relative paths. *)
Inductive Batch : Type :=
| Identifiers (itemIds : list string)
| Paths (localPaths : list string).

(** A call that left the application, with the batch it was built for and
    the way it ended. *)
Inductive Call : Type :=
| QueryCall (key : string)
| MutateCall (endpoint : string) (params : MutateParams)
    (batch : Batch) (answer : outcome (option ItemQueryResult))
| FetchCall (url : string) (init : FetchInit)
    (batch : Batch) (answer : outcome HttpResponse).

(** ** The world, and the monad of awaited calls *)

Section Pipeline.

(** [St] is the state of everything outside the application: the host and
    the two stores. [PageContext] is the host's page context, opaque here.
    [ItemInformationResponse] and [ProcessedItemInfo] are the types of
    [types/itemInformation]. *)
Context (St PageContext ItemInformationResponse ProcessedItemInfo : Type).

(** The module-level environment of [graphqlQueries.ts] and the global
    [fetch]. *)
Context (env : ImportMetaEnv).
Context (fetch : string -> FetchInit -> St -> outcome HttpResponse * St).

(** The helpers of [utils/dataProcessing], whose file is not part of the
    sources at hand: they are parameters of the development. *)
Context (formatGuidWithHyphens : string -> string).
Context (extractItemIdsWithLocalPaths : PageContext -> ExtractionResult).
Context (processItemData :
  option ItemQueryResult -> option ItemQueryResult -> list string ->
  option string -> option (gmap string (list ParentInfo)) ->
  list ProcessedItemInfo).
Context (createItemInformationResponse :
  list ProcessedItemInfo -> ItemInformationResponse).

(** How JavaScript reads a caught value as a condition, and how a template
    literal renders it: both depend on what was thrown. *)
Context (errorTruthy : Thrown -> bool).
Context (errorText : Thrown -> string).

(** The Marketplace client: [query('pages.context')],
    [query('application.context')] and [mutate(endpoint, params)]. Each
    call reads and changes the outside state and returns or throws. *)
Record ClientSDK : Type := mkClient {
  query_pages_context : St -> outcome PageContext * St;
  query_application_context : St -> outcome (option AppContext) * St;
  mutate : string -> MutateParams -> St -> outcome (option ItemQueryResult) * St }.

(** The four [useState] cells of a hook. *)
Record HookState : Type := mkHook {
  data : option ItemInformationResponse;
  items : list ProcessedItemInfo;
  loading : bool;
  error : option string }.

Record World : Type := mkWorld {
  outside : St;
  calls : list Call;
  hook : HookState }.

Definition M (A : Type) : Type := World -> outcome A * World.

Definition ret {A : Type} (a : A) : M A := fun w => (Returned a, w).

Definition throw {A : Type} (e : Thrown) : M A := fun w => (Threw e, w).

Definition bind {A B : Type} (m : M A) (k : A -> M B) : M B :=
  fun w =>
    match m w with
    | (Returned a, w') => k a w'
    | (Threw e, w') => (Threw e, w')
    end.

(** [try { body } catch (error) { handler }] *)
Definition tryCatch {A : Type} (body : M A) (handler : Thrown -> M A) : M A :=
  fun w =>
    match body w with
    | (Returned a, w') => (Returned a, w')
    | (Threw e, w') => handler e w'
    end.

Notation "'let*' x ':=' m 'in' k" := (bind m (fun x => k))
  (at level 10, x name, m at level 100, k at level 200).
Notation "m ';;' k" := (bind m (fun _ => k))
  (at level 100, k at level 200, right associativity).

Definition record (c : Call) (w : World) : World :=
  {| outside := outside w; calls := calls w ++ [c]; hook := hook w |}.

(** [await client.mutate(endpoint, ...)] for a batch. *)
Definition callMutate (client : ClientSDK) (endpoint : string)
    (params : MutateParams) (batch : Batch) : M (option ItemQueryResult) :=
  fun w =>
    let '(answer, s) := mutate client endpoint params (outside w) in
    (answer,
     record (MutateCall endpoint params batch answer)
       {| outside := s; calls := calls w; hook := hook w |}).

(** [await fetch(url, init)] for a batch. *)
Definition callFetch (url : string) (init : FetchInit)
    (batch : Batch) : M HttpResponse :=
  fun w =>
    let '(answer, s) := fetch url init (outside w) in
    (answer,
     record (FetchCall url init batch answer)
       {| outside := s; calls := calls w; hook := hook w |}).

(** [await client.query('pages.context')], [await client.query('application.context')] *)
Definition callPagesContext (client : ClientSDK) : M PageContext :=
  fun w =>
    let '(answer, s) := query_pages_context client (outside w) in
    (answer,
     record (QueryCall "pages.context")
       {| outside := s; calls := calls w; hook := hook w |}).

Definition callApplicationContext (client : ClientSDK) : M (option AppContext) :=
  fun w =>
    let '(answer, s) := query_application_context client (outside w) in
    (answer,
     record (QueryCall "application.context")
       {| outside := s; calls := calls w; hook := hook w |}).

(** ** utils/graphqlQueries.ts *)

Definition LIVE_ENDPOINT : string :=
  match Js.or (VITE_SITECORE_EDGE_ENDPOINT env)
          (Some "https://edge.sitecorecloud.io/api/graphql/v1") with
  | Some s => s
  | None => EmptyString
  end.

Definition LIVE_TOKEN : string :=
  match Js.or (VITE_SITECORE_EDGE_TOKEN env) (Some EmptyString) with
  | Some s => s
  | None => EmptyString
  end.

Definition formatGuidForLive (guid : string) : string :=
  formatGuidWithHyphens guid.

(** [sitecoreContextId ? { sitecoreContextId } : {}] *)
Definition queryParams (sitecoreContextId : option string) : option string :=
  if Js.truthyOpt sitecoreContextId then sitecoreContextId else None.

Definition authoringSelection (language : string) (index : nat) (id : string) : string :=
  Js.nl +:+
  "        item" +:+ Js.ofNat index +:+ ": item(where: {" +:+ Js.nl +:+
  "          database: " +:+ Js.dq +:+ "master" +:+ Js.dq +:+ Js.nl +:+
  "          itemId: " +:+ Js.dq +:+ id +:+ Js.dq +:+ Js.nl +:+
  "          language: " +:+ Js.dq +:+ language +:+ Js.dq +:+ Js.nl +:+
  "        }) {" +:+ Js.nl +:+
  "          itemId" +:+ Js.nl +:+
  "          name" +:+ Js.nl +:+
  "          path" +:+ Js.nl +:+
  "          version" +:+ Js.nl +:+
  "          template {" +:+ Js.nl +:+
  "            name" +:+ Js.nl +:+
  "          }" +:+ Js.nl +:+
  "          language {" +:+ Js.nl +:+
  "            name" +:+ Js.nl +:+
  "          }" +:+ Js.nl +:+
  "          fields {" +:+ Js.nl +:+
  "            nodes {" +:+ Js.nl +:+
  "              name" +:+ Js.nl +:+
  "              value" +:+ Js.nl +:+
  "            }" +:+ Js.nl +:+
  "          }" +:+ Js.nl +:+
  "        }" +:+ Js.nl +:+
  "      ".

Definition authoringQuery (itemIds : list string) (language : string) : string :=
  Js.nl +:+
  "    query GetAuthoringItems {" +:+ Js.nl +:+
  "      " +:+ Js.join (imap (authoringSelection language) itemIds) +:+ Js.nl +:+
  "    }" +:+ Js.nl +:+
  "  ".

(** Query the authoring endpoint for multiple items. [language] is the
    value received; every caller passes one. *)
Definition getItemsFromAuthoring (client : option ClientSDK) (itemIds : list string)
    (sitecoreContextId : option string) (language : string)
    : M (option ItemQueryResult) :=
  match client, itemIds with
  | None, _ | _, [] => ret (Some emptyResult)
  | Some c, _ :: _ =>
      let query := authoringQuery itemIds language in
      tryCatch
        (let* result :=
           callMutate c "xmc.authoring.graphql"
             {| mp_context := queryParams sitecoreContextId;
                mp_query := Js.trim query |} (Identifiers itemIds) in
         ret result)
        (fun error => ret (Some (errorMarker error)))
  end.

Definition liveSelection (language : string) (index : nat) (id : string) : string :=
  Js.nl +:+
  "        item" +:+ Js.ofNat index +:+ ": item(path: " +:+ Js.dq +:+ "{" +:+
     formatGuidForLive id +:+ "}" +:+ Js.dq +:+ ", language: " +:+ Js.dq +:+
     language +:+ Js.dq +:+ ") {" +:+ Js.nl +:+
  "          id" +:+ Js.nl +:+
  "          name" +:+ Js.nl +:+
  "          version" +:+ Js.nl +:+
  "          language {" +:+ Js.nl +:+
  "            name" +:+ Js.nl +:+
  "          }" +:+ Js.nl +:+
  "        }" +:+ Js.nl +:+
  "      ".

Definition liveQuery (itemIds : list string) (language : string) : string :=
  Js.nl +:+
  "    query GetLiveItems {" +:+ Js.nl +:+
  "      " +:+ Js.join (imap (liveSelection language) itemIds) +:+ Js.nl +:+
  "    }" +:+ Js.nl +:+
  "  ".

Definition liveInit (query : string) : FetchInit :=
  {| fi_method := "POST";
     fi_headers := [("Content-Type", "application/json"); ("sc_apikey", LIVE_TOKEN)];
     fi_query := Js.trim query |}.

(** Query the live endpoint for multiple items, by a direct HTTP call.
    [_client] and [_sitecoreContextId] are received and not used. *)
Definition getItemsFromLive (_client : option ClientSDK) (itemIds : list string)
    (_sitecoreContextId : option string) (language : string)
    : M ItemQueryResult :=
  match itemIds with
  | [] => ret emptyResult
  | _ :: _ =>
      let query := liveQuery itemIds language in
      tryCatch
        (if Js.truthy LIVE_TOKEN
         then
           let* response := callFetch LIVE_ENDPOINT (liveInit query) (Identifiers itemIds) in
           if resp_ok response
           then
             fun w =>
               match resp_json response with
               | Returned result =>
                   (Returned {| qr_data := result; qr_error := None |}, w)
               | Threw e => (Threw e, w)
               end
           else throw (ErrorObj ("HTTP error! status: " +:+ Js.ofNat (resp_status response)))
         else throw (ErrorObj
           "VITE_SITECORE_EDGE_TOKEN environment variable is not set. Please configure your Experience Edge API token."))
        (fun error => ret (errorMarker error))
  end.

(** *** Resolving local datasource paths *)

(** The path construction strategies, in the order they are tried. *)
Definition pathStrategies : list (string -> string -> string) :=
  [ (* Strategy 1: direct under current path *)
    (fun localPath basePath => basePath +:+ "/" +:+ localPath);
    (* Strategy 2: under Data folder *)
    (fun localPath basePath => basePath +:+ "/Data/" +:+ localPath);
    (* Strategy 3: remove the "Page Components/" prefix *)
    (fun localPath basePath =>
       basePath +:+ "/" +:+ Js.replaceFirst "Page Components/" EmptyString localPath);
    (* Strategy 4: under Data with clean path *)
    (fun localPath basePath =>
       let cleanPath := Js.replaceFirst "Page Components/" EmptyString localPath in
       basePath +:+ "/Data/" +:+ cleanPath) ].

Definition resolveSelection (language : string) (fullPaths : list string)
    (index : nat) (_localPath : string) : string :=
  Js.nl +:+
  "          path" +:+ Js.ofNat index +:+ ": item(where: {" +:+ Js.nl +:+
  "            database: " +:+ Js.dq +:+ "master" +:+ Js.dq +:+ Js.nl +:+
  "            path: " +:+ Js.dq +:+ default "undefined" (fullPaths !! index) +:+ Js.dq +:+ Js.nl +:+
  "            language: " +:+ Js.dq +:+ language +:+ Js.dq +:+ Js.nl +:+
  "          }) {" +:+ Js.nl +:+
  "            itemId" +:+ Js.nl +:+
  "            name" +:+ Js.nl +:+
  "            path" +:+ Js.nl +:+
  "          }" +:+ Js.nl +:+
  "        ".

Definition resolveQuery (localPaths fullPaths : list string) (language : string) : string :=
  Js.nl +:+
  "      query ResolveLocalDatasources {" +:+ Js.nl +:+
  "        " +:+ Js.join (imap (resolveSelection language fullPaths) localPaths) +:+ Js.nl +:+
  "      }" +:+ Js.nl +:+
  "    ".

(** The request of one strategy: one absolute path per relative path, in
    a single batched query. *)
Definition strategyParams (localPaths : list string) (basePath sitecoreContextId language : string)
    (strategy : string -> string -> string) : MutateParams :=
  let fullPaths := map (fun localPath => strategy localPath basePath) localPaths in
  {| mp_context := queryParams (Some sitecoreContextId);
     mp_query := Js.trim (resolveQuery localPaths fullPaths language) |}.

(** One turn of the [forEach] over the relative paths: [result] and
    [foundItems] after reading alias [path<index>] of the response. *)
Definition readPath (responseData : ItemsData)
    (acc : JSObj (option string) * nat) (entry : nat * string)
    : JSObj (option string) * nat :=
  let '(result, foundItems) := acc in
  let '(index, localPath) := entry in
  match Obj.get ("path" +:+ Js.ofNat index) responseData with
  | Some (Some item) =>
      match item_itemId item with
      | Some itemId =>
          if Js.truthy itemId
          then (Obj.set localPath (Some (cleanGuid itemId)) result, S foundItems)
          else (Obj.set localPath None result, foundItems)
      | None => (Obj.set localPath None result, foundItems)
      end
  | _ => (Obj.set localPath None result, foundItems)
  end.

(** [result] and [foundItems] of one strategy, from its response. *)
Definition readResponse (localPaths : list string) (response : option ItemQueryResult)
    : JSObj (option string) * nat :=
  match innerData response with
  | Some responseData =>
      fold_left (readPath responseData) (imap pair localPaths) ([], 0)
  | None => ([], 0)
  end.

(** How the body of the [for] loop ends: by [return result], or by falling
    through to the next strategy with the accumulator [resolvedItems]. *)
Inductive Turn : Type :=
| ReturnResult (result : JSObj (option string))
| NextStrategy (resolvedItems : JSObj (option string)).

Definition tryStrategy (client : ClientSDK) (localPaths : list string)
    (basePath sitecoreContextId language : string)
    (resolvedItems : JSObj (option string))
    (strategy : string -> string -> string) : M Turn :=
  tryCatch
    (let* response :=
       callMutate client "xmc.authoring.graphql"
         (strategyParams localPaths basePath sitecoreContextId language strategy)
         (Paths localPaths) in
     let '(result, foundItems) := readResponse localPaths response in
     (* If we found all items, return this result *)
     if decide (foundItems = length localPaths) then ret (ReturnResult result)
     (* If we found some items, keep track but continue trying *)
     else if decide (0 < foundItems)
          then ret (NextStrategy (Obj.spread resolvedItems result))
          else ret (NextStrategy resolvedItems))
    (fun _error => ret (NextStrategy resolvedItems)).

(** The [for] loop over the strategies that remain. *)
Fixpoint resolveLoop (client : ClientSDK) (localPaths : list string)
    (basePath sitecoreContextId language : string)
    (strategies : list (string -> string -> string))
    (resolvedItems : JSObj (option string)) : M (JSObj (option string)) :=
  match strategies with
  | [] => ret resolvedItems
  | strategy :: later =>
      let* turn :=
        tryStrategy client localPaths basePath sitecoreContextId language
          resolvedItems strategy in
      match turn with
      | ReturnResult result => ret result
      | NextStrategy resolvedItems' =>
          resolveLoop client localPaths basePath sitecoreContextId language
            later resolvedItems'
      end
  end.

Definition resolveLocalDatasourcePaths (client : option ClientSDK)
    (localPaths : list string) (basePath sitecoreContextId language : string)
    : M (JSObj (option string)) :=
  match client, localPaths with
  | None, _ | _, [] => ret []
  | Some c, _ :: _ =>
      resolveLoop c localPaths basePath sitecoreContextId language pathStrategies []
  end.

(** ** hooks/useItemInformation.ts *)

(** *** The security context identifier, probed in [application.context] *)

(** [appContext?.resourceAccess?.[0]?.context] *)
Definition firstResourceContext (appContext : option AppContext) : option ResourceContext :=
  app ← appContext; resources ← resourceAccess app;
  resource ← head resources; access ← resource; ra_context access.

(** The [for ... of] loop over [resourceAccess]: every resource with a
    context assigns [sitecoreContextId], and a truthy value breaks. *)
Fixpoint scanResources (resources : list (option ResourceAccess))
    (sitecoreContextId : option string) : option string :=
  match resources with
  | [] => sitecoreContextId
  | resource :: later =>
      match resource ≫= ra_context with
      | Some context =>
          let found := Js.or (Js.or (ctx_preview context) (ctx_live context))
                         (ctx_master context) in
          if Js.truthyOpt found then found else scanResources later found
      | None => scanResources later sitecoreContextId
      end
  end.

Definition probeContextId (appContext : option AppContext) : option string :=
  let first := firstResourceContext appContext in
  let sitecoreContextId := first ≫= ctx_preview in
  let sitecoreContextId :=
    if Js.truthyOpt sitecoreContextId then sitecoreContextId
    else Js.or (Js.or (first ≫= ctx_live) (appContext ≫= app_sitecoreContextId))
           (appContext ≫= app_contextId) in
  if Js.truthyOpt sitecoreContextId then sitecoreContextId
  else match appContext ≫= resourceAccess with
       | Some resources => scanResources resources sitecoreContextId
       | None => sitecoreContextId
       end.

Definition getSitecoreContextId (client : ClientSDK) : M (option string) :=
  tryCatch
    (let* appContext := callApplicationContext client in
     ret (probeContextId appContext))
    (fun _error => ret None).

(** *** Local datasource paths *)

(** [Object.values(resolvedPaths).forEach(...)]: a resolved identifier is
    pushed unless the list already includes it. *)
Definition addResolvedId (itemIds : list string) (resolvedId : option string) : list string :=
  match resolvedId with
  | Some id =>
      if Js.truthy id && negb (bool_decide (id ∈ itemIds))
      then itemIds ++ [id] else itemIds
  | None => itemIds
  end.

Definition addResolvedIds (itemIds : list string) (resolvedPaths : JSObj (option string))
    : list string :=
  fold_left addResolvedId (Obj.values resolvedPaths) itemIds.

Definition resolveLocalPaths (client : ClientSDK) (itemIds localPathsToResolve : list string)
    (currentPagePath : string) (sitecoreContextId : option string) (language : string)
    : M (list string) :=
  match localPathsToResolve, sitecoreContextId with
  | _ :: _, Some contextId =>
      if Js.truthy contextId
      then
        tryCatch
          (let* resolvedPaths :=
             resolveLocalDatasourcePaths (Some client) localPathsToResolve
               currentPagePath contextId language in
           ret (addResolvedIds itemIds resolvedPaths))
          (fun _error => ret itemIds)
      else ret itemIds
  | _, _ => ret itemIds
  end.

(** *** The two sources, queried together *)

(** [Promise.all([getItemsFromAuthoring(...), getItemsFromLive(...)])]:
    the authoring call is issued first, and neither reads what the other
    returns. *)
Definition fetchBoth (client : ClientSDK) (itemIds : list string)
    (sitecoreContextId : option string) (language : string)
    : M (option ItemQueryResult * option ItemQueryResult) :=
  let* authoringResult :=
    getItemsFromAuthoring (Some client) itemIds sitecoreContextId language in
  let* liveResult :=
    getItemsFromLive (Some client) itemIds sitecoreContextId language in
  ret (authoringResult, Some liveResult).

(** *** Nested references in the authoring field values *)

Definition systemFields : list string :=
  ["__Created"; "__Updated"; "__Owner"; "__Lock"; "__Revision"; "__Workflow";
   "__Standard Values"; "__Sortorder"].

Definition excludedPaths : list string :=
  ["/sitecore/system/"; "/sitecore/templates/"; "/sitecore/layout/"].

Definition isDisplayNameField (f : Field) : bool :=
  bool_decide (field_name f = "__Display name")
  || bool_decide (field_name f = "Display Name").

Definition parentInfoOf (item : Item) (nodes : list Field) : ParentInfo :=
  let displayNameField := List.find isDisplayNameField nodes in
  {| parent_id := default EmptyString (cleanGuid <$> item_itemId item);
     parent_name :=
       (if Js.truthyOpt (item_name item)
        then default EmptyString (item_name item) else "Unknown");
     parent_displayName :=
       (let value := displayNameField ≫= field_value in
        if Js.truthyOpt value then value else None);
     parent_path := default EmptyString (item_path item) |}.

(** [existingRefs.some(ref => ref.id === parentInfo.id)] *)
Definition hasParent (existingRefs : list ParentInfo) (parentInfo : ParentInfo) : bool :=
  existsb (fun ref => bool_decide (parent_id ref = parent_id parentInfo)) existingRefs.

(** One match of the pattern: the parent is recorded for the referenced
    identifier, and the identifier is queued when it is new. *)
Definition recordMatch (itemIds : list string) (parentInfo : ParentInfo)
    (acc : gmap string (list ParentInfo) * list string) (matched : string)
    : gmap string (list ParentInfo) * list string :=
  let '(referencedByMap, nestedItemIds) := acc in
  let guid := cleanGuid matched in
  let referencedByMap :=
    match referencedByMap !! guid with
    | Some _ => referencedByMap
    | None => <[guid := []]> referencedByMap
    end in
  let existingRefs := default [] (referencedByMap !! guid) in
  let referencedByMap :=
    if hasParent existingRefs parentInfo then referencedByMap
    else <[guid := existingRefs ++ [parentInfo]]> referencedByMap in
  let nestedItemIds :=
    if negb (bool_decide (guid ∈ itemIds)) && negb (bool_decide (guid ∈ nestedItemIds))
    then nestedItemIds ++ [guid] else nestedItemIds in
  (referencedByMap, nestedItemIds).

(** Whether a field is scanned: a non-empty string value, and a name that
    includes none of the system field names. *)
Definition scannedValue (field : Field) : option string :=
  match field_value field with
  | Some value =>
      if Js.truthy value
      then if existsb (Js.includes (field_name field)) systemFields
           then None else Some value
      else None
  | None => None
  end.

Definition scanField (itemIds : list string) (parentInfo : ParentInfo)
    (acc : gmap string (list ParentInfo) * list string) (field : Field)
    : gmap string (list ParentInfo) * list string :=
  match scannedValue field with
  | Some value => fold_left (recordMatch itemIds parentInfo) (GuidRegex.matches value) acc
  | None => acc
  end.

Definition scanItem (itemIds : list string)
    (acc : gmap string (list ParentInfo) * list string) (item : option Item)
    : gmap string (list ParentInfo) * list string :=
  match item with
  | Some it =>
      match item_fields it with
      | Some nodes => fold_left (scanField itemIds (parentInfoOf it nodes)) nodes acc
      | None => acc
      end
  | None => acc
  end.

(** STEP 2 of the hook: [referencedByMap] and [nestedItemIds] after the
    scan of the authoring result. *)
Definition extractReferences (itemIds : list string)
    (authoringResult : option ItemQueryResult)
    : gmap string (list ParentInfo) * list string :=
  match innerData authoringResult with
  | Some authoringData => fold_left (scanItem itemIds) (Obj.values authoringData) (∅, [])
  | None => (∅, [])
  end.

(** *** Validation of the nested identifiers by their paths *)

Definition isSystemItem (itemPath : string) : bool :=
  existsb (fun excludedPath => Js.startsWith itemPath excludedPath) excludedPaths.

(** [nestedItem?.path || ''] and [nestedItem?.itemId || ''] *)
Definition pathOf (nestedItem : option Item) : string :=
  default EmptyString (nestedItem ≫= item_path).
Definition idOf (nestedItem : option Item) : string :=
  default EmptyString (nestedItem ≫= item_itemId).

Definition validateEntry (validNestedIds : list string) (nestedItem : option Item)
    : list string :=
  let itemPath := pathOf nestedItem in
  let itemId := idOf nestedItem in
  if negb (isSystemItem itemPath) && Js.truthy itemPath
  then validNestedIds ++ [cleanGuid itemId]
  else validNestedIds.

Definition validNestedIdsOf (nestedAuthoringResult : option ItemQueryResult) : list string :=
  match innerData nestedAuthoringResult with
  | Some nestedAuthoringData =>
      fold_left validateEntry (Obj.values nestedAuthoringData) []
  | None => []
  end.

(** The queue after validation: untouched when it was empty, else replaced
    by the identifiers the light authoring lookup lets through. *)
Definition validateNested (client : ClientSDK) (nestedItemIds : list string)
    (sitecoreContextId : option string) (language : string) : M (list string) :=
  match nestedItemIds with
  | [] => ret nestedItemIds
  | _ :: _ =>
      let* nestedAuthoringResult :=
        getItemsFromAuthoring (Some client) nestedItemIds sitecoreContextId language in
      ret (validNestedIdsOf nestedAuthoringResult)
  end.

(** *** Merging the nested results into the original ones *)

(** [data[`item${startIndex + index}`] = value] for every entry of the
    nested record, [startIndex] being the number of keys before the merge. *)
Definition appendEntries (original nested : ItemsData) : ItemsData :=
  let startIndex := length (Obj.keys original) in
  fold_left
    (fun merged entry =>
       Obj.set ("item" +:+ Js.ofNat (startIndex + entry.1)) entry.2 merged)
    (imap pair (Obj.values nested)) original.

(** The original result after the merge; its record is changed in place,
    so the result passed on is the one that holds the merged record. *)
Definition mergeNested (original nested : option ItemQueryResult)
    : option ItemQueryResult :=
  match innerData nested, innerData original, original with
  | Some nestedData, Some originalData, Some q =>
      Some {| qr_data := Some {| body_data := Some (appendEntries originalData nestedData) |};
              qr_error := qr_error q |}
  | _, _, _ => original
  end.

(** *** The fetch cycle *)

(** What the first part of the cycle settles. *)
Record Discovery : Type := mkDiscovery {
  d_itemIds : list string;
  d_currentItemId : option string;
  d_localPathsToResolve : list string;
  d_currentPagePath : string;
  d_language : string }.

(** The arguments of [processItemData]. *)
Record CycleData : Type := mkCycleData {
  cd_authoringResult : option ItemQueryResult;
  cd_liveResult : option ItemQueryResult;
  cd_itemIds : list string;
  cd_currentItemId : option string;
  cd_referencedByMap : gmap string (list ParentInfo) }.

(** The identifiers of the cycle: the explicit list when there is one
    with an element, the page context otherwise. *)
Definition discover (client : ClientSDK) (specificItemIds : option (list string))
    : M Discovery :=
  match specificItemIds with
  | Some (first :: others) =>
      ret {| d_itemIds := first :: others;
             (* For specific items, assume the first one is current *)
             d_currentItemId := Some first;
             d_localPathsToResolve := [];
             d_currentPagePath := EmptyString;
             d_language := "en" |}
  | _ =>
      let* pageContext := callPagesContext client in
      let extractionResult := extractItemIdsWithLocalPaths pageContext in
      match ex_itemIds extractionResult with
      | [] => throw (ErrorObj "No item IDs found in current context")
      | first :: _ =>
          ret {| d_itemIds := ex_itemIds extractionResult;
                 d_currentItemId := Some first;
                 d_localPathsToResolve := ex_localPathsToResolve extractionResult;
                 d_currentPagePath := ex_currentPagePath extractionResult;
                 d_language := ex_language extractionResult |}
      end
  end.

(** The nested items that passed validation: live data, authoring data
    with all fields, the merge, and the identifiers appended. *)
Definition fetchNested (client : ClientSDK) (sitecoreContextId : option string)
    (language : string) (currentItemId : option string)
    (referencedByMap : gmap string (list ParentInfo))
    (authoringResult liveResult : option ItemQueryResult)
    (itemIds nestedItemIds : list string) : M CycleData :=
  match nestedItemIds with
  | [] =>
      ret {| cd_authoringResult := authoringResult;
             cd_liveResult := liveResult;
             cd_itemIds := itemIds;
             cd_currentItemId := currentItemId;
             cd_referencedByMap := referencedByMap |}
  | _ :: _ =>
      let* nestedLiveResult :=
        getItemsFromLive (Some client) nestedItemIds sitecoreContextId language in
      let* nestedAuthoringFullResult :=
        getItemsFromAuthoring (Some client) nestedItemIds sitecoreContextId language in
      ret {| cd_authoringResult := mergeNested authoringResult nestedAuthoringFullResult;
             cd_liveResult := mergeNested liveResult (Some nestedLiveResult);
             cd_itemIds := itemIds ++ nestedItemIds;
             cd_currentItemId := currentItemId;
             cd_referencedByMap := referencedByMap |}
  end.

(** From the discovered identifiers to the arguments of [processItemData]. *)
Definition gather (client : ClientSDK) (d : Discovery) : M CycleData :=
  let language := d_language d in
  let* sitecoreContextId := getSitecoreContextId client in
  let* itemIds :=
    resolveLocalPaths client (d_itemIds d) (d_localPathsToResolve d)
      (d_currentPagePath d) sitecoreContextId language in
  let* results := fetchBoth client itemIds sitecoreContextId language in
  let scan := extractReferences itemIds results.1 in
  let referencedByMap := scan.1 in
  let* nestedItemIds := validateNested client scan.2 sitecoreContextId language in
  fetchNested client sitecoreContextId language (d_currentItemId d) referencedByMap
    results.1 results.2 itemIds nestedItemIds.

Definition setData (v : option ItemInformationResponse) : M unit :=
  fun w => (Returned tt,
    {| outside := outside w; calls := calls w;
       hook := {| data := v; items := items (hook w);
                  loading := loading (hook w); error := error (hook w) |} |}).

Definition setItems (v : list ProcessedItemInfo) : M unit :=
  fun w => (Returned tt,
    {| outside := outside w; calls := calls w;
       hook := {| data := data (hook w); items := v;
                  loading := loading (hook w); error := error (hook w) |} |}).

Definition setLoading (v : bool) : M unit :=
  fun w => (Returned tt,
    {| outside := outside w; calls := calls w;
       hook := {| data := data (hook w); items := items (hook w);
                  loading := v; error := error (hook w) |} |}).

Definition setError (v : option string) : M unit :=
  fun w => (Returned tt,
    {| outside := outside w; calls := calls w;
       hook := {| data := data (hook w); items := items (hook w);
                  loading := loading (hook w); error := v |} |}).

(** [err instanceof Error ? err.message : 'Unknown error occurred'] *)
Definition errorMessageOf (err : Thrown) : string :=
  match err with
  | ErrorObj message => message
  | ThrownValue _ => "Unknown error occurred"
  end.

(** [fetchItemInformation] of [useItemInformation]. *)
Definition fetchItemInformation (client : option ClientSDK) (isInitialized : bool)
    (specificItemIds : option (list string)) : M unit :=
  match client, isInitialized with
  | Some c, true =>
      setLoading true;;
      setError None;;
      tryCatch
        (let* d := discover c specificItemIds in
         let* cd := gather c d in
         let processedItems :=
           processItemData (cd_authoringResult cd) (cd_liveResult cd)
             (cd_itemIds cd) (cd_currentItemId cd) (Some (cd_referencedByMap cd)) in
         let itemInformationResponse := createItemInformationResponse processedItems in
         setData (Some itemInformationResponse);;
         setItems processedItems)
        (fun err =>
           setError (Some (errorMessageOf err));;
           setData None;;
           setItems []);;
      setLoading false
  | _, _ => setError (Some "Marketplace client not initialized")
  end.

(** [fetchSpecificItems] of [useSpecificItemsInformation]. *)
Definition fetchSpecificItems (client : option ClientSDK) (isInitialized : bool)
    (itemIds : list string) : M unit :=
  match client, isInitialized, itemIds with
  | Some c, true, _ :: _ =>
      setLoading true;;
      setError None;;
      tryCatch
        (let* results := fetchBoth c itemIds None "en" in
         let processedItems :=
           processItemData results.1 results.2 itemIds (head itemIds) None in
         let itemInformationResponse := createItemInformationResponse processedItems in
         setData (Some itemInformationResponse);;
         setItems processedItems)
        (fun err =>
           setError (Some (errorMessageOf err));;
           setData None;;
           setItems []);;
      setLoading false
  | _, _, _ =>
      setError (Some (match itemIds with
                      | [] => "No item IDs provided"
                      | _ :: _ => "Marketplace client not initialized"
                      end))
  end.

(** ** The rest of utils/graphqlQueries.ts *)

Definition previewSelection (language : string) (index : nat) (id : string) : string :=
  Js.nl +:+
  "        item" +:+ Js.ofNat index +:+ ": item(path: " +:+ Js.dq +:+ id +:+ Js.dq +:+
     ", language: " +:+ Js.dq +:+ language +:+ Js.dq +:+ ") {" +:+ Js.nl +:+
  "          id" +:+ Js.nl +:+
  "          name" +:+ Js.nl +:+
  "          version" +:+ Js.nl +:+
  "          language {" +:+ Js.nl +:+
  "            name" +:+ Js.nl +:+
  "          }" +:+ Js.nl +:+
  "        }" +:+ Js.nl +:+
  "      ".

Definition previewQuery (itemIds : list string) (language : string) : string :=
  Js.nl +:+
  "    query GetPreviewItems {" +:+ Js.nl +:+
  "      " +:+ Js.join (imap (previewSelection language) itemIds) +:+ Js.nl +:+
  "    }" +:+ Js.nl +:+
  "  ".

(** Query the preview endpoint for multiple items. *)
Definition getItemsFromPreview (client : option ClientSDK) (itemIds : list string)
    (sitecoreContextId : option string) (language : string)
    : M (option ItemQueryResult) :=
  match client, itemIds with
  | None, _ | _, [] => ret (Some emptyResult)
  | Some c, _ :: _ =>
      let query := previewQuery itemIds language in
      tryCatch
        (let* result :=
           callMutate c "xmc.preview.graphql"
             {| mp_context := queryParams sitecoreContextId;
                mp_query := Js.trim query |} (Identifiers itemIds) in
         ret result)
        (fun error => ret (Some (errorMarker error)))
  end.

(** What [validateGraphQLResponse] returns. *)
Record Validation : Type := mkValidation {
  isValid : bool;
  errors : list string }.

(** Helper function to validate GraphQL response structure. *)
Definition validateGraphQLResponse (response : option ItemQueryResult) : Validation :=
  match response with
  | None => {| isValid := false; errors := ["Response is null or undefined"] |}
  | Some r =>
      let errors := [] in
      let errors :=
        match qr_error r with
        | Some error =>
            if errorTruthy error
            then errors ++ ["Response error: " +:+ errorText error]
            else errors
        | None => errors
        end in
      let errors :=
        match qr_data r with
        | None => errors ++ ["No data in response"]
        | Some body =>
            match body_data body with
            | None => errors ++ ["No nested data in response.data"]
            | Some _ => errors
            end
        end in
      {| isValid := bool_decide (length errors = 0); errors := errors |}
  end.

(** ** The rest of hooks/useItemInformation.ts *)

(** [refetch] and [forceRefresh] of [useItemInformation]. [forceRefresh]
    clears the three cells and then starts a cycle. *)
Definition refetch (client : option ClientSDK) (isInitialized : bool) : M unit :=
  fetchItemInformation client isInitialized None.

Definition forceRefresh (client : option ClientSDK) (isInitialized : bool) : M unit :=
  setData None;;
  setItems [];;
  setError None;;
  fetchItemInformation client isInitialized None.

(** ** The vocabulary of the statements *)

(** The turn that the answer to a strategy's batch leads to. *)
Definition turnOf (localPaths : list string) (resolvedItems : JSObj (option string))
    (answer : outcome (option ItemQueryResult)) : Turn :=
  match answer with
  | Returned response =>
      let '(result, foundItems) := readResponse localPaths response in
      if decide (foundItems = length localPaths) then ReturnResult result
      else if decide (0 < foundItems)
           then NextStrategy (Obj.spread resolvedItems result)
           else NextStrategy resolvedItems
  | Threw _ => NextStrategy resolvedItems
  end.

(** What a logged batch resolved: the [result] record and [foundItems]
    read from its answer (nothing when the call threw). *)
Definition resultIn (localPaths : list string) (call : Call) : JSObj (option string) :=
  match call with
  | MutateCall _ _ _ (Returned response) => (readResponse localPaths response).1
  | _ => []
  end.

Definition foundIn (localPaths : list string) (call : Call) : nat :=
  match call with
  | MutateCall _ _ _ (Returned response) => (readResponse localPaths response).2
  | _ => 0
  end.

(** The batch resolved every path; the batch resolved this path. *)
Definition resolvesAll (localPaths : list string) (call : Call) : bool :=
  match call with
  | MutateCall _ _ _ (Returned response) =>
      bool_decide ((readResponse localPaths response).2 = length localPaths)
  | _ => false
  end.

Definition resolvesPath (localPaths : list string) (localPath : string) (call : Call) : bool :=
  match Obj.get localPath (resultIn localPaths call) with
  | Some (Some _) => true
  | _ => false
  end.

(** The batch of a strategy, as logged. *)
Definition strategyCall (localPaths : list string) (basePath sitecoreContextId language : string)
    (strategy : string -> string -> string)
    (answer : outcome (option ItemQueryResult)) : Call :=
  MutateCall "xmc.authoring.graphql"
    (strategyParams localPaths basePath sitecoreContextId language strategy)
    (Paths localPaths) answer.

(** The answer record holds, under the alias [path<index>], an item with a
    non-empty identifier. *)
Definition answersPath (responseData : ItemsData) (index : nat) : bool :=
  match Obj.get ("path" +:+ Js.ofNat index) responseData with
  | Some (Some item) => Js.truthyOpt (item_itemId item)
  | _ => false
  end.

(** The store answered the batch, and its answer holds an item with an
    identifier for each of the relative paths, the i-th under [path<i>]. *)
Definition answersAll (localPaths : list string)
    (answer : outcome (option ItemQueryResult)) : bool :=
  match answer with
  | Returned response =>
      match innerData response with
      | Some responseData =>
          forallb (answersPath responseData) (seq 0 (length localPaths))
      | None => false
      end
  | Threw _ => false
  end.

(** The runs of the strategy loop: from the strategies that remain and an
    accumulator, the batches issued and the record returned. *)
Inductive Cascade (localPaths : list string) (basePath sitecoreContextId language : string)
  : list (string -> string -> string) -> JSObj (option string) ->
    list Call -> JSObj (option string) -> Prop :=
| cascade_exhausted resolvedItems :
    Cascade localPaths basePath sitecoreContextId language [] resolvedItems [] resolvedItems
| cascade_return strategy later resolvedItems answer result :
    turnOf localPaths resolvedItems answer = ReturnResult result ->
    Cascade localPaths basePath sitecoreContextId language
      (strategy :: later) resolvedItems
      [strategyCall localPaths basePath sitecoreContextId language strategy answer]
      result
| cascade_next strategy later resolvedItems answer resolvedItems' batches result :
    turnOf localPaths resolvedItems answer = NextStrategy resolvedItems' ->
    Cascade localPaths basePath sitecoreContextId language
      later resolvedItems' batches result ->
    Cascade localPaths basePath sitecoreContextId language
      (strategy :: later) resolvedItems
      (strategyCall localPaths basePath sitecoreContextId language strategy answer :: batches)
      result.

(** A world that differs from [w] by the outside state and by the calls
    appended to the trace. *)
Definition after (w : World) (s : St) (batches : list Call) : World :=
  {| outside := s; calls := calls w ++ batches; hook := hook w |}.

Definition nullish (entry : option (option string)) : Prop :=
  entry = None \/ entry = Some None.

(** [m] never throws and leaves the React state alone: from any world it
    returns a value, having appended some calls to the trace, and the
    value and the calls satisfy [post]. *)
Definition returns {A : Type} (m : M A) (post : A -> list Call -> Prop) : Prop :=
  forall w, exists a batches s,
    m w = (Returned a, after w s batches) /\ post a batches.

(** The result of the authoring lookup, from the answer to its call. *)
Definition authoringResultOf (answer : outcome (option ItemQueryResult))
    : option ItemQueryResult :=
  match answer with
  | Returned result => result
  | Threw error => Some (errorMarker error)
  end.

(** The result of the live lookup, from the answer to its call. *)
Definition liveResultOf (answer : outcome HttpResponse) : ItemQueryResult :=
  match answer with
  | Returned response =>
      if resp_ok response
      then match resp_json response with
           | Returned result => {| qr_data := result; qr_error := None |}
           | Threw error => errorMarker error
           end
      else errorMarker
             (ErrorObj ("HTTP error! status: " +:+ Js.ofNat (resp_status response)))
  | Threw error => errorMarker error
  end.

Definition tokenMissing : Thrown :=
  ErrorObj "VITE_SITECORE_EDGE_TOKEN environment variable is not set. Please configure your Experience Edge API token.".

(** The requests of the two lookups. *)
Definition authoringParams (itemIds : list string) (sitecoreContextId : option string)
    (language : string) : MutateParams :=
  {| mp_context := queryParams sitecoreContextId;
     mp_query := Js.trim (authoringQuery itemIds language) |}.

Definition authoringCall (itemIds : list string) (sitecoreContextId : option string)
    (language : string) (answer : outcome (option ItemQueryResult)) : Call :=
  MutateCall "xmc.authoring.graphql" (authoringParams itemIds sitecoreContextId language)
    (Identifiers itemIds) answer.

Definition liveCall (itemIds : list string) (language : string)
    (answer : outcome HttpResponse) : Call :=
  FetchCall LIVE_ENDPOINT (liveInit (liveQuery itemIds language)) (Identifiers itemIds) answer.

(** An identifier is canonical when canonicalizing leaves it as it is. *)
Definition canonical (id : string) : Prop := cleanGuid id = id.

Definition allCanonical (o : JSObj (option string)) : Prop :=
  forall p id, (p, Some id) ∈ o -> canonical id.

(** The state of the scan: [referencedByMap] and [nestedItemIds]. *)
Definition ScanState : Type := gmap string (list ParentInfo) * list string.

(** The parent identifier [pid] is recorded for [guid]. *)
Definition recorded (st : ScanState) (guid pid : string) : Prop :=
  exists refs, st.1 !! guid = Some refs /\ pid ∈ parent_id <$> refs.

(** What every state of the scan satisfies. *)
Definition scanInvariant (itemIds : list string) (st : ScanState) : Prop :=
  (forall guid, guid ∈ st.2 -> guid ∉ itemIds)
  /\ NoDup st.2
  /\ Forall canonical st.2
  /\ (forall guid refs, st.1 !! guid = Some refs -> NoDup (parent_id <$> refs)).

(** A property of the scan state that no recorded match undoes. *)
Definition stable (itemIds : list string) (P : ScanState -> Prop) : Prop :=
  forall parentInfo st matched,
    P st -> P (recordMatch itemIds parentInfo st matched).

(** The entries of a result's record, in order; none when it has no data. *)
Definition entriesOf (result : option ItemQueryResult) : list (option Item) :=
  match innerData result with
  | Some itemsData => Obj.values itemsData
  | None => []
  end.

(** The path is empty or starts with an excluded prefix. *)
Definition rejectedPath (itemPath : string) : Prop :=
  itemPath = EmptyString
  \/ Js.startsWith itemPath "/sitecore/system/" = true
  \/ Js.startsWith itemPath "/sitecore/templates/" = true
  \/ Js.startsWith itemPath "/sitecore/layout/" = true.

(** Entry by entry, the record answers the identifiers in order: an entry
    is null or an item whose canonical identifier is the one requested. *)
Fixpoint answersFor (itemIds : list string) (entries : list (option Item)) : bool :=
  match entries, itemIds with
  | [], _ => true
  | _ :: _, [] => false
  | nestedItem :: entries', itemId :: itemIds' =>
      match nestedItem with
      | Some _ => bool_decide (cleanGuid (idOf nestedItem) = cleanGuid itemId)
      | None => true
      end && answersFor itemIds' entries'
  end.

(** A logged call by identifiers was answered as asked (calls that threw,
    and calls of other kinds, do not count against it). *)
Definition faithfulCall (call : Call) : bool :=
  match call with
  | MutateCall _ _ (Identifiers itemIds) (Returned response) =>
      answersFor itemIds (entriesOf response)
  | _ => true
  end.

(** What the cycle hands to [processItemData]: the discovered identifiers,
    then the resolved ones that were new, then the validated nested ones. *)
Definition gathered (d : Discovery) (cd : CycleData) (batches : list Call) : Prop :=
  exists added sitecoreContextId authoringResult validNestedIds,
    let itemIds := d_itemIds d ++ added in
    let candidates := (extractReferences itemIds authoringResult).2 in
    cd_itemIds cd = itemIds ++ validNestedIds
    /\ cd_currentItemId cd = d_currentItemId d
    /\ cd_referencedByMap cd = (extractReferences itemIds authoringResult).1
    /\ Forall canonical added
    /\ (NoDup (d_itemIds d) -> NoDup itemIds)
    /\ ((candidates = [] /\ validNestedIds = [])
        \/ exists answer,
             authoringCall candidates sitecoreContextId (d_language d) answer ∈ batches
             /\ validNestedIds = validNestedIdsOf (authoringResultOf answer)).

(** The two results of a lookup of [itemIds], read off the calls of a run:
    the authoring result off the answer to the authoring call, the live
    result off the answer to the live request, or, when no token is
    configured and no request is sent, the marker of the missing token. *)
Definition lookedUp (itemIds : list string) (sitecoreContextId : option string)
    (language : string) (authoringResult : option ItemQueryResult)
    (liveResult : ItemQueryResult) (batches : list Call) : Prop :=
  (exists answer,
     authoringCall itemIds sitecoreContextId language answer ∈ batches
     /\ authoringResult = authoringResultOf answer)
  /\ (if Js.truthy LIVE_TOKEN
      then exists answer,
             liveCall itemIds language answer ∈ batches
             /\ liveResult = liveResultOf answer
      else liveResult = errorMarker tokenMissing).

(** What the cycle hands to [processItemData], given the two results for
    the main list: these results and the list as they are, or, when
    nested identifiers passed validation, each result merged with the
    result of the same source for the nested identifiers. Nested
    identifiers come from authoring data only. *)
Definition handedOn (itemIds : list string) (sitecoreContextId : option string)
    (language : string) (authoringResult : option ItemQueryResult)
    (liveResult : ItemQueryResult) (cd : CycleData) (batches : list Call) : Prop :=
  (cd_authoringResult cd = authoringResult
   /\ cd_liveResult cd = Some liveResult
   /\ cd_itemIds cd = itemIds)
  \/ exists nestedItemIds nestedAuthoringResult nestedLiveResult,
       nestedItemIds <> []
       /\ is_Some (innerData authoringResult)
       /\ lookedUp nestedItemIds sitecoreContextId language
            nestedAuthoringResult nestedLiveResult batches
       /\ cd_authoringResult cd = mergeNested authoringResult nestedAuthoringResult
       /\ cd_liveResult cd = mergeNested (Some liveResult) (Some nestedLiveResult)
       /\ cd_itemIds cd = itemIds ++ nestedItemIds.

(** The data of a cycle comes from the two sources. *)
Definition sourced (d : Discovery) (cd : CycleData) (batches : list Call) : Prop :=
  exists sitecoreContextId itemIds authoringResult liveResult,
    (d_localPathsToResolve d = [] -> itemIds = d_itemIds d)
    /\ lookedUp itemIds sitecoreContextId (d_language d) authoringResult liveResult batches
    /\ handedOn itemIds sitecoreContextId (d_language d) authoringResult liveResult
         cd batches.

(** The world with the React state replaced. *)
Definition withHook (w : World) (h : HookState) : World :=
  {| outside := outside w; calls := calls w; hook := h |}.

(** The React state once a cycle has failed, and once it has completed. *)
Definition failedWith (message : string) : HookState :=
  {| data := None; items := []; loading := false; error := Some message |}.

Definition completedWith (cd : CycleData) : HookState :=
  let processedItems :=
    processItemData (cd_authoringResult cd) (cd_liveResult cd) (cd_itemIds cd)
      (cd_currentItemId cd) (Some (cd_referencedByMap cd)) in
  {| data := Some (createItemInformationResponse processedItems);
     items := processedItems; loading := false; error := None |}.

(** The world once the cycle has set [loading] and cleared [error]. *)
Definition started (w : World) : World :=
  withHook w {| data := data (hook w); items := items (hook w);
                loading := true; error := None |}.

(** *** The canonical text of an identifier *)

Definition isUpperHex (c : ascii) : bool :=
  let n := nat_of_ascii c in
  (((48 <=? n) && (n <=? 57)) || ((65 <=? n) && (n <=? 70)))%nat%bool.

(** [n] upper-case hexadecimal digits at the head of [s]: what follows them. *)
Fixpoint upperHexRun (n : nat) (s : string) : option string :=
  match n with
  | 0 => Some s
  | S k =>
      match s with
      | String c r => if isUpperHex c then upperHexRun k r else None
      | EmptyString => None
      end
  end.

(** The text is 8-4-4-4-12 upper-case hexadecimal digits, hyphenated, and
    nothing else. *)
Definition isCanonicalGuid (s : string) : bool :=
  match
    (s ← upperHexRun 8 s; s ← GuidRegex.dash s;
     s ← upperHexRun 4 s; s ← GuidRegex.dash s;
     s ← upperHexRun 4 s; s ← GuidRegex.dash s;
     s ← upperHexRun 4 s; s ← GuidRegex.dash s;
     upperHexRun 12 s)
  with
  | Some EmptyString => true
  | _ => false
  end.

(** *** Probing the application context *)

(** A resource context carries a context identifier under one of the three
    names the hook reads. *)
Definition carriesId (context : ResourceContext) : bool :=
  Js.truthyOpt (ctx_preview context) || Js.truthyOpt (ctx_live context)
  || Js.truthyOpt (ctx_master context).

(** Records with one pair per key whose keys are input paths. *)
Definition properRecord (localPaths : list string) (o : JSObj (option string)) : Prop :=
  NoDup (Obj.keys o) /\ forall p, p ∈ Obj.keys o -> p ∈ localPaths.

(** *** The preview lookup *)

Definition previewCall (itemIds : list string) (sitecoreContextId : option string)
    (language : string) (answer : outcome (option ItemQueryResult)) : Call :=
  MutateCall "xmc.preview.graphql"
    {| mp_context := queryParams sitecoreContextId;
       mp_query := Js.trim (previewQuery itemIds language) |}
    (Identifiers itemIds) answer.

(** *** Steps that do not look at the React state *)

(** [m] neither reads nor writes the cells of the hook: run from a world
    with other cells, it returns the same value, makes the same calls, and
    leaves those cells in place. *)
Definition oblivious {A : Type} (m : M A) : Prop :=
  forall w h, m (withHook w h) = ((m w).1, withHook (m w).2 h).

(** A call other than the query of the page context. *)
Definition notPages (call : Call) : Prop := call <> QueryCall "pages.context".

(** At most [n] calls, none of them the query of the page context. *)
Definition within {A : Type} (n : nat) : A -> list Call -> Prop :=
  fun _ batches => length batches <= n /\ Forall notPages batches.

(** *** Where a reference comes from *)

(** The scan of [authoringResult] finds [guid] in a scanned field of an
    item whose parent record is [parent]. *)
Definition discoveredBy (authoringResult : option ItemQueryResult)
    (guid : string) (parent : ParentInfo) : Prop :=
  exists item nodes field value matched,
    Some item ∈ entriesOf authoringResult
    /\ item_fields item = Some nodes
    /\ field ∈ nodes
    /\ scannedValue field = Some value
    /\ matched ∈ GuidRegex.matches value
    /\ cleanGuid matched = guid
    /\ parent = parentInfoOf item nodes.

(** Everything in the state of the scan was discovered. *)
Definition scanSound (authoringResult : option ItemQueryResult) (st : ScanState) : Prop :=
  (forall guid, guid ∈ st.2 -> exists parent, discoveredBy authoringResult guid parent)
  /\ (forall guid refs ref,
        st.1 !! guid = Some refs -> ref ∈ refs -> discoveredBy authoringResult guid ref).

(** *** Positional aliases *)

(** [item0], ..., [item(n-1)] *)
Definition aliases (n : nat) : list string :=
  (fun index => "item" +:+ Js.ofNat index) <$> seq 0 n.

(** The record answers [n] identifiers under their positional aliases. *)
Definition positional (n : nat) (itemsData : ItemsData) : Prop :=
  Obj.keys itemsData = aliases n.

(** * Properties *)

(** ** The resolver *)

Lemma after_nil w : after w (outside w) [] = w.
Proof. destruct w; unfold after; simpl. by rewrite app_nil_r. Qed.

Lemma after_after w s batches s' batches' :
  after (after w s batches) s' batches' = after w s' (batches ++ batches').
Proof. unfold after; simpl. by rewrite app_assoc. Qed.

Lemma callMutate_run client endpoint params batch w :
  callMutate client endpoint params batch w =
  let answer := (mutate client endpoint params (outside w)).1 in
  (answer, after w (mutate client endpoint params (outside w)).2
             [MutateCall endpoint params batch answer]).
Proof.
  unfold callMutate. destruct (mutate client endpoint params (outside w)); reflexivity.
Qed.

Lemma tryStrategy_run client localPaths basePath sitecoreContextId language resolvedItems strategy w :
  let params := strategyParams localPaths basePath sitecoreContextId language strategy in
  let answer := (mutate client "xmc.authoring.graphql" params (outside w)).1 in
  tryStrategy client localPaths basePath sitecoreContextId language resolvedItems strategy w =
  (Returned (turnOf localPaths resolvedItems answer),
   after w (mutate client "xmc.authoring.graphql" params (outside w)).2
     [strategyCall localPaths basePath sitecoreContextId language strategy answer]).
Proof.
  intros params answer. unfold tryStrategy, tryCatch, bind.
  rewrite callMutate_run. fold params. fold answer.
  unfold strategyCall. fold params.
  destruct answer as [response|e]; simpl; [|reflexivity].
  destruct (readResponse localPaths response) as [result foundItems].
  repeat case_decide; reflexivity.
Qed.

Lemma resolveLoop_run client localPaths basePath sitecoreContextId language strategies :
  forall resolvedItems w,
  exists result batches s,
    resolveLoop client localPaths basePath sitecoreContextId language
      strategies resolvedItems w = (Returned result, after w s batches)
    /\ Cascade localPaths basePath sitecoreContextId language
         strategies resolvedItems batches result.
Proof.
  induction strategies as [|strategy later IH]; intros resolvedItems w.
  - exists resolvedItems, [], (outside w). rewrite after_nil. split; [reflexivity|constructor].
  - cbn [resolveLoop]. unfold bind at 1. rewrite tryStrategy_run.
    set (params := strategyParams _ _ _ _ _).
    set (answer := (mutate client _ params (outside w)).1).
    set (s1 := (mutate client _ params (outside w)).2).
    destruct (turnOf localPaths resolvedItems answer) as [result|resolvedItems'] eqn:Hturn.
    + exists result, [strategyCall localPaths basePath sitecoreContextId language strategy answer], s1.
      split; [reflexivity|]. by apply cascade_return.
    + destruct (IH resolvedItems' (after w s1
        [strategyCall localPaths basePath sitecoreContextId language strategy answer]))
        as (result & batches & s & Hrun & Hc).
      exists result, (strategyCall localPaths basePath sitecoreContextId language strategy answer :: batches), s.
      split.
      * rewrite Hrun, after_after. reflexivity.
      * by eapply cascade_next.
Qed.

Lemma turnOf_return localPaths basePath sitecoreContextId language strategy resolvedItems answer result :
  turnOf localPaths resolvedItems answer = ReturnResult result ->
  let call := strategyCall localPaths basePath sitecoreContextId language strategy answer in
  resolvesAll localPaths call = true /\ result = resultIn localPaths call.
Proof.
  unfold turnOf, strategyCall. destruct answer as [response|e]; simpl; [|discriminate].
  destruct (readResponse localPaths response) as [r f]; simpl.
  destruct (decide (f = length localPaths)) as [Hall|Hnot].
  - intros [= <-]. split; [by apply bool_decide_eq_true|reflexivity].
  - destruct (decide (0 < f)); discriminate.
Qed.

Lemma turnOf_next localPaths basePath sitecoreContextId language strategy resolvedItems answer resolvedItems' :
  turnOf localPaths resolvedItems answer = NextStrategy resolvedItems' ->
  let call := strategyCall localPaths basePath sitecoreContextId language strategy answer in
  resolvesAll localPaths call = false
  /\ ((foundIn localPaths call = 0 /\ resolvedItems' = resolvedItems)
      \/ (0 < foundIn localPaths call
          /\ resolvedItems' = Obj.spread resolvedItems (resultIn localPaths call))).
Proof.
  unfold turnOf, strategyCall. destruct answer as [response|e]; simpl.
  - destruct (readResponse localPaths response) as [r f]; simpl.
    destruct (decide (f = length localPaths)) as [Hall|Hnot]; [discriminate|].
    destruct (decide (0 < f)) as [Hsome|Hnone]; intros [= <-].
    + split; [by apply bool_decide_eq_false|]. right. done.
    + split; [by apply bool_decide_eq_false|]. left. split; [lia|done].
  - intros [= <-]. split; [reflexivity|]. left. done.
Qed.

Section CascadeFacts.
Context (localPaths : list string) (basePath sitecoreContextId language : string).

Lemma cascade_length strategies resolvedItems batches result :
  Cascade localPaths basePath sitecoreContextId language strategies resolvedItems batches result ->
  length batches <= length strategies.
Proof. induction 1; simpl; lia. Qed.

Lemma cascade_calls strategies resolvedItems batches result :
  Cascade localPaths basePath sitecoreContextId language strategies resolvedItems batches result ->
  forall k call, batches !! k = Some call ->
  exists strategy answer,
    strategies !! k = Some strategy
    /\ call = strategyCall localPaths basePath sitecoreContextId language strategy answer.
Proof.
  induction 1 as [|strategy later acc answer result Hturn
                  |strategy later acc answer acc' batches result Hturn Hc IH];
    intros k call Hk.
  - by rewrite lookup_nil in Hk.
  - destruct k; simpl in Hk; [|by rewrite lookup_nil in Hk].
    injection Hk as <-. by exists strategy, answer.
  - destruct k; simpl in Hk.
    + injection Hk as <-. by exists strategy, answer.
    + by apply IH.
Qed.

Lemma cascade_stops strategies resolvedItems batches result :
  Cascade localPaths basePath sitecoreContextId language strategies resolvedItems batches result ->
  forall k call, batches !! k = Some call ->
  resolvesAll localPaths call = true ->
  length batches = S k /\ result = resultIn localPaths call.
Proof.
  induction 1 as [|strategy later acc answer result Hturn
                  |strategy later acc answer acc' batches result Hturn Hc IH];
    intros k call Hk Hall.
  - by rewrite lookup_nil in Hk.
  - destruct k; simpl in Hk; [|by rewrite lookup_nil in Hk].
    injection Hk as <-. split; [reflexivity|].
    by apply (turnOf_return _ basePath sitecoreContextId language strategy) in Hturn as [_ ->].
  - destruct k; simpl in Hk.
    + injection Hk as <-.
      apply (turnOf_next _ basePath sitecoreContextId language strategy) in Hturn as [Hno _].
      congruence.
    + destruct (IH _ _ Hk Hall) as [Hlen ->]. simpl. by rewrite Hlen.
Qed.

(** A run that no batch ended early went through every strategy. *)
Lemma cascade_exhausted_length strategies resolvedItems batches result :
  Cascade localPaths basePath sitecoreContextId language strategies resolvedItems batches result ->
  (forall call, call ∈ batches -> resolvesAll localPaths call = false) ->
  length batches = length strategies.
Proof.
  induction 1 as [|strategy later acc answer result Hturn
                  |strategy later acc answer acc' batches result Hturn Hc IH]; intros Hno.
  - reflexivity.
  - apply (turnOf_return _ basePath sitecoreContextId language strategy) in Hturn as [Hall _].
    rewrite Hno in Hall; [discriminate|]. apply list_elem_of_here.
  - simpl. f_equal. apply IH. intros call Hin. apply Hno. by apply list_elem_of_further.
Qed.

End CascadeFacts.

Lemma resolveLocalDatasourcePaths_run client localPaths basePath sitecoreContextId language w :
  exists result batches s,
    resolveLocalDatasourcePaths client localPaths basePath sitecoreContextId language w
      = (Returned result, after w s batches)
    /\ ((batches = [] /\ result = [] /\ (client = None \/ localPaths = []))
        \/ (client <> None /\ localPaths <> [] /\
            Cascade localPaths basePath sitecoreContextId language
              pathStrategies [] batches result)).
Proof.
  unfold resolveLocalDatasourcePaths.
  destruct client as [c|].
  - destruct localPaths as [|localPath others].
    + exists [], [], (outside w). rewrite after_nil. split; [reflexivity|]. left. auto.
    + destruct (resolveLoop_run c (localPath :: others) basePath sitecoreContextId language
                  pathStrategies [] w) as (result & batches & s & Hrun & Hc).
      exists result, batches, s. split; [exact Hrun|]. right. done.
  - exists [], [], (outside w). rewrite after_nil. split; [reflexivity|]. left. auto.
Qed.

(** *** The loop's test, read off the answer *)

Lemma readPath_found responseData result foundItems index localPath :
  (readPath responseData (result, foundItems) (index, localPath)).2
  = if answersPath responseData index then S foundItems else foundItems.
Proof.
  unfold answersPath. simpl.
  destruct (Obj.get _ responseData) as [[item|]|]; [|reflexivity..].
  destruct (item_itemId item) as [itemId|]; [|reflexivity]. simpl.
  destruct (Js.truthy itemId); reflexivity.
Qed.

(** [foundItems] counts the entries whose alias the answer holds: it
    reaches the number of entries exactly when every alias is held. *)
Lemma fold_readPath_found responseData entries : forall result foundItems,
  let final := fold_left (readPath responseData) entries (result, foundItems) in
  final.2 <= foundItems + length entries
  /\ (final.2 = foundItems + length entries
      <-> forallb (fun entry => answersPath responseData entry.1) entries = true).
Proof.
  induction entries as [|[index localPath] entries IH]; intros result foundItems.
  - simpl. split; [lia|]. split; [done|lia].
  - cbn [fold_left length forallb fst].
    pose proof (readPath_found responseData result foundItems index localPath) as Hstep.
    destruct (readPath responseData (result, foundItems) (index, localPath))
      as [result' foundItems'].
    simpl in Hstep. subst foundItems'.
    destruct (IH result' (if answersPath responseData index then S foundItems else foundItems))
      as [Hle Hiff].
    destruct (answersPath responseData index); simpl in *.
    + split; [lia|]. rewrite <- Hiff. lia.
    + split; [lia|]. split; [lia|discriminate].
Qed.

Lemma forallb_imap_index {A : Type} (test : nat -> bool) (l : list A) : forall n,
  forallb (fun entry => test entry.1) (imap (fun index x => (n + index, x)) l)
  = forallb test (seq n (length l)).
Proof.
  induction l as [|x l IH]; intros n; [reflexivity|].
  cbn [imap length seq forallb fst]. rewrite Nat.add_0_r. f_equal.
  rewrite <- IH. f_equal. apply imap_ext. intros index y _. simpl. f_equal. lia.
Qed.

(** The loop's test for an early return holds of a batch exactly when the
    answer to the batch holds every alias. *)
Lemma resolvesAll_answersAll localPaths basePath sitecoreContextId language strategy answer :
  localPaths <> [] ->
  resolvesAll localPaths
    (strategyCall localPaths basePath sitecoreContextId language strategy answer)
  = answersAll localPaths answer.
Proof.
  intros Hne. unfold resolvesAll, strategyCall, answersAll, readResponse.
  destruct answer as [response|error]; [|reflexivity].
  destruct (innerData response) as [responseData|].
  - destruct (fold_readPath_found responseData (imap pair localPaths) [] 0) as [_ Hiff].
    rewrite length_imap in Hiff. simpl in Hiff.
    rewrite <- (forallb_imap_index (answersPath responseData) localPaths 0).
    change (imap (fun index x => (0 + index, x)) localPaths) with (imap pair localPaths).
    destruct (forallb _ (imap pair localPaths)).
    + apply bool_decide_eq_true. by apply Hiff.
    + apply bool_decide_eq_false. intros Hall. apply Hiff in Hall. discriminate.
  - simpl. apply bool_decide_eq_false. destruct localPaths; [done|discriminate].
Qed.

Lemma cascade_starts localPaths basePath sitecoreContextId language
    strategy later resolvedItems batches result :
  Cascade localPaths basePath sitecoreContextId language
    (strategy :: later) resolvedItems batches result ->
  0 < length batches.
Proof. inversion 1; simpl; lia. Qed.

(** Every batch of a run is the batch of its strategy; the run ends with
    the first batch whose answer holds every alias, and goes on to the
    next strategy, when there is one, after any other batch. *)
Lemma cascade_answers localPaths basePath sitecoreContextId language
    strategies resolvedItems batches result :
  localPaths <> [] ->
  Cascade localPaths basePath sitecoreContextId language strategies resolvedItems batches result ->
  forall k call, batches !! k = Some call ->
  exists strategy answer,
    strategies !! k = Some strategy
    /\ call = strategyCall localPaths basePath sitecoreContextId language strategy answer
    /\ (answersAll localPaths answer = true ->
        length batches = S k /\ result = resultIn localPaths call)
    /\ (answersAll localPaths answer = false ->
        S k < length strategies -> S k < length batches).
Proof.
  intros Hne.
  induction 1 as [|strategy later acc answer result Hturn
                  |strategy later acc answer acc' batches result Hturn Hc IH];
    intros k call Hk.
  - by rewrite lookup_nil in Hk.
  - destruct k; simpl in Hk; [|by rewrite lookup_nil in Hk].
    injection Hk as <-. exists strategy, answer.
    apply (turnOf_return _ basePath sitecoreContextId language strategy) in Hturn
      as [Hall ->].
    rewrite resolvesAll_answersAll in Hall by exact Hne.
    split; [reflexivity|]. split; [reflexivity|]. split; [done|].
    intros Hnot. congruence.
  - destruct k; simpl in Hk.
    + injection Hk as <-. exists strategy, answer.
      apply (turnOf_next _ basePath sitecoreContextId language strategy) in Hturn
        as [Hnot _].
      rewrite resolvesAll_answersAll in Hnot by exact Hne.
      split; [reflexivity|]. split; [reflexivity|]. split; [intros Hall; congruence|].
      intros _ Hmore. destruct later as [|next later]; [simpl in Hmore; lia|].
      apply cascade_starts in Hc. simpl. lia.
    + destruct (IH _ _ Hk) as (strategy' & answer' & Hs & -> & Hstop & Hgo).
      exists strategy', answer'. split; [exact Hs|]. split; [reflexivity|]. split.
      * intros Hall. destruct (Hstop Hall) as [Hlen ->]. simpl. by rewrite Hlen.
      * intros Hnot Hmore. simpl in *. specialize (Hgo Hnot). lia.
Qed.

(** C3. The datasource path resolver issues at most as many batched
    lookups as there are path construction strategies, four, whatever the
    number of relative paths: the calls it adds to the trace are the
    batches of the first strategies, in order, one each. A batch whose
    answer holds, for every relative path, an item with an identifier
    under the alias of the path is the last one issued, and the record
    read from it is the result returned; after any other batch the next
    strategy, when there is one, is tried. *)
Theorem resolver_batches_bounded client localPaths basePath sitecoreContextId language w :
  exists result batches s,
    resolveLocalDatasourcePaths client localPaths basePath sitecoreContextId language w
      = (Returned result, after w s batches)
    /\ length batches <= length pathStrategies
    /\ length pathStrategies = 4
    /\ forall k call, batches !! k = Some call ->
       exists strategy answer,
         pathStrategies !! k = Some strategy
         /\ call = strategyCall localPaths basePath sitecoreContextId language
                     strategy answer
         /\ (answersAll localPaths answer = true ->
             length batches = S k /\ result = resultIn localPaths call)
         /\ (answersAll localPaths answer = false ->
             S k < length pathStrategies -> S k < length batches).
Proof.
  destruct (resolveLocalDatasourcePaths_run client localPaths basePath
              sitecoreContextId language w)
    as (result & batches & s & Hrun & [(-> & -> & _)|(_ & Hne & Hc)]);
    exists result, batches, s || exists [], [], s.
  - split; [exact Hrun|]. split; [simpl; lia|]. split; [reflexivity|].
    intros k call Hk. by rewrite lookup_nil in Hk.
  - split; [exact Hrun|].
    split; [by eapply cascade_length|]. split; [reflexivity|].
    intros k call Hk. by eapply cascade_answers.
Qed.

(** *** Records: lookups after an assignment and after a spread *)

Lemma get_set {V : Type} (p k : string) (v : V) (o : JSObj V) :
  Obj.get p (Obj.set k v o) = if decide (p = k) then Some v else Obj.get p o.
Proof.
  induction o as [|[k' v'] o IH]; simpl.
  - destruct (decide (p = k)); reflexivity.
  - destruct (decide (k = k')) as [->|Hkk']; simpl.
    + destruct (decide (p = k')); reflexivity.
    + destruct (decide (p = k')) as [->|Hpk'].
      * destruct (decide (k' = k)); [congruence|reflexivity].
      * exact IH.
Qed.

Lemma get_app {V : Type} (p : string) (a b : JSObj V) :
  Obj.get p (a ++ b) =
  match Obj.get p a with Some v => Some v | None => Obj.get p b end.
Proof.
  induction a as [|[k v] a IH]; simpl; [reflexivity|].
  destruct (decide (p = k)); [reflexivity|exact IH].
Qed.

(** In [{ ...a, ...b }] a key of [b] holds the value [b] gives it last,
    and any other key keeps the value it has in [a]. *)
Lemma get_spread {V : Type} (p : string) (a b : JSObj V) :
  Obj.get p (Obj.spread a b) =
  match Obj.get p (reverse b) with Some v => Some v | None => Obj.get p a end.
Proof.
  unfold Obj.spread. revert a.
  induction b as [|[k v] b IH]; intros a; simpl; [reflexivity|].
  rewrite IH, reverse_cons, get_app, get_set. simpl.
  destruct (Obj.get p (reverse b)); [reflexivity|].
  destruct (decide (p = k)); reflexivity.
Qed.

Lemma get_reverse_None {V : Type} (p : string) (o : JSObj V) :
  Obj.get p o = None -> Obj.get p (reverse o) = None.
Proof.
  induction o as [|[k v] o IH]; simpl; [done|].
  destruct (decide (p = k)); [discriminate|]. intros Hnone.
  rewrite reverse_cons, get_app, (IH Hnone). simpl.
  destruct (decide (p = k)); [congruence|reflexivity].
Qed.

Lemma get_reverse_is_Some {V : Type} (p : string) (o : JSObj V) :
  is_Some (Obj.get p o) -> is_Some (Obj.get p (reverse o)).
Proof.
  induction o as [|[k v] o IH]; simpl; [done|].
  rewrite reverse_cons, get_app.
  destruct (decide (p = k)) as [->|Hne].
  - intros _. destruct (Obj.get k (reverse o)); [eauto|]. simpl.
    destruct (decide (k = k)); [eauto|congruence].
  - intros Hsome. destruct (IH Hsome) as [x ->]. eauto.
Qed.

(** A value found in the reversed record is one the record holds under
    that key. *)
Lemma get_reverse_elem {V : Type} (p : string) (v : V) (o : JSObj V) :
  Obj.get p (reverse o) = Some v -> (p, v) ∈ o.
Proof.
  induction o as [|[k x] o IH]; simpl; [discriminate|].
  rewrite reverse_cons, get_app.
  destruct (Obj.get p (reverse o)) as [y|] eqn:Hrev.
  - intros [= ->]. apply list_elem_of_further. by apply IH.
  - simpl. destruct (decide (p = k)) as [->|]; [|discriminate].
    intros [= ->]. apply list_elem_of_here.
Qed.

Lemma keys_set {V : Type} (k : string) (v : V) (o : JSObj V) :
  NoDup (Obj.keys o) -> NoDup (Obj.keys (Obj.set k v o))
  /\ forall p, p ∈ Obj.keys (Obj.set k v o) <-> p = k \/ p ∈ Obj.keys o.
Proof.
  unfold Obj.keys. induction o as [|[k' v'] o IH]; simpl.
  - intros _. split; [apply NoDup_singleton|]. intros p.
    rewrite list_elem_of_singleton, elem_of_nil. tauto.
  - rewrite NoDup_cons. intros [Hfresh Hnd].
    destruct (decide (k = k')) as [->|Hne]; simpl.
    + split; [by apply NoDup_cons|]. intros p. rewrite elem_of_cons. tauto.
    + destruct (IH Hnd) as [IHnd IHin]. split.
      * apply NoDup_cons. split; [|exact IHnd].
        rewrite IHin. intros [?|?]; [congruence|done].
      * intros p. rewrite !elem_of_cons, IHin. tauto.
Qed.

Lemma get_elem {V : Type} (p : string) (v : V) (o : JSObj V) :
  NoDup (Obj.keys o) -> (p, v) ∈ o -> Obj.get p o = Some v.
Proof.
  unfold Obj.keys. induction o as [|[k x] o IH]; simpl.
  - intros _ Hin. by apply elem_of_nil in Hin.
  - rewrite NoDup_cons. intros [Hfresh Hnd]. rewrite elem_of_cons.
    intros [[= -> ->]|Hin].
    + destruct (decide (k = k)); [reflexivity|congruence].
    + destruct (decide (p = k)) as [->|]; [|by apply IH].
      exfalso. apply Hfresh. apply list_elem_of_fmap. by exists (k, v).
Qed.

(** *** The record a strategy reads from its response *)

Lemma readPath_sets responseData acc entry :
  exists v, (readPath responseData acc entry).1 = Obj.set entry.2 v acc.1.
Proof.
  destruct acc as [result foundItems], entry as [index localPath]. simpl.
  destruct (Obj.get _ responseData) as [[item|]|]; [|by eexists..].
  destruct (item_itemId item) as [itemId|]; [|by eexists].
  destruct (Js.truthy itemId); by eexists.
Qed.

Lemma fold_readPath_keys responseData entries :
  forall acc, NoDup (Obj.keys acc.1) ->
  NoDup (Obj.keys (fold_left (readPath responseData) entries acc).1)
  /\ forall p, p ∈ Obj.keys (fold_left (readPath responseData) entries acc).1
               <-> p ∈ entries.*2 \/ p ∈ Obj.keys acc.1.
Proof.
  induction entries as [|entry entries IH]; intros acc Hnd; simpl.
  - split; [exact Hnd|]. intros p. rewrite elem_of_nil. tauto.
  - destruct (readPath_sets responseData acc entry) as [v Hset].
    destruct (keys_set entry.2 v acc.1 Hnd) as [Hnd' Hin'].
    rewrite <- Hset in Hnd', Hin'.
    destruct (IH _ Hnd') as [IHnd IHin]. split; [exact IHnd|].
    intros p. rewrite IHin, Hin', elem_of_cons. tauto.
Qed.

Lemma imap_pair_snd {A : Type} (l : list A) : (imap pair l).*2 = l.
Proof.
  rewrite fmap_imap. rewrite <- (list_fmap_id l) at 2.
  rewrite <- imap_const. reflexivity.
Qed.

Lemma get_is_Some_keys {V : Type} (p : string) (o : JSObj V) :
  is_Some (Obj.get p o) <-> p ∈ Obj.keys o.
Proof.
  unfold Obj.keys. induction o as [|[k v] o IH]; simpl.
  - rewrite elem_of_nil. split; [intros [? ?]; discriminate|tauto].
  - rewrite elem_of_cons. destruct (decide (p = k)) as [->|Hne].
    + split; eauto.
    + rewrite IH. tauto.
Qed.

(** A response with data gives every relative path an entry, and the
    record read has one pair per key. *)
Lemma readResponse_keys localPaths response responseData :
  innerData response = Some responseData ->
  NoDup (Obj.keys (readResponse localPaths response).1)
  /\ forall p, p ∈ localPaths -> is_Some (Obj.get p (readResponse localPaths response).1).
Proof.
  intros Hdata. unfold readResponse. rewrite Hdata.
  destruct (fold_readPath_keys responseData (imap pair localPaths) ([], 0))
    as [Hnd Hin]; [apply NoDup_nil_2|].
  split; [exact Hnd|]. intros p Hp. apply get_is_Some_keys, Hin.
  left. by rewrite imap_pair_snd.
Qed.

Lemma readResponse_nodup localPaths response :
  NoDup (Obj.keys (readResponse localPaths response).1).
Proof.
  destruct (innerData response) as [responseData|] eqn:Hdata.
  - by eapply readResponse_keys.
  - unfold readResponse. rewrite Hdata. apply NoDup_nil_2.
Qed.

Lemma resultIn_nodup localPaths call : NoDup (Obj.keys (resultIn localPaths call)).
Proof.
  destruct call as [|? ? ? [response|]|]; simpl; try apply NoDup_nil_2.
  apply readResponse_nodup.
Qed.

(** A batch that found a path has an entry for every path. *)
Lemma foundIn_covers localPaths call :
  0 < foundIn localPaths call ->
  forall p, p ∈ localPaths -> is_Some (Obj.get p (resultIn localPaths call)).
Proof.
  destruct call as [|? ? ? [response|]|]; simpl; try lia.
  destruct (innerData response) as [responseData|] eqn:Hdata.
  - intros _. by eapply readResponse_keys.
  - unfold readResponse. rewrite Hdata. simpl. lia.
Qed.

(** *** A cascade that no batch ended early *)

Section Exhaustion.
Context (localPaths : list string) (basePath sitecoreContextId language : string).

Lemma cascade_nothing_found strategies resolvedItems batches result :
  Cascade localPaths basePath sitecoreContextId language strategies resolvedItems batches result ->
  (forall call, call ∈ batches -> resolvesAll localPaths call = false) ->
  (forall call, call ∈ batches -> foundIn localPaths call = 0) ->
  result = resolvedItems.
Proof.
  induction 1 as [|strategy later acc answer result Hturn
                  |strategy later acc answer acc' batches result Hturn Hc IH];
    intros Hno Hzero.
  - reflexivity.
  - apply (turnOf_return _ basePath sitecoreContextId language strategy) in Hturn as [Hall _].
    rewrite Hno in Hall; [discriminate|]. apply list_elem_of_here.
  - apply (turnOf_next _ basePath sitecoreContextId language strategy) in Hturn
      as [_ [[_ ->]|[Hpos _]]].
    + apply IH; intros call Hin; [apply Hno|apply Hzero]; by apply list_elem_of_further.
    + rewrite Hzero in Hpos; [lia|]. apply list_elem_of_here.
Qed.

Lemma cascade_covers strategies resolvedItems batches result :
  Cascade localPaths basePath sitecoreContextId language strategies resolvedItems batches result ->
  (forall call, call ∈ batches -> resolvesAll localPaths call = false) ->
  (forall p, p ∈ localPaths -> is_Some (Obj.get p resolvedItems))
  \/ (exists call, call ∈ batches /\ 0 < foundIn localPaths call) ->
  forall p, p ∈ localPaths -> is_Some (Obj.get p result).
Proof.
  induction 1 as [|strategy later acc answer result Hturn
                  |strategy later acc answer acc' batches result Hturn Hc IH];
    intros Hno Hcov.
  - destruct Hcov as [Hcov|(call & Hin & _)]; [exact Hcov|]. by apply elem_of_nil in Hin.
  - apply (turnOf_return _ basePath sitecoreContextId language strategy) in Hturn as [Hall _].
    rewrite Hno in Hall; [discriminate|]. apply list_elem_of_here.
  - apply (turnOf_next _ basePath sitecoreContextId language strategy) in Hturn
      as [_ [[Hzero ->]|[Hpos ->]]].
    + apply IH; [intros call Hin; apply Hno; by apply list_elem_of_further|].
      destruct Hcov as [Hcov|(call & Hin & Hpos)]; [by left|].
      apply elem_of_cons in Hin as [->|Hin]; [lia|]. right. by exists call.
    + apply IH; [intros call Hin; apply Hno; by apply list_elem_of_further|].
      left. intros p Hp. rewrite get_spread.
      destruct (get_reverse_is_Some p _ (foundIn_covers _ _ Hpos p Hp)) as [v ->]. eauto.
Qed.

Lemma cascade_unresolved_null strategies resolvedItems batches result p :
  Cascade localPaths basePath sitecoreContextId language strategies resolvedItems batches result ->
  (forall call, call ∈ batches -> resolvesAll localPaths call = false) ->
  nullish (Obj.get p resolvedItems) ->
  (forall call, call ∈ batches -> resolvesPath localPaths p call = false) ->
  nullish (Obj.get p result).
Proof.
  induction 1 as [|strategy later acc answer result Hturn
                  |strategy later acc answer acc' batches result Hturn Hc IH];
    intros Hno Hnull Hnever.
  - exact Hnull.
  - apply (turnOf_return _ basePath sitecoreContextId language strategy) in Hturn as [Hall _].
    rewrite Hno in Hall; [discriminate|]. apply list_elem_of_here.
  - apply (turnOf_next _ basePath sitecoreContextId language strategy) in Hturn
      as [_ [[Hzero ->]|[Hpos ->]]].
    + apply IH; [intros call Hin; apply Hno; by apply list_elem_of_further|exact Hnull|].
      intros call Hin. apply Hnever. by apply list_elem_of_further.
    + apply IH; [intros call Hin; apply Hno; by apply list_elem_of_further| |].
      * rewrite get_spread.
        destruct (Obj.get p (reverse _)) as [v|] eqn:Hrev; [|exact Hnull].
        apply get_reverse_elem, get_elem in Hrev; [|apply resultIn_nodup].
        specialize (Hnever _ (list_elem_of_here _ _)).
        unfold resolvesPath in Hnever. rewrite Hrev in Hnever.
        destruct v; [discriminate|]. by right.
      * intros call Hin. apply Hnever. by apply list_elem_of_further.
Qed.

End Exhaustion.

(** C4 (amended). When the resolver has gone through its strategies and
    no batch resolved every path, the record returned is empty if no
    batch resolved any path; if some batch resolved a path, the record
    has an entry for every input path, and a path that no batch resolved
    is mapped to null. *)
Theorem resolver_exhausted_entries client localPaths basePath sitecoreContextId language w :
  exists result batches s,
    resolveLocalDatasourcePaths client localPaths basePath sitecoreContextId language w
      = (Returned result, after w s batches)
    /\ ((forall call, call ∈ batches -> resolvesAll localPaths call = false) ->
        ((forall call, call ∈ batches -> foundIn localPaths call = 0) -> result = [])
        /\ ((exists call, call ∈ batches /\ 0 < foundIn localPaths call) ->
            forall p, p ∈ localPaths ->
              is_Some (Obj.get p result)
              /\ ((forall call, call ∈ batches -> resolvesPath localPaths p call = false) ->
                  Obj.get p result = Some None))).
Proof.
  destruct (resolveLocalDatasourcePaths_run client localPaths basePath
              sitecoreContextId language w)
    as (result & batches & s & Hrun & Hshape).
  exists result, batches, s. split; [exact Hrun|]. intros Hno.
  destruct Hshape as [(-> & -> & _)|(_ & _ & Hc)].
  - split; [reflexivity|]. intros (call & Hin & _). by apply elem_of_nil in Hin.
  - split.
    + intros Hzero. by eapply cascade_nothing_found.
    + intros Hsome p Hp.
      assert (Hentry : is_Some (Obj.get p result)).
      { eapply cascade_covers; eauto. }
      split; [exact Hentry|]. intros Hnever.
      assert (Hnull : nullish (Obj.get p result)).
      { eapply cascade_unresolved_null; eauto. by left. }
      destruct Hnull as [Hnone|Hnull]; [|exact Hnull].
      rewrite Hnone in Hentry. by destruct Hentry.
Qed.

(** ** Steps that return *)

Lemma returns_ret {A : Type} (a : A) (post : A -> list Call -> Prop) :
  post a [] -> returns (ret a) post.
Proof.
  intros Hpost w. exists a, [], (outside w). by rewrite after_nil.
Qed.

Lemma returns_bind {A B : Type} (m : M A) (k : A -> M B)
    (P : A -> list Call -> Prop) (Q : A -> B -> list Call -> Prop) :
  returns m P ->
  (forall a, returns (k a) (Q a)) ->
  returns (bind m k)
    (fun b batches => exists a first second,
       batches = first ++ second /\ P a first /\ Q a b second).
Proof.
  intros Hm Hk w. destruct (Hm w) as (a & first & s1 & Hrun & HP).
  destruct (Hk a (after w s1 first)) as (b & second & s2 & Hrun' & HQ).
  exists b, (first ++ second), s2. unfold bind. rewrite Hrun, Hrun', after_after.
  split; [reflexivity|]. by exists a, first, second.
Qed.

Lemma returns_weaken {A : Type} (m : M A) (P Q : A -> list Call -> Prop) :
  returns m P -> (forall a batches, P a batches -> Q a batches) -> returns m Q.
Proof.
  intros Hm HPQ w. destruct (Hm w) as (a & batches & s & Hrun & HP).
  exists a, batches, s. split; [exact Hrun|]. by apply HPQ.
Qed.

Lemma returns_tryCatch {A : Type} (body : M A) (handler : Thrown -> M A)
    (P : A -> list Call -> Prop) :
  returns body P -> returns (tryCatch body handler) P.
Proof.
  intros Hm w. destruct (Hm w) as (a & batches & s & Hrun & HP).
  exists a, batches, s. unfold tryCatch. by rewrite Hrun.
Qed.

(** ** The two lookups *)

Lemma getItemsFromAuthoring_run client itemIds sitecoreContextId language w :
  itemIds <> [] ->
  let answer := mutate client "xmc.authoring.graphql"
                  (authoringParams itemIds sitecoreContextId language) (outside w) in
  getItemsFromAuthoring (Some client) itemIds sitecoreContextId language w =
  (Returned (authoringResultOf answer.1),
   after w answer.2 [authoringCall itemIds sitecoreContextId language answer.1]).
Proof.
  intros Hne answer. destruct itemIds as [|itemId others]; [done|].
  unfold getItemsFromAuthoring, tryCatch, bind. rewrite callMutate_run.
  fold (authoringParams (itemId :: others) sitecoreContextId language). fold answer.
  destruct (answer.1); reflexivity.
Qed.

Lemma getItemsFromAuthoring_returns client itemIds sitecoreContextId language :
  returns (getItemsFromAuthoring client itemIds sitecoreContextId language)
    (fun result batches =>
       (batches = [] /\ result = Some emptyResult /\ (client = None \/ itemIds = []))
       \/ (itemIds <> [] /\ exists answer,
             batches = [authoringCall itemIds sitecoreContextId language answer]
             /\ result = authoringResultOf answer)).
Proof.
  intros w. destruct client as [c|].
  - destruct itemIds as [|itemId others].
    + exists (Some emptyResult), [], (outside w). rewrite after_nil. split; [reflexivity|].
      left. auto.
    + rewrite getItemsFromAuthoring_run by done. eexists _, _, _. split; [reflexivity|].
      right. split; [done|]. by eexists.
  - exists (Some emptyResult), [], (outside w). rewrite after_nil.
    split; [by destruct itemIds|]. left. auto.
Qed.

Lemma callFetch_run url init batch w :
  callFetch url init batch w =
  let answer := (fetch url init (outside w)).1 in
  (answer, after w (fetch url init (outside w)).2 [FetchCall url init batch answer]).
Proof.
  unfold callFetch. destruct (fetch url init (outside w)); reflexivity.
Qed.

Lemma getItemsFromLive_run client itemIds sitecoreContextId language w :
  itemIds <> [] ->
  let answer := fetch LIVE_ENDPOINT (liveInit (liveQuery itemIds language)) (outside w) in
  getItemsFromLive client itemIds sitecoreContextId language w =
  if Js.truthy LIVE_TOKEN
  then (Returned (liveResultOf answer.1),
        after w answer.2 [liveCall itemIds language answer.1])
  else (Returned (errorMarker tokenMissing), w).
Proof.
  intros Hne answer. destruct itemIds as [|itemId others]; [done|].
  unfold getItemsFromLive, tryCatch, bind.
  destruct (Js.truthy LIVE_TOKEN); [|reflexivity].
  rewrite callFetch_run. fold answer. unfold liveCall, liveResultOf.
  destruct (answer.1) as [response|e]; [|reflexivity].
  destruct (resp_ok response); [|reflexivity].
  destruct (resp_json response); reflexivity.
Qed.

Lemma getItemsFromLive_returns client itemIds sitecoreContextId language :
  returns (getItemsFromLive client itemIds sitecoreContextId language)
    (fun result batches =>
       (batches = [] /\ (result = emptyResult \/ result = errorMarker tokenMissing))
       \/ exists answer,
            batches = [liveCall itemIds language answer] /\ result = liveResultOf answer).
Proof.
  intros w. destruct itemIds as [|itemId others].
  - exists emptyResult, [], (outside w). rewrite after_nil. split; [reflexivity|].
    left. auto.
  - rewrite getItemsFromLive_run by done. destruct (Js.truthy LIVE_TOKEN).
    + eexists _, _, _. split; [reflexivity|]. right. by eexists.
    + exists (errorMarker tokenMissing), [], (outside w). rewrite after_nil.
      split; [reflexivity|]. left. auto.
Qed.

(** C9. The live lookup depends on the identifier list and the language
    only: with the same identifiers and language, any two clients and any
    two context identifiers give the same run, and the one request the
    run may send is the live query of the identifiers and the language. *)
Theorem live_lookup_ignores_client client1 client2 itemIds
    sitecoreContextId1 sitecoreContextId2 language w :
  getItemsFromLive client1 itemIds sitecoreContextId1 language w
  = getItemsFromLive client2 itemIds sitecoreContextId2 language w
  /\ exists result batches s,
       getItemsFromLive client1 itemIds sitecoreContextId1 language w
       = (Returned result, after w s batches)
       /\ forall call, call ∈ batches ->
            exists answer, call = liveCall itemIds language answer
                           /\ result = liveResultOf answer.
Proof.
  split; [reflexivity|].
  destruct (getItemsFromLive_returns client1 itemIds sitecoreContextId1 language w)
    as (result & batches & s & Hrun & [[-> _]|(answer & -> & ->)]);
    eexists _, _, s; (split; [exact Hrun|]); intros call Hin.
  - by apply elem_of_nil in Hin.
  - apply list_elem_of_singleton in Hin as ->. by exists answer.
Qed.

(** ** Canonical identifiers *)

Lemma upperChar_idempotent c : Js.upperChar (Js.upperChar c) = Js.upperChar c.
Proof. destruct c as [[] [] [] [] [] [] [] []]; reflexivity. Qed.

Lemma isBrace_upperChar c : Js.isBrace (Js.upperChar c) = Js.isBrace c.
Proof. destruct c as [[] [] [] [] [] [] [] []]; reflexivity. Qed.

Lemma toUpperCase_idempotent s : Js.toUpperCase (Js.toUpperCase s) = Js.toUpperCase s.
Proof. induction s as [|c s IH]; simpl; [reflexivity|]. by rewrite upperChar_idempotent, IH. Qed.

Lemma stripBraces_toUpperCase s :
  Js.stripBraces (Js.toUpperCase s) = Js.toUpperCase (Js.stripBraces s).
Proof.
  induction s as [|c s IH]; simpl; [reflexivity|].
  rewrite isBrace_upperChar. destruct (Js.isBrace c); simpl; by rewrite IH.
Qed.

Lemma stripBraces_idempotent s : Js.stripBraces (Js.stripBraces s) = Js.stripBraces s.
Proof.
  induction s as [|c s IH]; simpl; [reflexivity|].
  destruct (Js.isBrace c) eqn:Hc; simpl; [exact IH|]. by rewrite Hc, IH.
Qed.

Lemma cleanGuid_canonical s : canonical (cleanGuid s).
Proof.
  unfold canonical, cleanGuid.
  by rewrite stripBraces_toUpperCase, stripBraces_idempotent, toUpperCase_idempotent.
Qed.

(** *** The identifiers the resolver returns are canonical *)

Lemma elem_set {V : Type} (x : string * V) k v (o : JSObj V) :
  x ∈ Obj.set k v o -> x = (k, v) \/ x ∈ o.
Proof.
  induction o as [|[k' v'] o IH]; simpl.
  - rewrite list_elem_of_singleton. tauto.
  - destruct (decide (k = k')); rewrite !elem_of_cons; [tauto|].
    intros [->|Hin]; [tauto|]. destruct (IH Hin); tauto.
Qed.

Lemma elem_spread {V : Type} (x : string * V) (a b : JSObj V) :
  x ∈ Obj.spread a b -> x ∈ a \/ x ∈ b.
Proof.
  unfold Obj.spread. revert a. induction b as [|[k v] b IH]; intros a; simpl; [tauto|].
  intros Hin. destruct (IH _ Hin) as [Hset|Hb].
  - apply elem_set in Hset as [->|Ha]; [right; apply list_elem_of_here|by left].
  - right. by apply list_elem_of_further.
Qed.

Lemma readPath_canonical responseData acc entry :
  allCanonical acc.1 -> allCanonical (readPath responseData acc entry).1.
Proof.
  destruct acc as [result foundItems], entry as [index localPath]. simpl.
  intros Hacc p id Hin.
  assert (Hset : forall v, (v = None \/ exists itemId, v = Some (cleanGuid itemId)) ->
                 (p, Some id) ∈ Obj.set localPath v result -> canonical id).
  { intros v Hv Hv'. apply elem_set in Hv' as [[= -> <-]|Hold]; [|by eapply Hacc].
    destruct Hv as [|[itemId [= ->]]]; [discriminate|]. apply cleanGuid_canonical. }
  destruct (Obj.get _ responseData) as [[item|]|];
    [|eapply Hset; [|exact Hin]; by left..].
  destruct (item_itemId item) as [itemId|]; [|eapply Hset; [|exact Hin]; by left].
  destruct (Js.truthy itemId); (eapply Hset; [|exact Hin]); [right; by eexists|by left].
Qed.

Lemma readResponse_canonical localPaths response :
  allCanonical (readResponse localPaths response).1.
Proof.
  unfold readResponse. destruct (innerData response) as [responseData|].
  - generalize (imap pair localPaths).
    assert (Hnil : allCanonical (([], 0) : JSObj (option string) * nat).1).
    { intros p id Hin. by apply elem_of_nil in Hin. }
    revert Hnil. generalize (([], 0) : JSObj (option string) * nat).
    intros acc Hacc entries. revert acc Hacc.
    induction entries as [|entry entries IH]; intros acc Hacc; simpl; [exact Hacc|].
    apply IH. by apply readPath_canonical.
  - intros p id Hin. by apply elem_of_nil in Hin.
Qed.

Lemma cascade_canonical localPaths basePath sitecoreContextId language
    strategies resolvedItems batches result :
  Cascade localPaths basePath sitecoreContextId language strategies resolvedItems batches result ->
  allCanonical resolvedItems -> allCanonical result.
Proof.
  induction 1 as [|strategy later acc answer result Hturn
                  |strategy later acc answer acc' batches result Hturn Hc IH];
    intros Hacc.
  - exact Hacc.
  - unfold turnOf in Hturn. destruct answer as [response|]; [|discriminate].
    pose proof (readResponse_canonical localPaths response) as Hread.
    destruct (readResponse localPaths response) as [r f].
    destruct (decide (f = length localPaths)); [|destruct (decide (0 < f)); discriminate].
    by injection Hturn as <-.
  - apply IH. unfold turnOf in Hturn. destruct answer as [response|].
    + pose proof (readResponse_canonical localPaths response) as Hread.
      destruct (readResponse localPaths response) as [r f].
      destruct (decide (f = length localPaths)); [discriminate|].
      destruct (decide (0 < f)); injection Hturn as <-; [|exact Hacc].
      intros p id Hin. apply elem_spread in Hin as [Hin|Hin]; [by eapply Hacc|by eapply Hread].
    + by injection Hturn as <-.
Qed.

Lemma resolveLocalDatasourcePaths_returns client localPaths basePath sitecoreContextId language :
  returns (resolveLocalDatasourcePaths client localPaths basePath sitecoreContextId language)
    (fun result _ => allCanonical result).
Proof.
  intros w.
  destruct (resolveLocalDatasourcePaths_run client localPaths basePath
              sitecoreContextId language w)
    as (result & batches & s & Hrun & Hshape).
  exists result, batches, s. split; [exact Hrun|].
  destruct Hshape as [(_ & -> & _)|(_ & _ & Hc)].
  - intros p id Hin. by apply elem_of_nil in Hin.
  - eapply cascade_canonical; [exact Hc|]. intros p id Hin. by apply elem_of_nil in Hin.
Qed.

(** *** Adding the resolved identifiers *)

Lemma addResolvedIds_spec values :
  forall itemIds,
  (forall id, Some id ∈ values -> canonical id) ->
  exists added,
    fold_left addResolvedId values itemIds = itemIds ++ added
    /\ Forall canonical added
    /\ (NoDup itemIds -> NoDup (itemIds ++ added)).
Proof.
  induction values as [|value values IH]; intros itemIds Hcan; simpl.
  - exists []. rewrite app_nil_r. auto.
  - assert (Hrest : forall id, Some id ∈ values -> canonical id).
    { intros id Hin. apply Hcan. by apply list_elem_of_further. }
    unfold addResolvedId at 2. destruct value as [id|]; [|by apply IH].
    destruct (Js.truthy id && negb (bool_decide (id ∈ itemIds))) eqn:Hadd; [|by apply IH].
    apply andb_true_iff in Hadd as [_ Hnew].
    apply negb_true_iff, bool_decide_eq_false in Hnew.
    destruct (IH (itemIds ++ [id]) Hrest) as (added & Heq & Hc & Hnd).
    exists (id :: added). rewrite Heq, <- app_assoc. split; [reflexivity|].
    split.
    + constructor; [|exact Hc]. apply Hcan, list_elem_of_here.
    + intros Hnd0. rewrite cons_middle, app_assoc. apply Hnd.
      apply NoDup_app. split; [exact Hnd0|]. split; [|apply NoDup_singleton].
      intros x Hx Hx'. apply list_elem_of_singleton in Hx' as ->. done.
Qed.

Lemma allCanonical_values (o : JSObj (option string)) :
  allCanonical o -> forall id, Some id ∈ Obj.values o -> canonical id.
Proof.
  intros Hcan id Hin. unfold Obj.values in Hin.
  apply list_elem_of_fmap in Hin as ([p v] & Hv & Hin). simpl in Hv. subst v.
  by eapply Hcan.
Qed.

(** ** The reference graph *)

Lemma fold_left_preserves {A B : Type} (f : A -> B -> A) (P : A -> Prop) (l : list B) :
  (forall a x, P a -> P (f a x)) -> forall a, P a -> P (fold_left f l a).
Proof.
  intros Hstep. induction l as [|x l IH]; intros a Ha; simpl; [exact Ha|].
  by apply IH, Hstep.
Qed.

Lemma fold_left_establishes {A B : Type} (f : A -> B -> A) (P : A -> Prop) (l : list B) x :
  x ∈ l ->
  (forall a, P (f a x)) ->
  (forall a y, P a -> P (f a y)) ->
  forall a, P (fold_left f l a).
Proof.
  intros Hin Hnew Hkeep. induction l as [|y l IH]; intros a; simpl.
  - by apply elem_of_nil in Hin.
  - apply elem_of_cons in Hin as [<-|Hin].
    + apply fold_left_preserves; [exact Hkeep|apply Hnew].
    + by apply IH.
Qed.

Lemma hasParent_false existingRefs parentInfo :
  hasParent existingRefs parentInfo = false ->
  parent_id parentInfo ∉ parent_id <$> existingRefs.
Proof.
  unfold hasParent. induction existingRefs as [|ref refs IH]; simpl.
  - intros _ Hin. by apply elem_of_nil in Hin.
  - intros Hor. apply orb_false_iff in Hor as [Hhead Htail].
    apply bool_decide_eq_false in Hhead.
    rewrite elem_of_cons. intros [Heq|Hin]; [congruence|]. by apply IH.
Qed.

Lemma hasParent_true existingRefs parentInfo :
  hasParent existingRefs parentInfo = true ->
  parent_id parentInfo ∈ parent_id <$> existingRefs.
Proof.
  unfold hasParent. induction existingRefs as [|ref refs IH]; simpl; [discriminate|].
  intros Hor. apply orb_true_iff in Hor as [Hhead|Htail].
  - apply bool_decide_eq_true in Hhead. rewrite Hhead. apply list_elem_of_here.
  - apply list_elem_of_further. by apply IH.
Qed.

(** The map after one match: the entry of the matched identifier is the
    old one, with the parent appended unless its identifier is there. *)
Lemma recordMatch_map itemIds parentInfo (st : ScanState) matched :
  let guid := cleanGuid matched in
  let existingRefs := default [] (st.1 !! guid) in
  (recordMatch itemIds parentInfo st matched).1 =
  <[guid := if hasParent existingRefs parentInfo then existingRefs
            else existingRefs ++ [parentInfo]]> st.1.
Proof.
  destruct st as [referencedByMap nestedItemIds]. simpl.
  destruct (referencedByMap !! cleanGuid matched) as [refs|] eqn:Hget; simpl.
  - rewrite Hget. simpl. destruct (hasParent refs parentInfo); [|reflexivity].
    symmetry. by apply insert_id.
  - rewrite lookup_insert_eq. simpl. by rewrite insert_insert_eq.
Qed.

Lemma recordMatch_queue itemIds parentInfo (st : ScanState) matched :
  let guid := cleanGuid matched in
  (recordMatch itemIds parentInfo st matched).2 =
  if negb (bool_decide (guid ∈ itemIds)) && negb (bool_decide (guid ∈ st.2))
  then st.2 ++ [guid] else st.2.
Proof. destruct st as [referencedByMap nestedItemIds]. reflexivity. Qed.

Lemma recordMatch_records itemIds parentInfo st matched :
  recorded (recordMatch itemIds parentInfo st matched)
    (cleanGuid matched) (parent_id parentInfo).
Proof.
  unfold recorded. rewrite recordMatch_map. simpl. rewrite lookup_insert_eq.
  eexists. split; [reflexivity|].
  destruct (hasParent _ parentInfo) eqn:Hhas.
  - by apply hasParent_true.
  - rewrite fmap_app. apply elem_of_app. right. apply list_elem_of_here.
Qed.

Lemma recorded_stable itemIds guid pid : stable itemIds (fun st => recorded st guid pid).
Proof.
  intros parentInfo st matched (refs & Hget & Hin). unfold recorded.
  rewrite recordMatch_map. simpl.
  destruct (decide (cleanGuid matched = guid)) as [<-|Hne].
  - rewrite lookup_insert_eq, Hget. simpl. eexists. split; [reflexivity|].
    destruct (hasParent refs parentInfo); [exact Hin|].
    rewrite fmap_app. apply elem_of_app. by left.
  - rewrite lookup_insert_ne by done. by exists refs.
Qed.

Lemma queued_stable itemIds guid : stable itemIds (fun st => guid ∈ st.2).
Proof.
  intros parentInfo st matched Hin. rewrite recordMatch_queue. simpl.
  destruct (_ && _); [|exact Hin]. apply elem_of_app. by left.
Qed.

Lemma recordMatch_queues itemIds parentInfo st matched :
  cleanGuid matched ∉ itemIds ->
  cleanGuid matched ∈ (recordMatch itemIds parentInfo st matched).2.
Proof.
  intros Hnew. rewrite recordMatch_queue. simpl.
  rewrite (bool_decide_eq_false_2 _ Hnew). simpl.
  destruct (bool_decide (cleanGuid matched ∈ st.2)) eqn:Hq; simpl.
  - by apply bool_decide_eq_true in Hq.
  - apply elem_of_app. right. apply list_elem_of_here.
Qed.

Lemma scanInvariant_stable itemIds : stable itemIds (scanInvariant itemIds).
Proof.
  intros parentInfo st matched (Hout & Hnd & Hcan & Hrefs).
  unfold scanInvariant. rewrite recordMatch_queue, recordMatch_map. simpl.
  split; [|split; [|split]].
  - destruct (bool_decide (cleanGuid matched ∈ itemIds)) eqn:Hin; simpl; [exact Hout|].
    apply bool_decide_eq_false in Hin.
    destruct (bool_decide (cleanGuid matched ∈ st.2)); simpl; [exact Hout|].
    intros guid Hg. apply elem_of_app in Hg as [Hg|Hg]; [by apply Hout|].
    by apply list_elem_of_singleton in Hg as ->.
  - destruct (bool_decide (cleanGuid matched ∈ itemIds)); simpl; [exact Hnd|].
    destruct (bool_decide (cleanGuid matched ∈ st.2)) eqn:Hq; simpl; [exact Hnd|].
    apply bool_decide_eq_false in Hq.
    apply NoDup_app. split; [exact Hnd|]. split; [|apply NoDup_singleton].
    intros x Hx Hx'. by apply list_elem_of_singleton in Hx' as ->.
  - destruct (_ && _); [|exact Hcan].
    apply Forall_app. split; [exact Hcan|].
    constructor; [apply cleanGuid_canonical|constructor].
  - intros guid refs.
    destruct (decide (cleanGuid matched = guid)) as [<-|Hne].
    + rewrite lookup_insert_eq. intros [= <-].
      assert (Hold : NoDup (parent_id <$> default [] (st.1 !! cleanGuid matched))).
      { destruct (st.1 !! cleanGuid matched) as [refs|] eqn:Hget; simpl.
        - by eapply Hrefs.
        - apply NoDup_nil_2. }
      destruct (hasParent _ parentInfo) eqn:Hhas; [exact Hold|].
      rewrite fmap_app. apply NoDup_app. split; [exact Hold|].
      split; [|apply NoDup_singleton].
      intros x Hx Hx'. apply list_elem_of_singleton in Hx' as ->.
      by apply hasParent_false in Hhas.
    + rewrite lookup_insert_ne by done. apply Hrefs.
Qed.

Section Scan.
Context (itemIds : list string).

Lemma scanField_stable P parentInfo st field :
  stable itemIds P -> P st -> P (scanField itemIds parentInfo st field).
Proof.
  intros Hstable HP. unfold scanField. destruct (scannedValue field); [|exact HP].
  apply fold_left_preserves; [|exact HP]. intros a x. apply Hstable.
Qed.

Lemma scanItem_stable P st item :
  stable itemIds P -> P st -> P (scanItem itemIds st item).
Proof.
  intros Hstable HP. unfold scanItem. destruct item as [it|]; [|exact HP].
  destruct (item_fields it) as [nodes|]; [|exact HP].
  apply fold_left_preserves; [|exact HP]. intros a x. by apply scanField_stable.
Qed.

Lemma extractReferences_stable P authoringResult :
  stable itemIds P -> P (∅, []) -> P (extractReferences itemIds authoringResult).
Proof.
  intros Hstable HP. unfold extractReferences.
  destruct (innerData authoringResult); [|exact HP].
  apply fold_left_preserves; [|exact HP]. intros a x. by apply scanItem_stable.
Qed.

(** A property that the match establishes and nothing undoes holds at
    the end of the scan. *)
Lemma extractReferences_establishes P authoringResult authoringData
    item nodes field value matched :
  innerData authoringResult = Some authoringData ->
  Some item ∈ Obj.values authoringData ->
  item_fields item = Some nodes ->
  field ∈ nodes ->
  scannedValue field = Some value ->
  matched ∈ GuidRegex.matches value ->
  stable itemIds P ->
  (forall st, P (recordMatch itemIds (parentInfoOf item nodes) st matched)) ->
  P (extractReferences itemIds authoringResult).
Proof.
  intros Hdata Hitem Hnodes Hfield Hvalue Hmatch Hstable Hnew.
  unfold extractReferences. rewrite Hdata.
  apply (fold_left_establishes _ _ _ (Some item)); [exact Hitem| |].
  - intros st. unfold scanItem. rewrite Hnodes.
    apply (fold_left_establishes _ _ _ field); [exact Hfield| |].
    + intros st'. unfold scanField. rewrite Hvalue.
      apply (fold_left_establishes _ _ _ matched); [exact Hmatch|exact Hnew|].
      intros a y. apply Hstable.
    + intros a y. by apply scanField_stable.
  - intros a y. by apply scanItem_stable.
Qed.

Lemma extractReferences_invariant authoringResult :
  scanInvariant itemIds (extractReferences itemIds authoringResult).
Proof.
  apply extractReferences_stable; [apply scanInvariant_stable|].
  split; [|split; [|split]]; simpl.
  - intros guid Hin. by apply elem_of_nil in Hin.
  - apply NoDup_nil_2.
  - constructor.
  - intros guid refs Hget. by rewrite lookup_empty in Hget.
Qed.

End Scan.

(** C2. For every identifier that the scan of an authoring field value
    discovers: if its canonical form is in the main identifier list it is
    not in the queue of nested identifiers (and it is in the queue
    otherwise); in every case the child-to-parents map has an entry for
    it that holds a parent with the identifier of the discovering entity,
    and no two parents of that entry share an identifier. *)
Theorem discovered_reference_recorded itemIds authoringResult authoringData
    item nodes field value matched :
  innerData authoringResult = Some authoringData ->
  Some item ∈ Obj.values authoringData ->
  item_fields item = Some nodes ->
  field ∈ nodes ->
  scannedValue field = Some value ->
  matched ∈ GuidRegex.matches value ->
  let referencedByMap := (extractReferences itemIds authoringResult).1 in
  let nestedItemIds := (extractReferences itemIds authoringResult).2 in
  let guid := cleanGuid matched in
  (guid ∈ itemIds -> guid ∉ nestedItemIds)
  /\ (guid ∉ itemIds -> guid ∈ nestedItemIds)
  /\ exists refs,
       referencedByMap !! guid = Some refs
       /\ parent_id (parentInfoOf item nodes) ∈ parent_id <$> refs
       /\ NoDup (parent_id <$> refs).
Proof.
  intros Hdata Hitem Hnodes Hfield Hvalue Hmatch referencedByMap nestedItemIds guid.
  destruct (extractReferences_invariant itemIds authoringResult)
    as (Hout & _ & _ & Hrefs).
  split; [|split].
  - intros Hin Hq. by apply Hout in Hq.
  - intros Hnew.
    apply (extractReferences_establishes itemIds (fun st => guid ∈ st.2)
             authoringResult authoringData item nodes field value matched);
      try assumption.
    + apply queued_stable.
    + intros st. by apply recordMatch_queues.
  - assert (Hrec : recorded (extractReferences itemIds authoringResult) guid
                     (parent_id (parentInfoOf item nodes))).
    { apply (extractReferences_establishes itemIds
               (fun st => recorded st guid (parent_id (parentInfoOf item nodes)))
               authoringResult authoringData item nodes field value matched);
        try assumption.
      - apply recorded_stable.
      - intros st. apply recordMatch_records. }
    destruct Hrec as (refs & Hget & Hin).
    exists refs. split; [exact Hget|]. split; [exact Hin|]. by eapply Hrefs.
Qed.

(** ** Validation of the nested identifiers *)

Lemma accepted_not_rejected itemPath :
  negb (isSystemItem itemPath) && Js.truthy itemPath = true -> ~ rejectedPath itemPath.
Proof.
  intros Hok. apply andb_true_iff in Hok as [Hsys Hpath].
  apply negb_true_iff in Hsys. unfold isSystemItem, excludedPaths in Hsys. simpl in Hsys.
  apply orb_false_iff in Hsys as [H1 Hsys].
  apply orb_false_iff in Hsys as [H2 Hsys].
  apply orb_false_iff in Hsys as [H3 _].
  intros [->|[H|[H|H]]]; [discriminate|congruence..].
Qed.

Lemma fold_validateEntry_elem guid entries :
  forall validNestedIds,
  guid ∈ fold_left validateEntry entries validNestedIds ->
  guid ∈ validNestedIds
  \/ exists nestedItem,
       nestedItem ∈ entries
       /\ cleanGuid (idOf nestedItem) = guid
       /\ ~ rejectedPath (pathOf nestedItem).
Proof.
  induction entries as [|nestedItem entries IH]; intros validNestedIds; simpl; [by left|].
  intros Hin. destruct (IH _ Hin) as [Hhead|(other & Hother & Hid & Hpath)].
  - unfold validateEntry in Hhead.
    destruct (negb (isSystemItem (pathOf nestedItem)) && Js.truthy (pathOf nestedItem))
      eqn:Hok; [|by left].
    apply elem_of_app in Hhead as [Hold|Hnew]; [by left|].
    apply list_elem_of_singleton in Hnew. right. exists nestedItem.
    split; [apply list_elem_of_here|]. split; [done|]. by apply accepted_not_rejected.
  - right. exists other. split; [by apply list_elem_of_further|]. done.
Qed.

(** C5. An identifier whose path, as the authoring lookup of the nested
    candidates resolved it, is empty or starts with [/sitecore/system/],
    [/sitecore/templates/] or [/sitecore/layout/] is not in the validated
    nested set, however many parents reference it: every entry of the
    lookup that carries the identifier is rejected. *)
Theorem system_paths_filtered nestedAuthoringResult guid :
  (forall nestedItem,
     nestedItem ∈ entriesOf nestedAuthoringResult ->
     cleanGuid (idOf nestedItem) = guid ->
     rejectedPath (pathOf nestedItem)) ->
  guid ∉ validNestedIdsOf nestedAuthoringResult.
Proof.
  intros Hrejected Hin. unfold validNestedIdsOf in Hin. unfold entriesOf in Hrejected.
  destruct (innerData nestedAuthoringResult) as [nestedAuthoringData|].
  - apply fold_validateEntry_elem in Hin as [Hnil|(nestedItem & Hentry & Hid & Hpath)].
    + by apply elem_of_nil in Hnil.
    + by apply Hpath, Hrejected.
  - by apply elem_of_nil in Hin.
Qed.

(** *** A lookup that answers what was asked *)




(** ** The stages of the cycle *)

Lemma getSitecoreContextId_returns client :
  returns (getSitecoreContextId client) (fun _ _ => True).
Proof.
  intros w. unfold getSitecoreContextId, tryCatch, bind, callApplicationContext.
  destruct (query_application_context client (outside w)) as [[appContext|e] s];
    eexists _, [QueryCall "application.context"], s; split; reflexivity || exact I.
Qed.

Lemma resolveLocalPaths_returns client itemIds localPathsToResolve currentPagePath
    sitecoreContextId language :
  returns (resolveLocalPaths client itemIds localPathsToResolve currentPagePath
             sitecoreContextId language)
    (fun itemIds' _ =>
       exists added,
         itemIds' = itemIds ++ added
         /\ Forall canonical added
         /\ (NoDup itemIds -> NoDup (itemIds ++ added))).
Proof.
  assert (Hsame : returns (ret itemIds : M (list string))
            (fun itemIds' _ => exists added,
               itemIds' = itemIds ++ added /\ Forall canonical added
               /\ (NoDup itemIds -> NoDup (itemIds ++ added)))).
  { apply returns_ret. exists []. rewrite app_nil_r. auto. }
  unfold resolveLocalPaths.
  destruct localPathsToResolve as [|localPath others]; [exact Hsame|].
  destruct sitecoreContextId as [contextId|]; [|exact Hsame].
  destruct (Js.truthy contextId); [|exact Hsame].
  apply returns_tryCatch.
  eapply returns_weaken.
  - apply returns_bind.
    + apply resolveLocalDatasourcePaths_returns.
    + intros resolvedPaths. apply returns_ret with
        (post := fun itemIds' _ => itemIds' = addResolvedIds itemIds resolvedPaths).
      reflexivity.
  - intros itemIds' batches (resolvedPaths & first & second & _ & Hcan & ->).
    unfold addResolvedIds.
    destruct (addResolvedIds_spec (Obj.values resolvedPaths) itemIds
                (allCanonical_values _ Hcan)) as (added & Heq & Hc & Hnd).
    exists added. by rewrite Heq.
Qed.

Lemma fetchBoth_run client itemIds sitecoreContextId language w :
  exists authoringResult liveResult s1 first s2 second,
    getItemsFromAuthoring (Some client) itemIds sitecoreContextId language w
      = (Returned authoringResult, after w s1 first)
    /\ getItemsFromLive (Some client) itemIds sitecoreContextId language (after w s1 first)
      = (Returned liveResult, after w s2 (first ++ second))
    /\ fetchBoth client itemIds sitecoreContextId language w
      = (Returned (authoringResult, Some liveResult), after w s2 (first ++ second)).
Proof.
  destruct (getItemsFromAuthoring_returns (Some client) itemIds sitecoreContextId language w)
    as (authoringResult & first & s1 & Hauth & _).
  destruct (getItemsFromLive_returns (Some client) itemIds sitecoreContextId language
              (after w s1 first)) as (liveResult & second & s2 & Hlive & _).
  rewrite after_after in Hlive.
  exists authoringResult, liveResult, s1, first, s2, second.
  split; [exact Hauth|]. split; [exact Hlive|].
  unfold fetchBoth, bind. by rewrite Hauth, Hlive.
Qed.

Lemma fetchBoth_returns client itemIds sitecoreContextId language :
  returns (fetchBoth client itemIds sitecoreContextId language) (fun _ _ => True).
Proof.
  intros w.
  destruct (fetchBoth_run client itemIds sitecoreContextId language w)
    as (authoringResult & liveResult & s1 & first & s2 & second & _ & _ & Hrun).
  by eexists _, _, _.
Qed.

Lemma validateNested_returns client nestedItemIds sitecoreContextId language :
  returns (validateNested client nestedItemIds sitecoreContextId language)
    (fun validNestedIds batches =>
       (nestedItemIds = [] /\ validNestedIds = [])
       \/ exists answer,
            authoringCall nestedItemIds sitecoreContextId language answer ∈ batches
            /\ validNestedIds = validNestedIdsOf (authoringResultOf answer)).
Proof.
  destruct nestedItemIds as [|nestedItemId others].
  - apply returns_ret. by left.
  - intros w. unfold validateNested, bind.
    rewrite getItemsFromAuthoring_run by done.
    eexists _, _, _. split; [reflexivity|]. right. eexists.
    split; [apply list_elem_of_here|reflexivity].
Qed.

Lemma fetchNested_returns client sitecoreContextId language currentItemId referencedByMap
    authoringResult liveResult itemIds nestedItemIds :
  returns (fetchNested client sitecoreContextId language currentItemId referencedByMap
             authoringResult liveResult itemIds nestedItemIds)
    (fun cd _ =>
       cd_itemIds cd = itemIds ++ nestedItemIds
       /\ cd_currentItemId cd = currentItemId
       /\ cd_referencedByMap cd = referencedByMap).
Proof.
  destruct nestedItemIds as [|nestedItemId others].
  - apply returns_ret. simpl. by rewrite app_nil_r.
  - intros w. unfold fetchNested, bind.
    destruct (getItemsFromLive_returns (Some client) (nestedItemId :: others)
                sitecoreContextId language w) as (live & first & s1 & -> & _).
    destruct (getItemsFromAuthoring_returns (Some client) (nestedItemId :: others)
                sitecoreContextId language (after w s1 first))
      as (full & second & s2 & -> & _).
    rewrite after_after. eexists _, _, _. split; [reflexivity|]. done.
Qed.

Lemma gather_returns client d : returns (gather client d) (gathered d).
Proof.
  unfold gather. eapply returns_weaken.
  - apply returns_bind; [apply getSitecoreContextId_returns|].
    intros sitecoreContextId.
    apply returns_bind; [apply resolveLocalPaths_returns|].
    intros itemIds.
    apply returns_bind; [apply fetchBoth_returns|].
    intros results. cbv zeta.
    apply returns_bind; [apply validateNested_returns|].
    intros validNestedIds. apply fetchNested_returns.
  - intros cd batches
      (sitecoreContextId & b1 & b2 & -> & _ &
       itemIds & b3 & b4 & -> & (added & -> & Hcan & Hnd) &
       results & b5 & b6 & -> & _ &
       validNestedIds & b7 & b8 & -> & Hvalid & Hids & Hcur & Hmap).
    exists added, sitecoreContextId, results.1, validNestedIds.
    cbv zeta.
    split; [exact Hids|]. split; [exact Hcur|]. split; [exact Hmap|].
    split; [exact Hcan|]. split; [exact Hnd|].
    destruct Hvalid as [?|(answer & Hin & ->)]; [by left|].
    right. exists answer. split; [|reflexivity].
    rewrite !elem_of_app. auto.
Qed.

(** *** Where the data handed on comes from *)

Lemma lookedUp_mono itemIds sitecoreContextId language authoringResult liveResult
    batches batches' :
  (forall call, call ∈ batches -> call ∈ batches') ->
  lookedUp itemIds sitecoreContextId language authoringResult liveResult batches ->
  lookedUp itemIds sitecoreContextId language authoringResult liveResult batches'.
Proof.
  intros Hsub [(answer & Hin & Hresult) Hlive]. split.
  - exists answer. split; [by apply Hsub|exact Hresult].
  - destruct (Js.truthy LIVE_TOKEN); [|exact Hlive].
    destruct Hlive as (liveAnswer & Hin' & Hresult').
    exists liveAnswer. split; [by apply Hsub|exact Hresult'].
Qed.

Lemma returns_when {A : Type} (m : M A) (condition : Prop) (P : A -> list Call -> Prop) :
  Decision condition ->
  returns m (fun _ _ => True) ->
  (condition -> returns m P) ->
  returns m (fun a batches => condition -> P a batches).
Proof.
  intros [Hyes|Hno] Htotal HP.
  - eapply returns_weaken; [by apply HP|]. auto.
  - eapply returns_weaken; [exact Htotal|]. intros a batches _ Hyes. contradiction.
Qed.

Lemma fetchBoth_looked client itemIds sitecoreContextId language :
  itemIds <> [] ->
  returns (fetchBoth client itemIds sitecoreContextId language)
    (fun results batches =>
       exists authoringResult liveResult,
         results = (authoringResult, Some liveResult)
         /\ lookedUp itemIds sitecoreContextId language authoringResult liveResult batches).
Proof.
  intros Hne w. unfold fetchBoth, bind.
  rewrite getItemsFromAuthoring_run by exact Hne.
  rewrite getItemsFromLive_run by exact Hne.
  unfold lookedUp. destruct (Js.truthy LIVE_TOKEN).
  - rewrite after_after. eexists _, _, _. split; [reflexivity|].
    eexists _, _. split; [reflexivity|]. split.
    + eexists. split; [apply list_elem_of_here|reflexivity].
    + eexists. split; [apply list_elem_of_further, list_elem_of_here|reflexivity].
  - eexists _, _, _. split; [reflexivity|].
    eexists _, _. split; [reflexivity|]. split; [|reflexivity].
    eexists. split; [apply list_elem_of_here|reflexivity].
Qed.

Lemma extractReferences_no_data itemIds authoringResult :
  innerData authoringResult = None -> (extractReferences itemIds authoringResult).2 = [].
Proof. intros Hnone. unfold extractReferences. by rewrite Hnone. Qed.

Lemma validateNested_keeps_empty client nestedItemIds sitecoreContextId language :
  returns (validateNested client nestedItemIds sitecoreContextId language)
    (fun validNestedIds _ => nestedItemIds = [] -> validNestedIds = []).
Proof.
  destruct nestedItemIds as [|nestedItemId others].
  - by apply returns_ret.
  - eapply returns_weaken; [apply validateNested_returns|]. intros ? ? _ ?. discriminate.
Qed.

Lemma fetchNested_sourced client sitecoreContextId language currentItemId referencedByMap
    authoringResult liveResult itemIds nestedItemIds :
  returns (fetchNested client sitecoreContextId language currentItemId referencedByMap
             authoringResult liveResult itemIds nestedItemIds)
    (fun cd batches =>
       (nestedItemIds = []
        /\ cd_authoringResult cd = authoringResult
        /\ cd_liveResult cd = liveResult
        /\ cd_itemIds cd = itemIds)
       \/ (nestedItemIds <> []
           /\ exists nestedAuthoringResult nestedLiveResult,
                lookedUp nestedItemIds sitecoreContextId language
                  nestedAuthoringResult nestedLiveResult batches
                /\ cd_authoringResult cd = mergeNested authoringResult nestedAuthoringResult
                /\ cd_liveResult cd = mergeNested liveResult (Some nestedLiveResult)
                /\ cd_itemIds cd = itemIds ++ nestedItemIds)).
Proof.
  destruct nestedItemIds as [|nestedItemId others].
  - apply returns_ret. left. auto.
  - intros w. unfold fetchNested, bind.
    rewrite getItemsFromLive_run by done.
    unfold lookedUp. destruct (Js.truthy LIVE_TOKEN).
    + rewrite getItemsFromAuthoring_run by done. rewrite after_after.
      eexists _, _, _. split; [reflexivity|]. right. split; [done|].
      eexists _, _. split; [split|split; [reflexivity|split; reflexivity]].
      * eexists. split; [apply list_elem_of_further, list_elem_of_here|reflexivity].
      * eexists. split; [apply list_elem_of_here|reflexivity].
    + rewrite getItemsFromAuthoring_run by done.
      eexists _, _, _. split; [reflexivity|]. right. split; [done|].
      eexists _, _. split; [split|split; [reflexivity|split; reflexivity]].
      * eexists. split; [apply list_elem_of_here|reflexivity].
      * reflexivity.
Qed.

Lemma resolveLocalPaths_grows client itemIds localPathsToResolve currentPagePath
    sitecoreContextId language :
  returns (resolveLocalPaths client itemIds localPathsToResolve currentPagePath
             sitecoreContextId language)
    (fun itemIds' _ =>
       (itemIds <> [] -> itemIds' <> [])
       /\ (localPathsToResolve = [] -> itemIds' = itemIds)).
Proof.
  destruct localPathsToResolve as [|localPath others].
  - by apply returns_ret.
  - eapply returns_weaken; [apply resolveLocalPaths_returns|].
    intros itemIds' _ (added & -> & _). split; [|discriminate].
    intros Hne Hnil. by apply app_eq_nil in Hnil as [? _].
Qed.

Lemma gather_sources client d :
  d_itemIds d <> [] -> returns (gather client d) (sourced d).
Proof.
  intros Hne. unfold gather. eapply returns_weaken.
  - apply returns_bind; [apply getSitecoreContextId_returns|].
    intros sitecoreContextId.
    apply returns_bind; [apply resolveLocalPaths_grows|].
    intros itemIds.
    apply (returns_when _ (itemIds <> [])); [apply _| |intros HneIds].
    + eapply returns_weaken; [|by intros].
      apply returns_bind; [apply fetchBoth_returns|]. intros results. cbv zeta.
      apply returns_bind; [apply validateNested_returns|]. intros validNestedIds.
      apply fetchNested_returns.
    + apply returns_bind; [by apply fetchBoth_looked|]. intros results. cbv zeta.
      apply returns_bind; [apply validateNested_keeps_empty|]. intros validNestedIds.
      apply fetchNested_sourced.
  - intros cd batches
      (sitecoreContextId & b1 & b2 & -> & _ &
       itemIds & b3 & b4 & -> & [Hgrows Hsame] & Htail).
    destruct (Htail (Hgrows Hne))
      as (results & b5 & b6 & -> & (authoringResult & liveResult & -> & Hlooked) &
          validNestedIds & b7 & b8 & -> & Hempty & Hnested).
    simpl in Hempty, Hnested.
    exists sitecoreContextId, itemIds, authoringResult, liveResult.
    split; [exact Hsame|]. split.
    { eapply lookedUp_mono; [|exact Hlooked]. intros call Hin.
      rewrite !elem_of_app. auto. }
    destruct Hnested as [(-> & HA & HL & HI)|(Hsome & nestedA & nestedL & Hl & HA & HL & HI)].
    + left. auto.
    + right. exists validNestedIds, nestedA, nestedL.
      split; [exact Hsome|]. split.
      { destruct (innerData authoringResult) eqn:Hdata; [by eexists|].
        exfalso. apply Hsome, Hempty. by apply extractReferences_no_data. }
      split; [|auto].
      eapply lookedUp_mono; [|exact Hl]. intros call Hin. rewrite !elem_of_app. auto.
Qed.

Lemma mergeNested_no_data original nested :
  innerData original = None -> mergeNested original nested = original.
Proof.
  intros Hnone. unfold mergeNested. rewrite Hnone. by destruct (innerData nested).
Qed.

(** ** The cycle as a whole *)


Lemma fetchItemInformation_run client specificItemIds w :
  fetchItemInformation (Some client) true specificItemIds w =
  match discover client specificItemIds (started w) with
  | (Returned d, wd) =>
      match gather client d wd with
      | (Returned cd, wg) =>
          let processedItems :=
            processItemData (cd_authoringResult cd) (cd_liveResult cd) (cd_itemIds cd)
              (cd_currentItemId cd) (Some (cd_referencedByMap cd)) in
          (Returned tt,
           withHook wg
             {| data := Some (createItemInformationResponse processedItems);
                items := processedItems; loading := false;
                error := error (hook wg) |})
      | (Threw err, wg) => (Returned tt, withHook wg (failedWith (errorMessageOf err)))
      end
  | (Threw err, wd) => (Returned tt, withHook wd (failedWith (errorMessageOf err)))
  end.
Proof.
  unfold fetchItemInformation, bind, tryCatch, setLoading, setError, setData, setItems,
    started, withHook, failedWith.
  cbn [outside calls hook data items loading error].
  destruct (discover _ _ _) as [[d|err] wd]; [|reflexivity].
  destruct (gather _ _ _) as [[cd|err] wg]; reflexivity.
Qed.

(** A cycle whose discovery returned completes, whatever the sources do. *)
Lemma cycle_completes client specificItemIds w d s batches :
  discover client specificItemIds (started w) = (Returned d, after (started w) s batches) ->
  exists cd s' batches',
    fetchItemInformation (Some client) true specificItemIds w
    = (Returned tt, withHook (after w s' batches') (completedWith cd))
    /\ gathered d cd (drop (length batches) batches').
Proof.
  intros Hdiscover.
  destruct (gather_returns client d (after (started w) s batches))
    as (cd & later & s' & Hgather & Hgathered).
  exists cd, s', (batches ++ later). split.
  - rewrite fetchItemInformation_run, Hdiscover, Hgather. rewrite after_after. reflexivity.
  - by rewrite drop_app_length.
Qed.

(** The cycle of a discovery that returned completes with what [gather]
    returns, and the calls of [gather] are those after the discovery. *)
Lemma cycle_gathers client specificItemIds w d s batches
    (post : CycleData -> list Call -> Prop) :
  discover client specificItemIds (started w) = (Returned d, after (started w) s batches) ->
  returns (gather client d) post ->
  exists cd s' batches',
    fetchItemInformation (Some client) true specificItemIds w
    = (Returned tt, withHook (after w s' batches') (completedWith cd))
    /\ post cd (drop (length batches) batches').
Proof.
  intros Hdiscover Hgather.
  destruct (Hgather (after (started w) s batches))
    as (cd & later & s' & Hrun & Hpost).
  exists cd, s', (batches ++ later). split.
  - rewrite fetchItemInformation_run, Hdiscover, Hrun. rewrite after_after. reflexivity.
  - by rewrite drop_app_length.
Qed.

(** C6. A failure of one source is caught inside that source's lookup
    and comes back as an error marker for that source: neither lookup
    throws, the fan-out returns both results, and each result is read off
    the answer to its own call alone. A lookup whose call failed returns
    an error marker, which has no data. A cycle for an explicit list of
    identifiers completes with no error set, whatever the sources do, and
    what it hands to [processItemData] comes from the two sources: the
    authoring result is read off the answer to the authoring call for the
    list and the live result off the answer to the live request, each
    merged with the result of the same source for the nested identifiers
    when there are any. When the live result has no data, an error marker
    for one, it is handed on as it is, next to the authoring data; when
    the authoring result has no data, it is handed on as it is, and so
    are the live result and the list. *)
Theorem source_failures_isolated client itemIds sitecoreContextId language w :
  (exists authoringResult liveResult w1 w2,
     getItemsFromAuthoring (Some client) itemIds sitecoreContextId language w
       = (Returned authoringResult, w1)
     /\ getItemsFromLive (Some client) itemIds sitecoreContextId language w1
       = (Returned liveResult, w2)
     /\ fetchBoth client itemIds sitecoreContextId language w
       = (Returned (authoringResult, Some liveResult), w2)
     /\ (itemIds <> [] ->
         authoringResult =
           authoringResultOf
             (mutate client "xmc.authoring.graphql"
                (authoringParams itemIds sitecoreContextId language) (outside w)).1)
     /\ (itemIds <> [] ->
         liveResult =
           if Js.truthy LIVE_TOKEN
           then liveResultOf
                  (fetch LIVE_ENDPOINT (liveInit (liveQuery itemIds language)) (outside w1)).1
           else errorMarker tokenMissing))
  /\ (forall error,
        authoringResultOf (Threw error) = Some (errorMarker error)
        /\ liveResultOf (Threw error) = errorMarker error
        /\ innerData (Some (errorMarker error)) = None)
  /\ (forall response,
        resp_ok response = false ->
        liveResultOf (Returned response) =
          errorMarker (ErrorObj ("HTTP error! status: " +:+ Js.ofNat (resp_status response))))
  /\ (forall response error,
        resp_ok response = true -> resp_json response = Threw error ->
        liveResultOf (Returned response) = errorMarker error)
  /\ (forall first others,
        exists cd s batches contextId authoringResult liveResult,
          fetchItemInformation (Some client) true (Some (first :: others)) w
          = (Returned tt, withHook (after w s batches) (completedWith cd))
          /\ lookedUp (first :: others) contextId "en" authoringResult liveResult batches
          /\ handedOn (first :: others) contextId "en" authoringResult liveResult cd batches
          /\ (innerData (Some liveResult) = None ->
              cd_liveResult cd = Some liveResult)
          /\ (innerData authoringResult = None ->
              cd_authoringResult cd = authoringResult
              /\ cd_liveResult cd = Some liveResult
              /\ cd_itemIds cd = first :: others)).
Proof.
  split; [|split; [|split; [|split]]].
  - destruct (fetchBoth_run client itemIds sitecoreContextId language w)
      as (authoringResult & liveResult & s1 & first & s2 & second & Hauth & Hlive & Hboth).
    exists authoringResult, liveResult, (after w s1 first), (after w s2 (first ++ second)).
    split; [exact Hauth|]. split; [exact Hlive|]. split; [exact Hboth|]. split.
    + intros Hne. rewrite getItemsFromAuthoring_run in Hauth by exact Hne.
      by injection Hauth as <- _.
    + intros Hne. rewrite getItemsFromLive_run in Hlive by exact Hne.
      destruct (Js.truthy LIVE_TOKEN); by injection Hlive as <- _.
  - intros error. done.
  - intros response Hok. simpl. by rewrite Hok.
  - intros response error Hok Hjson. simpl. by rewrite Hok, Hjson.
  - intros first others.
    set (d := {| d_itemIds := first :: others; d_currentItemId := Some first;
                 d_localPathsToResolve := []; d_currentPagePath := EmptyString;
                 d_language := "en" |}).
    destruct (cycle_gathers client (Some (first :: others)) w d (outside (started w)) []
                (sourced d))
      as (cd & s & batches & Hrun &
          contextId & ids & authoringResult & liveResult & Hids & Hlooked & Hhanded).
    + unfold discover, ret. by rewrite after_nil.
    + by apply gather_sources.
    + rewrite (Hids eq_refl) in Hlooked, Hhanded. simpl in Hlooked, Hhanded.
      exists cd, s, batches, contextId, authoringResult, liveResult.
      split; [exact Hrun|]. split; [exact Hlooked|]. split; [exact Hhanded|]. split.
      * intros Hnone.
        destruct Hhanded as [(_ & HL & _)|(ids' & nA & nL & _ & _ & _ & _ & HL & _)];
          [exact HL|].
        rewrite HL. by apply mergeNested_no_data.
      * intros Hnone.
        destruct Hhanded as [?|(ids' & nA & nL & _ & [? Hsome] & _)]; [done|].
        rewrite Hnone in Hsome. discriminate.
Qed.

(** C8. When no explicit list is supplied (none, or an empty one) and
    the page context yields no identifier, the cycle fails: the error
    message is set, the published data becomes null and the item list
    empty, whatever they held before. *)
Theorem no_identifiers_is_fatal client specificItemIds w pageContext s :
  specificItemIds = None \/ specificItemIds = Some [] ->
  query_pages_context client (outside w) = (Returned pageContext, s) ->
  ex_itemIds (extractItemIdsWithLocalPaths pageContext) = [] ->
  fetchItemInformation (Some client) true specificItemIds w
  = (Returned tt,
     withHook (after w s [QueryCall "pages.context"])
       (failedWith "No item IDs found in current context")).
Proof.
  intros Hnone Hquery Hempty.
  assert (Hdiscover : forall w1, outside w1 = outside w ->
            discover client specificItemIds w1
            = (Threw (ErrorObj "No item IDs found in current context"),
               after w1 s [QueryCall "pages.context"])).
  { intros w1 Hout. destruct Hnone as [-> | ->];
      unfold discover, bind, callPagesContext; rewrite Hout, Hquery, Hempty; reflexivity. }
  rewrite fetchItemInformation_run, Hdiscover by reflexivity. reflexivity.
Qed.

(** C10. Invoked with an empty identifier list, [fetchSpecificItems]
    sets the error to 'No item IDs provided' and returns: no call is
    issued, and the data, the items and the loading flag are the ones the
    hook held before. *)
Theorem empty_list_sets_error_only client isInitialized w :
  fetchSpecificItems client isInitialized [] w
  = (Returned tt,
     withHook w {| data := data (hook w); items := items (hook w);
                   loading := loading (hook w);
                   error := Some "No item IDs provided" |}).
Proof. destruct client, isInitialized; reflexivity. Qed.

(** * Further properties *)

(** ** Canonical identifiers and the GUID pattern *)

Lemma str_app_assoc (a b c : string) : (a +:+ b) +:+ c = a +:+ (b +:+ c).
Proof.
  induction a as [|x a IH]; [reflexivity|].
  change (String x ((a +:+ b) +:+ c) = String x (a +:+ b +:+ c)). by rewrite IH.
Qed.

Lemma str_app_nil_r (a : string) : a +:+ EmptyString = a.
Proof.
  induction a as [|x a IH]; [reflexivity|].
  change (String x (a +:+ EmptyString) = String x a). by rewrite IH.
Qed.

Lemma stripBraces_app a b :
  Js.stripBraces (a +:+ b) = Js.stripBraces a +:+ Js.stripBraces b.
Proof.
  induction a as [|c a IH]; simpl; [reflexivity|].
  destruct (Js.isBrace c); simpl; by rewrite IH.
Qed.

Lemma toUpperCase_app a b :
  Js.toUpperCase (a +:+ b) = Js.toUpperCase a +:+ Js.toUpperCase b.
Proof. induction a as [|c a IH]; simpl; [reflexivity|]. by rewrite IH. Qed.

Lemma cleanGuid_app a b : cleanGuid (a +:+ b) = cleanGuid a +:+ cleanGuid b.
Proof. unfold cleanGuid. by rewrite stripBraces_app, toUpperCase_app. Qed.

Lemma isHex_upper c :
  GuidRegex.isHex c = true ->
  Js.isBrace c = false /\ isUpperHex (Js.upperChar c) = true.
Proof. destruct c as [[] [] [] [] [] [] [] []]; simpl; intros H; try discriminate; done. Qed.

(** A run of hexadecimal digits: its length, and its canonical form. *)
Lemma hexRun_spec n : forall s g rest,
  GuidRegex.hexRun n s = Some (g, rest) ->
  s = g +:+ rest
  /\ forall tail, upperHexRun n (cleanGuid g +:+ tail) = Some tail.
Proof.
  induction n as [|n IH]; intros s g rest; simpl.
  - intros [= <- <-]. done.
  - destruct s as [|c s]; [discriminate|].
    destruct (GuidRegex.isHex c) eqn:Hc; [|discriminate].
    destruct (GuidRegex.hexRun n s) as [[m rest']|] eqn:Hrun; [|discriminate].
    intros [= <- <-]. destruct (IH _ _ _ Hrun) as [-> Hcanon].
    split; [reflexivity|]. intros tail.
    destruct (isHex_upper c Hc) as [Hbrace Hupper].
    unfold cleanGuid in *. simpl. rewrite Hbrace. simpl. rewrite Hupper. apply Hcanon.
Qed.

Lemma dash_spec s rest : GuidRegex.dash s = Some rest -> s = "-" +:+ rest.
Proof.
  destruct s as [|c s]; simpl; [discriminate|].
  destruct (Ascii.eqb c "-") eqn:Hc; [|discriminate].
  apply Ascii.eqb_eq in Hc as ->. by intros [= ->].
Qed.

Lemma groups_canonical s m rest :
  GuidRegex.groups s = Some (m, rest) ->
  s = m +:+ rest /\ isCanonicalGuid (cleanGuid m) = true.
Proof.
  unfold GuidRegex.groups. intros H.
  destruct (GuidRegex.hexRun 8 s) as [[a s1]|] eqn:Ha; [|discriminate].
  cbn -[GuidRegex.hexRun GuidRegex.dash] in H.
  destruct (GuidRegex.dash s1) as [s2|] eqn:H1; [|discriminate].
  cbn -[GuidRegex.hexRun GuidRegex.dash] in H.
  destruct (GuidRegex.hexRun 4 s2) as [[b s3]|] eqn:Hb; [|discriminate].
  cbn -[GuidRegex.hexRun GuidRegex.dash] in H.
  destruct (GuidRegex.dash s3) as [s4|] eqn:H2; [|discriminate].
  cbn -[GuidRegex.hexRun GuidRegex.dash] in H.
  destruct (GuidRegex.hexRun 4 s4) as [[c s5]|] eqn:Hc; [|discriminate].
  cbn -[GuidRegex.hexRun GuidRegex.dash] in H.
  destruct (GuidRegex.dash s5) as [s6|] eqn:H3; [|discriminate].
  cbn -[GuidRegex.hexRun GuidRegex.dash] in H.
  destruct (GuidRegex.hexRun 4 s6) as [[d s7]|] eqn:Hd; [|discriminate].
  cbn -[GuidRegex.hexRun GuidRegex.dash] in H.
  destruct (GuidRegex.dash s7) as [s8|] eqn:H4; [|discriminate].
  cbn -[GuidRegex.hexRun GuidRegex.dash] in H.
  destruct (GuidRegex.hexRun 12 s8) as [[e s9]|] eqn:He; [|discriminate].
  cbn -[GuidRegex.hexRun GuidRegex.dash] in H.
  injection H as <- <-.
  apply hexRun_spec in Ha as [-> Ha], Hb as [-> Hb], Hc as [-> Hc],
    Hd as [-> Hd], He as [-> He].
  apply dash_spec in H1 as ->, H2 as ->, H3 as ->, H4 as ->.
  split; [by rewrite !str_app_assoc|].
  assert (Hdash : forall tail, GuidRegex.dash (cleanGuid "-" +:+ tail) = Some tail) by done.
  rewrite !cleanGuid_app. unfold isCanonicalGuid.
  rewrite Ha. cbn [mbind option_bind]. rewrite Hdash. cbn [mbind option_bind].
  rewrite Hb. cbn [mbind option_bind]. rewrite Hdash. cbn [mbind option_bind].
  rewrite Hc. cbn [mbind option_bind]. rewrite Hdash. cbn [mbind option_bind].
  rewrite Hd. cbn [mbind option_bind]. rewrite Hdash. cbn [mbind option_bind].
  specialize (He EmptyString). rewrite str_app_nil_r in He. by rewrite He.
Qed.

Lemma closing_spec rest :
  cleanGuid (GuidRegex.closing rest) = EmptyString
  /\ exists after, rest = GuidRegex.closing rest +:+ after.
Proof.
  destruct rest as [|c rest]; simpl; [split; [reflexivity|by exists EmptyString]|].
  destruct (Ascii.eqb c "}") eqn:Hc.
  - apply Ascii.eqb_eq in Hc as ->. split; [reflexivity|by exists rest].
  - split; [reflexivity|]. by exists (String c rest).
Qed.

Lemma matchAt_spec s m :
  GuidRegex.matchAt s = Some m ->
  isCanonicalGuid (cleanGuid m) = true /\ exists after, s = m +:+ after.
Proof.
  unfold GuidRegex.matchAt. destruct s as [|c s]; [discriminate|].
  destruct (Ascii.eqb c "{") eqn:Hc.
  - apply Ascii.eqb_eq in Hc as ->.
    destruct (GuidRegex.groups s) as [[g rest]|] eqn:Hg; [|discriminate].
    cbn [mbind option_bind]. intros [= <-].
    apply groups_canonical in Hg as [-> Hcanon].
    destruct (closing_spec rest) as [Hclose [after Hafter]].
    split.
    + rewrite !cleanGuid_app, Hclose, str_app_nil_r. exact Hcanon.
    + exists after. rewrite Hafter at 1. by rewrite !str_app_assoc.
  - destruct (GuidRegex.groups (String c s)) as [[g rest]|] eqn:Hg; [|discriminate].
    cbn [mbind option_bind]. intros [= <-].
    apply groups_canonical in Hg as [Hs Hcanon].
    destruct (closing_spec rest) as [Hclose [after Hafter]].
    split.
    + rewrite cleanGuid_app, Hclose, str_app_nil_r. exact Hcanon.
    + exists after. rewrite Hs. rewrite Hafter at 1. by rewrite str_app_assoc.
Qed.

Lemma scan_spec s : forall skip m,
  m ∈ GuidRegex.scan skip s ->
  exists before at_match, s = before +:+ at_match /\ GuidRegex.matchAt at_match = Some m.
Proof.
  induction s as [|c s IH]; intros skip m; cbn [GuidRegex.scan].
  - intros Hin. by apply elem_of_nil in Hin.
  - assert (Hlater : forall k, m ∈ GuidRegex.scan k s ->
              exists before at_match,
                String c s = before +:+ at_match /\ GuidRegex.matchAt at_match = Some m).
    { intros k Hin. destruct (IH _ _ Hin) as (before & at_match & -> & Hm).
      by exists (String c before), at_match. }
    destruct skip as [|k]; [|apply Hlater].
    destruct (GuidRegex.matchAt (String c s)) as [m'|] eqn:Hm; [|apply Hlater].
    intros Hin. apply elem_of_cons in Hin as [->|Hin]; [|by eapply Hlater].
    by exists EmptyString, (String c s).
Qed.

Lemma upperHexRun_length n : forall s rest,
  upperHexRun n s = Some rest -> String.length s = n + String.length rest.
Proof.
  induction n as [|n IH]; intros s rest; simpl; [by intros [= ->]|].
  destruct s as [|c s]; [discriminate|].
  destruct (isUpperHex c); [|discriminate].
  intros Hrun. simpl. by rewrite (IH _ _ Hrun).
Qed.

Lemma dash_length s rest :
  GuidRegex.dash s = Some rest -> String.length s = 1 + String.length rest.
Proof. intros ->%dash_spec. reflexivity. Qed.

Lemma isCanonicalGuid_length s : isCanonicalGuid s = true -> String.length s = 36.
Proof.
  unfold isCanonicalGuid.
  destruct (upperHexRun 8 s) as [s1|] eqn:H1; [|discriminate]. cbn [mbind option_bind].
  destruct (GuidRegex.dash s1) as [s2|] eqn:H2; [|discriminate]. cbn [mbind option_bind].
  destruct (upperHexRun 4 s2) as [s3|] eqn:H3; [|discriminate]. cbn [mbind option_bind].
  destruct (GuidRegex.dash s3) as [s4|] eqn:H4; [|discriminate]. cbn [mbind option_bind].
  destruct (upperHexRun 4 s4) as [s5|] eqn:H5; [|discriminate]. cbn [mbind option_bind].
  destruct (GuidRegex.dash s5) as [s6|] eqn:H6; [|discriminate]. cbn [mbind option_bind].
  destruct (upperHexRun 4 s6) as [s7|] eqn:H7; [|discriminate]. cbn [mbind option_bind].
  destruct (GuidRegex.dash s7) as [s8|] eqn:H8; [|discriminate]. cbn [mbind option_bind].
  destruct (upperHexRun 12 s8) as [[|c s9]|] eqn:H9; [|discriminate..].
  intros _.
  apply upperHexRun_length in H1, H3, H5, H7, H9.
  apply dash_length in H2, H4, H6, H8. simpl in *. lia.
Qed.

(** X1. Every identifier the pattern finds in a text occurs in the text, and
    its canonical form is 8-4-4-4-12 upper-case hexadecimal digits,
    hyphenated, without braces. *)
Theorem matches_are_canonical_guids value matched :
  matched ∈ GuidRegex.matches value ->
  isCanonicalGuid (cleanGuid matched) = true
  /\ String.length (cleanGuid matched) = 36
  /\ exists before after, value = before +:+ matched +:+ after.
Proof.
  intros Hin. apply scan_spec in Hin as (before & at_match & -> & Hm).
  apply matchAt_spec in Hm as [Hcanon [after ->]].
  split; [exact Hcanon|]. split; [by apply isCanonicalGuid_length|].
  by exists before, after.
Qed.

(** X2. Canonicalizing is idempotent, and it does not see braces or the case
    of letters: a braced or differently cased spelling of an identifier
    has the same canonical form. *)
Theorem cleanGuid_normal_form s :
  cleanGuid (cleanGuid s) = cleanGuid s
  /\ cleanGuid ("{" +:+ s +:+ "}") = cleanGuid s
  /\ cleanGuid (Js.toUpperCase s) = cleanGuid s
  /\ forall a b, cleanGuid (a +:+ "{" +:+ b) = cleanGuid (a +:+ b)
                 /\ cleanGuid (a +:+ "}" +:+ b) = cleanGuid (a +:+ b).
Proof.
  split; [apply cleanGuid_canonical|]. split; [|split].
  - rewrite !cleanGuid_app.
    change (cleanGuid "{") with EmptyString. change (cleanGuid "}") with EmptyString.
    by rewrite str_app_nil_r.
  - unfold cleanGuid. by rewrite stripBraces_toUpperCase, toUpperCase_idempotent.
  - intros a b. by rewrite !cleanGuid_app.
Qed.

(** ** The application context *)

Lemma truthyOpt_or a b :
  Js.truthyOpt (Js.or a b) = Js.truthyOpt a || Js.truthyOpt b.
Proof. unfold Js.or. destruct (Js.truthyOpt a) eqn:Ha; [by rewrite Ha|reflexivity]. Qed.

Lemma scanResources_truthy resources : forall current,
  Js.truthyOpt current = false ->
  Js.truthyOpt (scanResources resources current) = true
  <-> exists access context,
        Some access ∈ resources /\ ra_context access = Some context
        /\ carriesId context = true.
Proof.
  induction resources as [|resource later IH]; intros current Hcur; simpl.
  - rewrite Hcur. split; [discriminate|].
    intros (access & context & Hin & _). by apply elem_of_nil in Hin.
  - destruct resource as [access|]; simpl.
    + destruct (ra_context access) as [context|] eqn:Hctx.
      * destruct (Js.truthyOpt (Js.or (Js.or _ _) _)) eqn:Hfound.
        -- rewrite Hfound. split; [intros _|done].
           exists access, context. split; [apply list_elem_of_here|]. split; [done|].
           unfold carriesId. by rewrite <- !truthyOpt_or.
        -- rewrite (IH _ Hfound). split.
           ++ intros (a & c & Hin & Hc & Hcarry). exists a, c.
              split; [by apply list_elem_of_further|done].
           ++ intros (a & c & Hin & Hc & Hcarry).
              apply elem_of_cons in Hin as [[= <-]|Hin]; [|by exists a, c].
              rewrite Hctx in Hc. injection Hc as <-.
              unfold carriesId in Hcarry. rewrite <- !truthyOpt_or in Hcarry. congruence.
      * rewrite (IH _ Hcur). split.
        -- intros (a & c & Hin & Hc & Hcarry). exists a, c.
           split; [by apply list_elem_of_further|done].
        -- intros (a & c & Hin & Hc & Hcarry).
           apply elem_of_cons in Hin as [[= <-]|Hin]; [congruence|by exists a, c].
    + rewrite (IH _ Hcur). split.
      * intros (a & c & Hin & Hc & Hcarry). exists a, c.
        split; [by apply list_elem_of_further|done].
      * intros (a & c & Hin & Hc & Hcarry).
        apply elem_of_cons in Hin as [?|Hin]; [discriminate|by exists a, c].
Qed.

Lemma firstResourceContext_elem appContext context :
  firstResourceContext appContext = Some context ->
  exists app resources access,
    appContext = Some app /\ resourceAccess app = Some resources
    /\ Some access ∈ resources /\ ra_context access = Some context.
Proof.
  unfold firstResourceContext. destruct appContext as [app|]; [|discriminate]. simpl.
  destruct (resourceAccess app) as [resources|] eqn:Hres; [|discriminate]. simpl.
  destruct resources as [|[access|] resources]; try discriminate. simpl.
  intros Hctx. exists app, (Some access :: resources), access.
  split; [reflexivity|]. split; [exact Hres|]. split; [apply list_elem_of_here|exact Hctx].
Qed.

(** X3. The probe of [application.context] ends with a usable context
    identifier exactly when the context has one in a place the hook looks
    at: the [sitecoreContextId] or [contextId] property, or the preview,
    live or master entry of any resource. A non-empty preview entry of the
    first resource is the one taken. *)
Theorem probeContextId_finds appContext :
  (Js.truthyOpt (probeContextId appContext) = true
   <-> exists app,
         appContext = Some app
         /\ (Js.truthyOpt (app_sitecoreContextId app) = true
             \/ Js.truthyOpt (app_contextId app) = true
             \/ exists resources access context,
                  resourceAccess app = Some resources
                  /\ Some access ∈ resources
                  /\ ra_context access = Some context
                  /\ carriesId context = true))
  /\ (forall context id,
        firstResourceContext appContext = Some context ->
        ctx_preview context = Some id -> Js.truthy id = true ->
        probeContextId appContext = Some id).
Proof.
  split.
  - unfold probeContextId.
    remember (firstResourceContext appContext) as first eqn:Hfirst. symmetry in Hfirst.
    cbv zeta.
    destruct (Js.truthyOpt (first ≫= ctx_preview)) eqn:Hpreview.
    { rewrite Hpreview. split; [intros _|done].
      destruct first as [context|]; [|discriminate].
      apply firstResourceContext_elem in Hfirst as (app & resources & access & -> & Hr & Hin & Hc).
      exists app. split; [done|]. right. right. exists resources, access, context.
      repeat split; try done. unfold carriesId. simpl in Hpreview. by rewrite Hpreview. }
    destruct (Js.truthyOpt (Js.or (Js.or (first ≫= ctx_live) _) _)) eqn:Hsecond.
    { split; [intros _|done].
      rewrite !truthyOpt_or in Hsecond.
      apply orb_true_iff in Hsecond as [Hsecond|Hid].
      - apply orb_true_iff in Hsecond as [Hlive|Hid].
        + destruct first as [context|]; [|discriminate].
          apply firstResourceContext_elem in Hfirst
            as (app & resources & access & -> & Hr & Hin & Hc).
          exists app. split; [done|]. right. right. exists resources, access, context.
          repeat split; try done. unfold carriesId. simpl in Hlive.
          rewrite Hlive. by rewrite orb_true_r.
        + destruct appContext as [app|]; [|discriminate]. exists app. auto.
      - destruct appContext as [app|]; [|discriminate]. exists app. auto. }
    pose proof Hsecond as Hparts. rewrite !truthyOpt_or in Hparts.
    apply orb_false_iff in Hparts as [Hparts Hcid].
    apply orb_false_iff in Hparts as [Hlive Hsid].
    destruct appContext as [app|]; cbn [mbind option_bind] in *.
    + destruct (resourceAccess app) as [resources|] eqn:Hres.
      * rewrite (scanResources_truthy _ _ Hsecond). split.
        -- intros (access & context & Hin & Hc & Hcarry). exists app. split; [done|].
           right. right. by exists resources, access, context.
        -- intros (app' & [= <-] & [Hs|[Hs|(resources' & access & context & Hr & Hrest)]]);
             [congruence..|].
           rewrite Hres in Hr. injection Hr as <-. by exists access, context.
      * rewrite Hsecond. split; [discriminate|].
        intros (app' & [= <-] & [Hs|[Hs|(resources' & access & context & Hr & Hrest)]]);
          congruence.
    + rewrite Hsecond. split; [discriminate|]. intros (app & Happ & _). discriminate.
  - intros context id Hfirst Hpreview Htruthy. unfold probeContextId.
    rewrite Hfirst. simpl. rewrite Hpreview. simpl. rewrite Htruthy. simpl.
    by rewrite Htruthy.
Qed.

(** ** Resolved identifiers *)

Lemma fold_addResolvedId_members values : forall itemIds,
  (exists added, fold_left addResolvedId values itemIds = itemIds ++ added)
  /\ (NoDup itemIds -> NoDup (fold_left addResolvedId values itemIds))
  /\ forall id, id ∈ fold_left addResolvedId values itemIds
                <-> id ∈ itemIds \/ (Some id ∈ values /\ Js.truthy id = true).
Proof.
  induction values as [|value values IH]; intros itemIds; simpl.
  - split; [exists []; by rewrite app_nil_r|]. split; [done|].
    intros id. rewrite elem_of_nil. tauto.
  - destruct (IH (addResolvedId itemIds value)) as ((added & Heq) & Hnd & Hin).
    assert (Hstep : (exists one, addResolvedId itemIds value = itemIds ++ one)
                    /\ (NoDup itemIds -> NoDup (addResolvedId itemIds value))
                    /\ forall id, id ∈ addResolvedId itemIds value
                         <-> id ∈ itemIds \/ (value = Some id /\ Js.truthy id = true)).
    { unfold addResolvedId. destruct value as [new|].
      - destruct (Js.truthy new) eqn:Htruthy; simpl.
        + destruct (bool_decide (new ∈ itemIds)) eqn:Hold; simpl.
          * apply bool_decide_eq_true in Hold.
            split; [exists []; by rewrite app_nil_r|]. split; [done|].
            intros id. split; [tauto|]. intros [?|[[= <-] _]]; done.
          * apply bool_decide_eq_false in Hold.
            split; [by exists [new]|]. split.
            -- intros Hnd0. apply NoDup_app. split; [done|]. split; [|apply NoDup_singleton].
               intros x Hx Hx'. by apply list_elem_of_singleton in Hx' as ->.
            -- intros id. rewrite elem_of_app, list_elem_of_singleton. split.
               ++ intros [?| ->]; [by left|by right].
               ++ intros [?|[[= <-] _]]; [by left|by right].
        + split; [exists []; by rewrite app_nil_r|]. split; [done|].
          intros id. split; [tauto|]. intros [?|[[= <-] ?]]; [done|congruence].
      - split; [exists []; by rewrite app_nil_r|]. split; [done|].
        intros id. split; [tauto|]. intros [?|[? _]]; [done|discriminate]. }
    destruct Hstep as ((one & Hone) & Hnd1 & Hin1).
    split; [|split].
    + exists (one ++ added). by rewrite Heq, Hone, app_assoc.
    + intros Hnd0. by apply Hnd, Hnd1.
    + intros id. rewrite Hin, Hin1, elem_of_cons. split.
      * intros [[?|[-> ?]]|[? ?]]; auto.
      * intros [?|[[<-|?] ?]]; auto.
Qed.

(** X4. Adding the resolved identifiers keeps the list it starts from as a
    prefix and keeps it free of duplicates; afterwards the list holds
    exactly its former elements and the non-empty identifiers of the
    resolved paths. Unresolved paths (null) add nothing. *)
Theorem addResolvedIds_members itemIds resolvedPaths :
  (exists added, addResolvedIds itemIds resolvedPaths = itemIds ++ added)
  /\ (NoDup itemIds -> NoDup (addResolvedIds itemIds resolvedPaths))
  /\ forall id, id ∈ addResolvedIds itemIds resolvedPaths
                <-> id ∈ itemIds
                    \/ (Some id ∈ Obj.values resolvedPaths /\ Js.truthy id = true).
Proof. apply fold_addResolvedId_members. Qed.

(** ** More on the resolver *)

Lemma get_Some_elem {V : Type} (p : string) (v : V) (o : JSObj V) :
  Obj.get p o = Some v -> (p, v) ∈ o.
Proof.
  induction o as [|[k x] o IH]; simpl; [discriminate|].
  destruct (decide (p = k)) as [->|Hne].
  - intros [= ->]. apply list_elem_of_here.
  - intros Hget. apply list_elem_of_further. by apply IH.
Qed.

Lemma readPath_cases responseData result foundItems index localPath :
  (exists itemId,
     readPath responseData (result, foundItems) (index, localPath)
     = (Obj.set localPath (Some (cleanGuid itemId)) result, S foundItems))
  \/ readPath responseData (result, foundItems) (index, localPath)
     = (Obj.set localPath None result, foundItems).
Proof.
  simpl. destruct (Obj.get _ responseData) as [[item|]|]; [|by right..].
  destruct (item_itemId item) as [itemId|]; [|by right].
  destruct (Js.truthy itemId); [left; by exists itemId|by right].
Qed.

(** When every entry read was found, every path read holds an identifier. *)
Lemma fold_readPath_all_found responseData entries : forall result foundItems,
  let final := fold_left (readPath responseData) entries (result, foundItems) in
  final.2 <= foundItems + length entries
  /\ (final.2 = foundItems + length entries ->
      forall p, (p ∈ entries.*2 -> exists id, Obj.get p final.1 = Some (Some id))
                /\ (p ∉ entries.*2 -> Obj.get p final.1 = Obj.get p result)).
Proof.
  induction entries as [|[index localPath] entries IH]; intros result foundItems; simpl.
  - split; [lia|]. intros _ p. split; [intros Hin; by apply elem_of_nil in Hin|done].
  - destruct (readPath_cases responseData result foundItems index localPath)
      as [[itemId Hstep]|Hstep]; simpl in Hstep; rewrite Hstep.
    + destruct (IH (Obj.set localPath (Some (cleanGuid itemId)) result) (S foundItems))
        as [Hle Hall].
      split; [simpl in *; lia|]. intros Heq p.
      destruct (Hall ltac:(simpl in *; lia) p) as [Hin Hout].
      split.
      * intros Hp. apply elem_of_cons in Hp as [->|Hp]; [|by apply Hin].
        destruct (decide (localPath ∈ entries.*2)) as [Hlater|Hlater]; [by apply Hin|].
        rewrite (Hout Hlater), get_set.
        destruct (decide (localPath = localPath)); [by eexists|done].
      * intros Hp. rewrite not_elem_of_cons in Hp. destruct Hp as [Hne Hp].
        rewrite (Hout Hp), get_set. destruct (decide (p = localPath)); [done|reflexivity].
    + destruct (IH (Obj.set localPath None result) foundItems) as [Hle Hall].
      split; [simpl in *; lia|]. intros Heq. simpl in *. lia.
Qed.

Lemma length_imap_pair {A : Type} (l : list A) : length (imap pair l) = length l.
Proof. by rewrite length_imap. Qed.

Lemma readResponse_all_found localPaths response :
  (readResponse localPaths response).2 = length localPaths ->
  forall p, p ∈ localPaths ->
  exists id, Obj.get p (readResponse localPaths response).1 = Some (Some id)
             /\ canonical id.
Proof.
  intros Hall p Hp.
  assert (Hget : exists id, Obj.get p (readResponse localPaths response).1 = Some (Some id)).
  { unfold readResponse in *. destruct (innerData response) as [responseData|].
    - destruct (fold_readPath_all_found responseData (imap pair localPaths) [] 0)
        as [_ Hfound].
      rewrite length_imap_pair in Hfound. destruct (Hfound Hall p) as [Hin _].
      apply Hin. by rewrite imap_pair_snd.
    - simpl in Hall. destruct localPaths; [by apply elem_of_nil in Hp|discriminate]. }
  destruct Hget as [id Hget]. exists id. split; [exact Hget|].
  eapply readResponse_canonical. by apply get_Some_elem.
Qed.

(** X5. A result returned early has no gap: when some batch resolved every
    path, the record returned maps every input path to an identifier, and
    that identifier is canonical. *)
Theorem full_resolution_has_no_null client localPaths basePath sitecoreContextId language w :
  exists result batches s,
    resolveLocalDatasourcePaths client localPaths basePath sitecoreContextId language w
      = (Returned result, after w s batches)
    /\ ((exists call, call ∈ batches /\ resolvesAll localPaths call = true) ->
        forall p, p ∈ localPaths ->
        exists id, Obj.get p result = Some (Some id) /\ canonical id).
Proof.
  destruct (resolveLocalDatasourcePaths_run client localPaths basePath
              sitecoreContextId language w)
    as (result & batches & s & Hrun & Hshape).
  exists result, batches, s. split; [exact Hrun|].
  intros (call & Hin & Hall) p Hp.
  destruct Hshape as [(-> & _)|(_ & _ & Hc)]; [by apply elem_of_nil in Hin|].
  apply list_elem_of_lookup in Hin as [k Hk].
  destruct (cascade_stops _ _ _ _ _ _ _ _ Hc k call Hk Hall) as [_ ->].
  destruct call as [|endpoint params batch [response|e]|]; try discriminate.
  simpl in *. apply bool_decide_eq_true in Hall. by apply readResponse_all_found.
Qed.

Lemma spread_keys {V : Type} (a b : JSObj V) :
  NoDup (Obj.keys a) ->
  NoDup (Obj.keys (Obj.spread a b))
  /\ forall p, p ∈ Obj.keys (Obj.spread a b) <-> p ∈ Obj.keys a \/ p ∈ Obj.keys b.
Proof.
  unfold Obj.spread. revert a. induction b as [|[k v] b IH]; intros a Hnd.
  - split; [exact Hnd|]. intros p. unfold Obj.keys. rewrite fmap_nil, elem_of_nil.
    simpl. tauto.
  - destruct (keys_set k v a Hnd) as [Hnd' Hin'].
    destruct (IH _ Hnd') as [IHnd IHin]. split; [exact IHnd|].
    intros p. cbn [fold_left]. rewrite IHin. cbn [fst snd]. rewrite Hin'.
    unfold Obj.keys. rewrite fmap_cons, elem_of_cons. cbn [fst]. tauto.
Qed.

Lemma readResponse_keys_sound localPaths response p :
  p ∈ Obj.keys (readResponse localPaths response).1 -> p ∈ localPaths.
Proof.
  unfold readResponse. destruct (innerData response) as [responseData|].
  - destruct (fold_readPath_keys responseData (imap pair localPaths) ([], 0))
      as [_ Hin]; [apply NoDup_nil_2|].
    rewrite Hin, imap_pair_snd. intros [?|Hnil]; [done|]. by apply elem_of_nil in Hnil.
  - intros Hnil. by apply elem_of_nil in Hnil.
Qed.

Lemma cascade_proper localPaths basePath sitecoreContextId language
    strategies resolvedItems batches result :
  Cascade localPaths basePath sitecoreContextId language strategies resolvedItems batches result ->
  properRecord localPaths resolvedItems -> properRecord localPaths result.
Proof.
  assert (Hread : forall response, properRecord localPaths (readResponse localPaths response).1).
  { intros response. split; [apply readResponse_nodup|]. apply readResponse_keys_sound. }
  induction 1 as [|strategy later acc answer result Hturn
                  |strategy later acc answer acc' batches result Hturn Hc IH];
    intros Hacc.
  - exact Hacc.
  - unfold turnOf in Hturn. destruct answer as [response|]; [|discriminate].
    specialize (Hread response).
    destruct (readResponse localPaths response) as [r f].
    destruct (decide (f = length localPaths)); [|destruct (decide (0 < f)); discriminate].
    by injection Hturn as <-.
  - apply IH. unfold turnOf in Hturn. destruct answer as [response|].
    + specialize (Hread response).
      destruct (readResponse localPaths response) as [r f].
      destruct (decide (f = length localPaths)); [discriminate|].
      destruct (decide (0 < f)); injection Hturn as <-; [|exact Hacc].
      destruct Hacc as [Hnd Hkeys], Hread as [_ Hrkeys].
      destruct (spread_keys acc r Hnd) as [Hnd' Hin']. split; [exact Hnd'|].
      intros p Hp. apply Hin' in Hp as [?|?]; auto.
    + by injection Hturn as <-.
Qed.

(** X6. Whatever the store answers, the record the resolver returns has one
    entry per key, every key is one of the input paths, and every
    identifier in it is canonical. *)
Theorem resolver_result_sound client localPaths basePath sitecoreContextId language w :
  exists result batches s,
    resolveLocalDatasourcePaths client localPaths basePath sitecoreContextId language w
      = (Returned result, after w s batches)
    /\ NoDup (Obj.keys result)
    /\ (forall p, is_Some (Obj.get p result) -> p ∈ localPaths)
    /\ (forall p id, Obj.get p result = Some (Some id) -> canonical id).
Proof.
  destruct (resolveLocalDatasourcePaths_run client localPaths basePath
              sitecoreContextId language w)
    as (result & batches & s & Hrun & Hshape).
  exists result, batches, s. split; [exact Hrun|].
  assert (Hnil : properRecord localPaths [] /\ allCanonical []).
  { split; [split; [apply NoDup_nil_2|]|]; intros p; [|intros id];
      intros Hin; by apply elem_of_nil in Hin. }
  assert (Hres : properRecord localPaths result /\ allCanonical result).
  { destruct Hshape as [(_ & -> & _)|(_ & _ & Hc)]; [exact Hnil|].
    split; [eapply cascade_proper|eapply cascade_canonical]; try exact Hc; apply Hnil. }
  destruct Hres as [[Hnd Hkeys] Hcan].
  split; [exact Hnd|]. split.
  - intros p Hp. by apply Hkeys, get_is_Some_keys.
  - intros p id Hget. eapply Hcan. by apply get_Some_elem.
Qed.

Lemma replaceFirst_absent pat rep s :
  Js.includes s pat = false -> Js.replaceFirst pat rep s = s.
Proof.
  induction s as [|c s IH]; cbn [Js.includes Js.replaceFirst].
  - destruct (String.prefix pat EmptyString); [discriminate|reflexivity].
  - destruct (String.prefix pat (String c s)); [discriminate|].
    intros Hrest. by rewrite IH.
Qed.

Lemma prefix_app p rest : String.prefix p (p +:+ rest) = true.
Proof.
  induction p as [|a p IH]; [by destruct rest|].
  change (String.prefix (String a p) (String a (p +:+ rest)) = true).
  cbn [String.prefix]. destruct (ascii_dec a a); [exact IH|done].
Qed.

Lemma dropChars_app p rest : Js.dropChars (String.length p) (p +:+ rest) = rest.
Proof. induction p as [|a p IH]; [by destruct rest|exact IH]. Qed.

Lemma replaceFirst_prefix pat rep rest :
  Js.replaceFirst pat rep (pat +:+ rest) = rep +:+ rest.
Proof.
  assert (Hunfold : forall s, String.prefix pat s = true ->
            Js.replaceFirst pat rep s = rep +:+ Js.dropChars (String.length pat) s).
  { intros s Hs. destruct s; cbn [Js.replaceFirst]; by rewrite Hs. }
  by rewrite Hunfold, dropChars_app; [|apply prefix_app].
Qed.

(** X7. For relative paths that do not contain [Page Components/], the third
    and fourth strategies send exactly the requests of the first and the
    second. A path that starts with [Page Components/] is looked up by
    them under the rest of the path. *)
Theorem strategies_without_prefix_repeat localPaths basePath sitecoreContextId language :
  Forall (fun localPath => Js.includes localPath "Page Components/" = false) localPaths ->
  let requests :=
    strategyParams localPaths basePath sitecoreContextId language <$> pathStrategies in
  requests !! 2 = requests !! 0
  /\ requests !! 3 = requests !! 1
  /\ forall rest,
       let built :=
         (fun strategy => strategy ("Page Components/" +:+ rest) basePath)
           <$> pathStrategies in
       built !! 2 = Some (basePath +:+ "/" +:+ rest)
       /\ built !! 3 = Some (basePath +:+ "/Data/" +:+ rest).
Proof.
  intros Hnone.
  assert (Hmap : forall f g : string -> string,
            (forall localPath, Js.includes localPath "Page Components/" = false ->
                               f localPath = g localPath) ->
            map f localPaths = map g localPaths).
  { intros f g Hfg. induction Hnone as [|localPath others Hhead Htail IH]; simpl;
      [reflexivity|]. by rewrite Hfg, IH. }
  unfold pathStrategies. cbv zeta. rewrite !fmap_cons. cbn [lookup list_lookup].
  split; [|split].
  - f_equal. unfold strategyParams. erewrite Hmap; [reflexivity|].
    cbv beta. intros localPath Habsent. by rewrite replaceFirst_absent.
  - f_equal. unfold strategyParams. erewrite Hmap; [reflexivity|].
    cbv beta. intros localPath Habsent. by rewrite replaceFirst_absent.
  - intros rest. cbv zeta. rewrite !fmap_cons. cbn [lookup list_lookup]. cbv beta.
    by rewrite (replaceFirst_prefix "Page Components/" EmptyString rest).
Qed.

(** ** More on the lookups *)

(** The live endpoint is never empty: it is the configured one when that
    is set to a non-empty string, and the Experience Edge default
    otherwise. *)
Lemma live_endpoint_never_empty :
  Js.truthy LIVE_ENDPOINT = true
  /\ (forall url, VITE_SITECORE_EDGE_ENDPOINT env = Some url -> Js.truthy url = true ->
                  LIVE_ENDPOINT = url)
  /\ (Js.truthyOpt (VITE_SITECORE_EDGE_ENDPOINT env) = false ->
      LIVE_ENDPOINT = "https://edge.sitecorecloud.io/api/graphql/v1").
Proof.
  unfold LIVE_ENDPOINT, Js.or.
  destruct (VITE_SITECORE_EDGE_ENDPOINT env) as [url|]; simpl.
  - destruct (Js.truthy url) eqn:Hurl.
    + split; [exact Hurl|]. split; [by intros ? [= <-] _|discriminate].
    + split; [reflexivity|]. split; [intros ? [= <-]; congruence|done].
  - split; [reflexivity|]. split; [discriminate|done].
Qed.

(** X8. Without a token the live lookup sends nothing: it returns the error
    marker of the missing token and leaves the trace as it was. With a
    token it sends exactly one POST to the live endpoint, carrying the
    token in the [sc_apikey] header, and its result is read off the answer. *)
Theorem live_lookup_needs_token client itemIds sitecoreContextId language w :
  itemIds <> [] ->
  (Js.truthyOpt (VITE_SITECORE_EDGE_TOKEN env) = false ->
   getItemsFromLive client itemIds sitecoreContextId language w
   = (Returned (errorMarker tokenMissing), w))
  /\ (forall token,
        VITE_SITECORE_EDGE_TOKEN env = Some token -> Js.truthy token = true ->
        exists answer s,
          getItemsFromLive client itemIds sitecoreContextId language w
          = (Returned (liveResultOf answer),
             after w s
               [FetchCall LIVE_ENDPOINT
                  {| fi_method := "POST";
                     fi_headers := [("Content-Type", "application/json");
                                    ("sc_apikey", token)];
                     fi_query := Js.trim (liveQuery itemIds language) |}
                  (Identifiers itemIds) answer])).
Proof.
  intros Hne. rewrite getItemsFromLive_run by exact Hne. split.
  - intros Hnone.
    assert (Htoken : Js.truthy LIVE_TOKEN = false).
    { unfold LIVE_TOKEN, Js.or. by rewrite Hnone. }
    by rewrite Htoken.
  - intros token Hset Htruthy.
    assert (Htoken : LIVE_TOKEN = token).
    { unfold LIVE_TOKEN, Js.or. rewrite Hset. simpl. by rewrite Htruthy. }
    unfold liveCall, liveInit. rewrite Htoken, Htruthy. by eexists _, _.
Qed.

(** X9. The preview lookup never throws. With no client or an empty list it
    returns the empty result and issues no call; otherwise it issues one
    call to [xmc.preview.graphql], and an exception of that call comes
    back as an error marker. *)
Theorem preview_lookup_catches client itemIds sitecoreContextId language w :
  exists result batches s,
    getItemsFromPreview client itemIds sitecoreContextId language w
    = (Returned result, after w s batches)
    /\ (client = None \/ itemIds = [] -> batches = [] /\ result = Some emptyResult)
    /\ (client <> None -> itemIds <> [] ->
        exists answer,
          batches = [previewCall itemIds sitecoreContextId language answer]
          /\ result = authoringResultOf answer).
Proof.
  destruct client as [c|].
  - destruct itemIds as [|itemId others].
    + exists (Some emptyResult), [], (outside w). rewrite after_nil.
      split; [reflexivity|]. split; [done|]. intros _ Hne. done.
    + unfold getItemsFromPreview, tryCatch, bind. rewrite callMutate_run.
      set (answer := mutate c _ _ _).
      exists (authoringResultOf answer.1),
        [previewCall (itemId :: others) sitecoreContextId language answer.1], answer.2.
      split; [by destruct (answer.1)|]. split; [intros [?|?]; discriminate|].
      intros _ _. by exists answer.1.
  - exists (Some emptyResult), [], (outside w). rewrite after_nil.
    split; [by destruct itemIds|]. split; [done|]. intros Hc. done.
Qed.

(** X10. A response passes [validateGraphQLResponse] exactly when it is there,
    holds the nested data, and has no error that reads as true. At most
    two errors are reported. An error marker never passes, and the empty
    result of the short-circuited lookups does. *)
Theorem validation_accepts response :
  (isValid (validateGraphQLResponse response) = true
   <-> exists r,
         response = Some r
         /\ is_Some (innerData (Some r))
         /\ forall error, qr_error r = Some error -> errorTruthy error = false)
  /\ (isValid (validateGraphQLResponse response) = true
      <-> errors (validateGraphQLResponse response) = [])
  /\ length (errors (validateGraphQLResponse response)) <= 2
  /\ (forall error,
        isValid (validateGraphQLResponse (Some (errorMarker error))) = false
        /\ "No data in response" ∈ errors (validateGraphQLResponse (Some (errorMarker error))))
  /\ validateGraphQLResponse (Some emptyResult) = {| isValid := true; errors := [] |}.
Proof.
  split; [|split; [|split; [|split]]].
  - destruct response as [[body error]|]; simpl.
    2:{ split; [discriminate|]. intros (r & Hr & _). discriminate. }
    assert (Hbad : forall e, error = Some e -> errorTruthy e = true ->
              ~ exists r, Some {| qr_data := body; qr_error := error |} = Some r
                          /\ is_Some (innerData (Some r))
                          /\ forall error, qr_error r = Some error ->
                                            errorTruthy error = false).
    { intros e -> He (r & [= <-] & _ & Herr). specialize (Herr e eq_refl). congruence. }
    assert (Hnodata : innerData (Some {| qr_data := body; qr_error := error |}) = None ->
              ~ exists r, Some {| qr_data := body; qr_error := error |} = Some r
                          /\ is_Some (innerData (Some r))
                          /\ forall error, qr_error r = Some error ->
                                            errorTruthy error = false).
    { intros Hnone (r & [= <-] & [x Hx] & _). congruence. }
    destruct error as [e|]; [destruct (errorTruthy e) eqn:He|];
      destruct body as [[[itemsData|]]|]; simpl;
      try (split; [discriminate|intros Hex; exfalso;
                   first [by eapply Hbad|by apply Hnodata]]).
    + split; [intros _|done]. eexists. split; [reflexivity|]. split; [by eexists|].
      intros error [= <-]. exact He.
    + split; [intros _|done]. eexists. split; [reflexivity|]. split; [by eexists|].
      intros error. discriminate.
  - destruct response as [[body error]|]; simpl; [|split; discriminate].
    rewrite bool_decide_eq_true. split.
    + intros Hlen. by apply nil_length_inv.
    + by intros ->.
  - destruct response as [[body error]|]; simpl; [|lia].
    destruct error as [e|]; [destruct (errorTruthy e)|];
      destruct body as [[[itemsData|]]|]; simpl; lia.
  - intros error. simpl. destruct (errorTruthy error); simpl.
    + split; [reflexivity|]. apply list_elem_of_further, list_elem_of_here.
    + split; [reflexivity|]. apply list_elem_of_here.
  - reflexivity.
Qed.

(** An empty identifier list (or an empty path list) short-circuits: the
    four batched functions return their empty result and leave the world,
    its trace included, as it was; the empty result passes validation. *)
Lemma empty_batches_issue_no_call client sitecoreContextId basePath contextId language w :
  getItemsFromAuthoring client [] sitecoreContextId language w = (Returned (Some emptyResult), w)
  /\ getItemsFromLive client [] sitecoreContextId language w = (Returned emptyResult, w)
  /\ getItemsFromPreview client [] sitecoreContextId language w = (Returned (Some emptyResult), w)
  /\ resolveLocalDatasourcePaths client [] basePath contextId language w = (Returned [], w)
  /\ isValid (validateGraphQLResponse (Some emptyResult)) = true
  /\ forall c, fetchBoth c [] sitecoreContextId language w
               = (Returned (Some emptyResult, Some emptyResult), w).
Proof. destruct client; repeat split; reflexivity. Qed.

(** ** More on the two hooks *)

(** X11. Without a client, or before it is initialized, neither hook issues a
    call: the error is set to its message and the data, the items and the
    loading flag are left as they were. *)
Theorem uninitialized_client_sets_error_only client isInitialized specificItemIds
    itemId others w :
  client = None \/ isInitialized = false ->
  let notInitialized :=
    withHook w {| data := data (hook w); items := items (hook w);
                  loading := loading (hook w);
                  error := Some "Marketplace client not initialized" |} in
  fetchItemInformation client isInitialized specificItemIds w = (Returned tt, notInitialized)
  /\ fetchSpecificItems client isInitialized (itemId :: others) w
     = (Returned tt, notInitialized).
Proof.
  intros [-> | ->]; [|destruct client]; split; reflexivity.
Qed.

(** X12. A cycle of [useSpecificItemsInformation] for a non-empty list and an
    initialized client always completes: whatever the two sources do, no
    error is set, loading is cleared, and the items published are those
    [processItemData] makes of the two results, the list as given and its
    first element as the current item, with no reference map. The
    authoring result is read off the answer to the authoring call, which
    is issued first. With a token the live request is the second and last
    call, and the live result is read off its answer; without a token no
    live request is sent and the live result is the error marker of the
    missing token. *)
Theorem specific_items_cycle_completes client first others w :
  exists authoringAnswer liveResult s batches,
    let processedItems :=
      processItemData (authoringResultOf authoringAnswer) (Some liveResult)
        (first :: others) (Some first) None in
    fetchSpecificItems (Some client) true (first :: others) w
    = (Returned tt,
       withHook (after w s batches)
         {| data := Some (createItemInformationResponse processedItems);
            items := processedItems; loading := false; error := None |})
    /\ head batches = Some (authoringCall (first :: others) None "en" authoringAnswer)
    /\ length batches <= 2
    /\ (if Js.truthy LIVE_TOKEN
        then exists liveAnswer,
               batches = [authoringCall (first :: others) None "en" authoringAnswer;
                          liveCall (first :: others) "en" liveAnswer]
               /\ liveResult = liveResultOf liveAnswer
        else batches = [authoringCall (first :: others) None "en" authoringAnswer]
             /\ liveResult = errorMarker tokenMissing).
Proof.
  unfold fetchSpecificItems, fetchBoth, bind, tryCatch, setLoading, setError, setData, setItems.
  cbn [outside calls hook data items loading error].
  rewrite getItemsFromAuthoring_run by done.
  set (w1 := {| outside := outside w |}).
  set (answer := mutate client _ _ _).
  rewrite getItemsFromLive_run by done.
  destruct (Js.truthy LIVE_TOKEN).
  - set (liveAnswer := fetch _ _ _).
    exists answer.1, (liveResultOf liveAnswer.1), liveAnswer.2,
      [authoringCall (first :: others) None "en" answer.1;
       liveCall (first :: others) "en" liveAnswer.1].
    split; [|split; [reflexivity|split; [simpl; lia|by exists liveAnswer.1]]].
    unfold withHook, after. cbn [outside calls hook data items loading error fst snd].
    by rewrite <- app_assoc.
  - exists answer.1, (errorMarker tokenMissing), answer.2,
      [authoringCall (first :: others) None "en" answer.1].
    split; [reflexivity|]. split; [reflexivity|]. split; [simpl; lia|done].
Qed.

(** *** The cycle does not depend on the React state it starts from *)

Lemma withHook_hook w : withHook w (hook w) = w.
Proof. by destruct w. Qed.

Lemma oblivious_hook {A : Type} (m : M A) w : oblivious m -> hook (m w).2 = hook w.
Proof.
  intros Hm. specialize (Hm w (hook w)). rewrite withHook_hook in Hm.
  destruct (m w) as [o w']. simpl in *. injection Hm as Hw'. by rewrite Hw'.
Qed.

Lemma oblivious_ret {A : Type} (a : A) : oblivious (ret a).
Proof. intros w h. reflexivity. Qed.

Lemma oblivious_throw {A : Type} (e : Thrown) : oblivious (throw e : M A).
Proof. intros w h. reflexivity. Qed.

Lemma oblivious_bind {A B : Type} (m : M A) (k : A -> M B) :
  oblivious m -> (forall a, oblivious (k a)) -> oblivious (bind m k).
Proof.
  intros Hm Hk w h. unfold bind. rewrite Hm.
  destruct (m w) as [[a|e] w']; simpl; [apply Hk|reflexivity].
Qed.

Lemma oblivious_tryCatch {A : Type} (body : M A) (handler : Thrown -> M A) :
  oblivious body -> (forall e, oblivious (handler e)) -> oblivious (tryCatch body handler).
Proof.
  intros Hm Hk w h. unfold tryCatch. rewrite Hm.
  destruct (body w) as [[a|e] w']; simpl; [reflexivity|apply Hk].
Qed.

Lemma oblivious_callMutate client endpoint params batch :
  oblivious (callMutate client endpoint params batch).
Proof. intros w h. unfold callMutate. simpl. by destruct (mutate _ _ _ _). Qed.

Lemma oblivious_callFetch url init batch : oblivious (callFetch url init batch).
Proof. intros w h. unfold callFetch. simpl. by destruct (fetch _ _ _). Qed.

Lemma oblivious_callPagesContext client : oblivious (callPagesContext client).
Proof. intros w h. unfold callPagesContext. simpl. by destruct (query_pages_context _ _). Qed.

Lemma oblivious_callApplicationContext client : oblivious (callApplicationContext client).
Proof.
  intros w h. unfold callApplicationContext. simpl.
  by destruct (query_application_context _ _).
Qed.

Lemma oblivious_getItemsFromAuthoring client itemIds sitecoreContextId language :
  oblivious (getItemsFromAuthoring client itemIds sitecoreContextId language).
Proof.
  unfold getItemsFromAuthoring. destruct client as [c|]; [|destruct itemIds; apply oblivious_ret].
  destruct itemIds; [apply oblivious_ret|].
  apply oblivious_tryCatch; [|intros e; apply oblivious_ret].
  apply oblivious_bind; [apply oblivious_callMutate|intros a; apply oblivious_ret].
Qed.

Lemma oblivious_getItemsFromLive client itemIds sitecoreContextId language :
  oblivious (getItemsFromLive client itemIds sitecoreContextId language).
Proof.
  unfold getItemsFromLive. destruct itemIds; [apply oblivious_ret|].
  apply oblivious_tryCatch; [|intros e; apply oblivious_ret].
  destruct (Js.truthy LIVE_TOKEN); [|apply oblivious_throw].
  apply oblivious_bind; [apply oblivious_callFetch|]. intros response.
  destruct (resp_ok response); [|apply oblivious_throw].
  intros w h. by destruct (resp_json response).
Qed.

Lemma oblivious_resolveLoop client localPaths basePath sitecoreContextId language strategies :
  forall resolvedItems,
  oblivious (resolveLoop client localPaths basePath sitecoreContextId language
               strategies resolvedItems).
Proof.
  induction strategies as [|strategy later IH]; intros resolvedItems;
    cbn [resolveLoop]; [apply oblivious_ret|].
  apply oblivious_bind.
  - unfold tryStrategy. apply oblivious_tryCatch; [|intros e; apply oblivious_ret].
    apply oblivious_bind; [apply oblivious_callMutate|]. intros response.
    destruct (readResponse localPaths response) as [result foundItems].
    repeat case_decide; apply oblivious_ret.
  - intros [result|resolvedItems']; [apply oblivious_ret|apply IH].
Qed.

Lemma oblivious_gather client d : oblivious (gather client d).
Proof.
  unfold gather. apply oblivious_bind.
  { unfold getSitecoreContextId. apply oblivious_tryCatch; [|intros e; apply oblivious_ret].
    apply oblivious_bind; [apply oblivious_callApplicationContext|].
    intros a; apply oblivious_ret. }
  intros sitecoreContextId. apply oblivious_bind.
  { unfold resolveLocalPaths. destruct (d_localPathsToResolve d); [apply oblivious_ret|].
    destruct sitecoreContextId as [contextId|]; [|apply oblivious_ret].
    destruct (Js.truthy contextId); [|apply oblivious_ret].
    apply oblivious_tryCatch; [|intros e; apply oblivious_ret].
    apply oblivious_bind; [|intros a; apply oblivious_ret].
    unfold resolveLocalDatasourcePaths. apply oblivious_resolveLoop. }
  intros itemIds. apply oblivious_bind.
  { unfold fetchBoth. apply oblivious_bind; [apply oblivious_getItemsFromAuthoring|].
    intros a. apply oblivious_bind; [apply oblivious_getItemsFromLive|].
    intros l. apply oblivious_ret. }
  intros results. cbv zeta. apply oblivious_bind.
  { unfold validateNested. destruct (extractReferences _ _).2; [apply oblivious_ret|].
    apply oblivious_bind; [apply oblivious_getItemsFromAuthoring|].
    intros a. apply oblivious_ret. }
  intros nestedItemIds. unfold fetchNested. destruct nestedItemIds; [apply oblivious_ret|].
  apply oblivious_bind; [apply oblivious_getItemsFromLive|]. intros l.
  apply oblivious_bind; [apply oblivious_getItemsFromAuthoring|]. intros a.
  apply oblivious_ret.
Qed.

Lemma oblivious_discover client specificItemIds : oblivious (discover client specificItemIds).
Proof.
  assert (Hctx : oblivious
            (let* pageContext := callPagesContext client in
             let extractionResult := extractItemIdsWithLocalPaths pageContext in
             match ex_itemIds extractionResult with
             | [] => throw (ErrorObj "No item IDs found in current context")
             | first :: _ =>
                 ret {| d_itemIds := ex_itemIds extractionResult;
                        d_currentItemId := Some first;
                        d_localPathsToResolve := ex_localPathsToResolve extractionResult;
                        d_currentPagePath := ex_currentPagePath extractionResult;
                        d_language := ex_language extractionResult |}
             end)).
  { apply oblivious_bind; [apply oblivious_callPagesContext|]. intros pageContext.
    cbv zeta. destruct (ex_itemIds _); [apply oblivious_throw|apply oblivious_ret]. }
  unfold discover. destruct specificItemIds as [[|first others]|];
    [exact Hctx|apply oblivious_ret|exact Hctx].
Qed.

(** X13. With an initialized client, the world a cycle ends in does not depend
    on the React state it starts from: every cell is overwritten, so no
    earlier data, items, error or loading flag survives a cycle. In
    particular [forceRefresh] ends where [refetch] ends. *)
Theorem cycle_overwrites_react_state client specificItemIds w h :
  fetchItemInformation (Some client) true specificItemIds (withHook w h)
  = fetchItemInformation (Some client) true specificItemIds w
  /\ forceRefresh (Some client) true w = refetch (Some client) true w.
Proof.
  assert (Hcycle : forall specific w h,
            fetchItemInformation (Some client) true specific (withHook w h)
            = fetchItemInformation (Some client) true specific w).
  { clear. intros specific w h. rewrite !fetchItemInformation_run.
    change (started (withHook w h))
      with (withHook (started w) {| data := data h; items := items h;
                                    loading := true; error := None |}).
    rewrite (oblivious_discover client specific).
    pose proof (oblivious_hook (discover client specific) (started w)
                  (oblivious_discover client specific)) as Hhook.
    destruct (discover client specific (started w)) as [[d|e] wd]; simpl in *;
      [|reflexivity].
    rewrite (oblivious_gather client d).
    pose proof (oblivious_hook (gather client d) wd (oblivious_gather client d)) as Hhook'.
    destruct (gather client d wd) as [[cd|e] wg]; simpl in *; [|reflexivity].
    unfold withHook. simpl. by rewrite Hhook', Hhook. }
  split; [apply Hcycle|].
  unfold forceRefresh, refetch, bind, setData, setItems, setError.
  cbn [outside calls hook data items loading error].
  exact (Hcycle None w {| data := None; items := []; loading := loading (hook w);
                           error := None |}).
Qed.

(** *** The calls of a cycle *)

Lemma within_ret {A : Type} (a : A) n : returns (ret a) (within n).
Proof. apply returns_ret. split; [simpl; lia|constructor]. Qed.

Lemma within_bind {A B : Type} (m : M A) (k : A -> M B) n n' :
  returns m (within n) -> (forall a, returns (k a) (within n')) ->
  returns (bind m k) (within (n + n')).
Proof.
  intros Hm Hk.
  eapply returns_weaken; [exact (returns_bind m k (within n) (fun _ => within n') Hm Hk)|].
  intros b batches (a & first & second & -> & [Hlen Hall] & [Hlen' Hall']).
  split; [rewrite length_app; lia|by apply Forall_app].
Qed.

Lemma within_le {A : Type} (m : M A) n n' :
  n <= n' -> returns m (within n) -> returns m (within n').
Proof.
  intros Hle Hm. eapply returns_weaken; [exact Hm|].
  intros a batches [Hlen Hall]. split; [lia|exact Hall].
Qed.

Lemma within_getItemsFromAuthoring client itemIds sitecoreContextId language :
  returns (getItemsFromAuthoring client itemIds sitecoreContextId language) (within 1).
Proof.
  eapply returns_weaken; [apply getItemsFromAuthoring_returns|].
  intros result batches [(-> & _)|(_ & answer & -> & _)].
  - split; [simpl; lia|constructor].
  - split; [simpl; lia|]. constructor; [discriminate|constructor].
Qed.

Lemma within_getItemsFromLive client itemIds sitecoreContextId language :
  returns (getItemsFromLive client itemIds sitecoreContextId language) (within 1).
Proof.
  eapply returns_weaken; [apply getItemsFromLive_returns|].
  intros result batches [(-> & _)|(answer & -> & _)].
  - split; [simpl; lia|constructor].
  - split; [simpl; lia|]. constructor; [discriminate|constructor].
Qed.

Lemma cascade_notPages localPaths basePath sitecoreContextId language
    strategies resolvedItems batches result :
  Cascade localPaths basePath sitecoreContextId language strategies resolvedItems batches result ->
  Forall notPages batches.
Proof. induction 1; repeat constructor; try discriminate; assumption. Qed.

Lemma within_resolveLocalPaths client itemIds localPathsToResolve currentPagePath
    sitecoreContextId language :
  returns (resolveLocalPaths client itemIds localPathsToResolve currentPagePath
             sitecoreContextId language) (within 4).
Proof.
  unfold resolveLocalPaths.
  destruct localPathsToResolve as [|localPath others]; [apply within_ret|].
  destruct sitecoreContextId as [contextId|]; [|apply within_ret].
  destruct (Js.truthy contextId); [|apply within_ret].
  apply returns_tryCatch. apply (within_bind _ _ 4 0); [|intros a; apply within_ret].
  intros w.
  destruct (resolveLocalDatasourcePaths_run (Some client) (localPath :: others)
              currentPagePath contextId language w)
    as (result & batches & s & Hrun & Hshape).
  exists result, batches, s. split; [exact Hrun|].
  destruct Hshape as [(-> & _)|(_ & _ & Hc)]; [split; [simpl; lia|constructor]|].
  split; [by apply cascade_length in Hc|by eapply cascade_notPages].
Qed.

Lemma within_gather client d : returns (gather client d) (within 10).
Proof.
  unfold gather. apply (within_bind _ _ 1 9).
  { intros w. unfold getSitecoreContextId, tryCatch, bind, callApplicationContext.
    destruct (query_application_context client (outside w)) as [[appContext|e] s];
      eexists _, [QueryCall "application.context"], s;
      (split; [reflexivity|]); (split; [simpl; lia|]);
      (constructor; [discriminate|constructor]). }
  intros sitecoreContextId. apply (within_bind _ _ 4 5); [apply within_resolveLocalPaths|].
  intros itemIds. apply (within_bind _ _ 2 3).
  { unfold fetchBoth. apply (within_bind _ _ 1 1); [apply within_getItemsFromAuthoring|].
    intros a. apply (within_bind _ _ 1 0); [apply within_getItemsFromLive|].
    intros l. apply within_ret. }
  intros results. cbv zeta. apply (within_bind _ _ 1 2).
  { unfold validateNested. destruct (extractReferences _ _).2; [apply within_ret|].
    apply (within_bind _ _ 1 0); [apply within_getItemsFromAuthoring|].
    intros a. apply within_ret. }
  intros nestedItemIds. unfold fetchNested. destruct nestedItemIds; [apply within_ret|].
  apply (within_bind _ _ 1 1); [apply within_getItemsFromLive|]. intros l.
  apply (within_bind _ _ 1 0); [apply within_getItemsFromAuthoring|]. intros a.
  apply within_ret.
Qed.

Lemma discover_run client specificItemIds w :
  exists result s batches,
    discover client specificItemIds w = (result, after w s batches)
    /\ length batches <= 1
    /\ (forall first others, specificItemIds = Some (first :: others) ->
        batches = [] /\ exists d, result = Returned d).
Proof.
  assert (Hctx : forall specific,
            (specific = None \/ specific = Some []) ->
            exists result s batches,
              discover client specific w = (result, after w s batches)
              /\ length batches <= 1
              /\ (forall first others, specific = Some (first :: others) ->
                  batches = [] /\ exists d, result = Returned d)).
  { intros specific Hnone.
    assert (Hrun : exists result s,
              discover client specific w
              = (result, after w s [QueryCall "pages.context"])).
    { destruct Hnone as [-> | ->]; unfold discover, bind, callPagesContext;
        destruct (query_pages_context client (outside w)) as [[pageContext|e] s]; simpl;
        try (by eexists _, _);
        destruct (ex_itemIds (extractItemIdsWithLocalPaths pageContext)); by eexists _, _. }
    destruct Hrun as (result & s & Hrun). exists result, s, [QueryCall "pages.context"].
    split; [exact Hrun|]. split; [simpl; lia|].
    intros first others ->. destruct Hnone; discriminate. }
  destruct specificItemIds as [[|first others]|]; [apply Hctx; auto| |apply Hctx; auto].
  eexists _, (outside w), []. rewrite after_nil. split; [reflexivity|].
  split; [simpl; lia|]. intros ? ? _. split; [reflexivity|by eexists].
Qed.

(** X14. A cycle of [useItemInformation] with an initialized client always
    returns, and it issues at most eleven calls: the page context, the
    application context, four resolution batches, the two lookups of the
    main list, the light lookup of the nested candidates and their two
    lookups. With an explicit list of identifiers the page context is not
    queried, and at most ten calls are issued. *)
Theorem cycle_call_budget client specificItemIds w :
  exists w' batches,
    fetchItemInformation (Some client) true specificItemIds w = (Returned tt, w')
    /\ calls w' = calls w ++ batches
    /\ length batches <= 11
    /\ (forall first others, specificItemIds = Some (first :: others) ->
        length batches <= 10 /\ Forall notPages batches).
Proof.
  rewrite fetchItemInformation_run.
  destruct (discover_run client specificItemIds (started w))
    as (result & s & batches & -> & Hlen & Hexplicit).
  destruct result as [d|e].
  - destruct (within_gather client d (after (started w) s batches))
      as (cd & later & s' & -> & Hlen' & Hall).
    eexists _, (batches ++ later). split; [reflexivity|].
    split; [simpl; by rewrite app_assoc|]. split; [rewrite length_app; lia|].
    intros first others Hspec. destruct (Hexplicit _ _ Hspec) as [-> _].
    simpl. split; [lia|exact Hall].
  - eexists _, batches. split; [reflexivity|].
    split; [reflexivity|]. split; [lia|].
    intros first others Hspec. destruct (Hexplicit _ _ Hspec) as [_ [d Hd]]. discriminate.
Qed.

(** ** More on the reference graph *)

Lemma fold_left_preserves_in {A B : Type} (f : A -> B -> A) (P : A -> Prop) (l : list B) :
  (forall a x, x ∈ l -> P a -> P (f a x)) -> forall a, P a -> P (fold_left f l a).
Proof.
  induction l as [|x l IH]; intros Hstep a Ha; simpl; [exact Ha|].
  apply IH.
  - intros a' y Hy. apply Hstep. by apply list_elem_of_further.
  - apply Hstep; [apply list_elem_of_here|exact Ha].
Qed.

Lemma recordMatch_sound authoringResult itemIds parentInfo st matched :
  discoveredBy authoringResult (cleanGuid matched) parentInfo ->
  scanSound authoringResult st ->
  scanSound authoringResult (recordMatch itemIds parentInfo st matched).
Proof.
  intros Hdisc [Hqueue Hrefs]. unfold scanSound.
  rewrite recordMatch_queue, recordMatch_map. cbv zeta. split.
  - intros guid Hin. destruct (_ && _); [|by apply Hqueue].
    apply elem_of_app in Hin as [Hin|Hin]; [by apply Hqueue|].
    apply list_elem_of_singleton in Hin as ->. by exists parentInfo.
  - intros guid refs ref.
    destruct (decide (cleanGuid matched = guid)) as [<-|Hne].
    + rewrite lookup_insert_eq. intros [= <-] Hin.
      assert (Hold : ref ∈ default [] (st.1 !! cleanGuid matched) ->
                     discoveredBy authoringResult (cleanGuid matched) ref).
      { destruct (st.1 !! cleanGuid matched) as [refs|] eqn:Hget; simpl.
        - by apply Hrefs.
        - intros Hnil. by apply elem_of_nil in Hnil. }
      destruct (hasParent _ parentInfo); [by apply Hold|].
      apply elem_of_app in Hin as [Hin|Hin]; [by apply Hold|].
      by apply list_elem_of_singleton in Hin as ->.
    + rewrite lookup_insert_ne by done. apply Hrefs.
Qed.

(** X15. The reference graph holds nothing that was not found: every queued
    identifier, and every parent recorded for an identifier, comes from a
    match of the pattern in a field that is scanned, that is, a field with
    a non-empty string value whose name includes none of the system field
    names. *)
Theorem recorded_references_were_discovered itemIds authoringResult :
  scanSound authoringResult (extractReferences itemIds authoringResult)
  /\ forall field value,
       scannedValue field = Some value ->
       field_value field = Some value /\ value <> EmptyString
       /\ forall systemField, systemField ∈ systemFields ->
            Js.includes (field_name field) systemField = false.
Proof.
  split.
  - unfold extractReferences, discoveredBy, scanSound, entriesOf.
    destruct (innerData authoringResult) as [authoringData|] eqn:Hdata.
    2:{ split; [intros guid Hin; by apply elem_of_nil in Hin|].
        intros guid refs ref Hget. simpl in Hget. by rewrite lookup_empty in Hget. }
    apply (fold_left_preserves_in _ (scanSound authoringResult)).
    + intros st item Hitem Hst. unfold scanItem.
      destruct item as [it|]; [|exact Hst].
      destruct (item_fields it) as [nodes|] eqn:Hnodes; [|exact Hst].
      apply (fold_left_preserves_in _ (scanSound authoringResult)); [|exact Hst].
      intros st' field Hfield Hst'. unfold scanField.
      destruct (scannedValue field) as [value|] eqn:Hvalue; [|exact Hst'].
      apply (fold_left_preserves_in _ (scanSound authoringResult)); [|exact Hst'].
      intros st'' matched Hmatched Hst''. apply recordMatch_sound; [|exact Hst''].
      exists it, nodes, field, value, matched. unfold entriesOf. rewrite Hdata. done.
    + split; [intros guid Hin; by apply elem_of_nil in Hin|].
      intros guid refs ref Hget. simpl in Hget. by rewrite lookup_empty in Hget.
  - intros field value. unfold scannedValue.
    destruct (field_value field) as [v|]; [|discriminate].
    destruct (Js.truthy v) eqn:Hv; [|discriminate].
    destruct (existsb _ systemFields) eqn:Hsys; [discriminate|].
    intros [= <-]. split; [reflexivity|]. split; [by destruct v|].
    intros systemField Hin.
    destruct (Js.includes (field_name field) systemField) eqn:Hinc; [|reflexivity].
    assert (existsb (Js.includes (field_name field)) systemFields = true); [|congruence].
    apply existsb_exists. exists systemField. split; [by apply list_elem_of_In|exact Hinc].
Qed.

(** ** More on the validation *)

Lemma not_rejected_accepted itemPath :
  ~ rejectedPath itemPath -> negb (isSystemItem itemPath) && Js.truthy itemPath = true.
Proof.
  intros Hok. unfold rejectedPath in Hok.
  assert (Hpath : Js.truthy itemPath = true).
  { destruct itemPath; [exfalso; apply Hok; by left|reflexivity]. }
  rewrite Hpath, andb_true_r. apply negb_true_iff.
  unfold isSystemItem, excludedPaths. simpl.
  destruct (Js.startsWith itemPath "/sitecore/system/") eqn:H1; [exfalso; apply Hok; auto|].
  destruct (Js.startsWith itemPath "/sitecore/templates/") eqn:H2; [exfalso; apply Hok; auto|].
  destruct (Js.startsWith itemPath "/sitecore/layout/") eqn:H3; [exfalso; apply Hok; auto|].
  reflexivity.
Qed.

Lemma fold_validateEntry_keeps entries : forall validNestedIds,
  (forall guid, guid ∈ validNestedIds -> guid ∈ fold_left validateEntry entries validNestedIds)
  /\ (forall nestedItem, nestedItem ∈ entries -> ~ rejectedPath (pathOf nestedItem) ->
      cleanGuid (idOf nestedItem) ∈ fold_left validateEntry entries validNestedIds)
  /\ length (fold_left validateEntry entries validNestedIds)
     <= length validNestedIds + length entries.
Proof.
  induction entries as [|entry entries IH]; intros validNestedIds; simpl.
  - split; [done|]. split; [|lia]. intros ? Hin. by apply elem_of_nil in Hin.
  - destruct (IH (validateEntry validNestedIds entry)) as (Hkeep & Hnew & Hlen).
    assert (Hstep : (forall guid, guid ∈ validNestedIds -> guid ∈ validateEntry validNestedIds entry)
                    /\ (~ rejectedPath (pathOf entry) ->
                        cleanGuid (idOf entry) ∈ validateEntry validNestedIds entry)
                    /\ length (validateEntry validNestedIds entry) <= S (length validNestedIds)).
    { unfold validateEntry.
      destruct (negb (isSystemItem (pathOf entry)) && Js.truthy (pathOf entry)) eqn:Hok.
      - split; [intros guid Hin; apply elem_of_app; by left|].
        split; [intros _; apply elem_of_app; right; apply list_elem_of_here|].
        rewrite length_app. simpl. lia.
      - split; [done|]. split; [|lia].
        intros Hacc. apply not_rejected_accepted in Hacc. congruence. }
    destruct Hstep as (Hkeep1 & Hnew1 & Hlen1).
    split; [intros guid Hin; by apply Hkeep, Hkeep1|]. split; [|lia].
    intros nestedItem Hin Hacc. apply elem_of_cons in Hin as [->|Hin].
    + by apply Hkeep, Hnew1.
    + by apply Hnew.
Qed.

(** X16. Validation keeps every entry whose path is acceptable: an entry of
    the light lookup with a non-empty path outside the excluded trees puts
    its canonical identifier in the validated set, and the set is no
    longer than the lookup's record. *)
Theorem validation_keeps_accepted nestedAuthoringResult nestedItem :
  nestedItem ∈ entriesOf nestedAuthoringResult ->
  ~ rejectedPath (pathOf nestedItem) ->
  cleanGuid (idOf nestedItem) ∈ validNestedIdsOf nestedAuthoringResult
  /\ length (validNestedIdsOf nestedAuthoringResult)
     <= length (entriesOf nestedAuthoringResult).
Proof.
  unfold entriesOf, validNestedIdsOf.
  destruct (innerData nestedAuthoringResult) as [nestedAuthoringData|];
    [|intros Hin; by apply elem_of_nil in Hin].
  intros Hin Hacc.
  destruct (fold_validateEntry_keeps (Obj.values nestedAuthoringData) [])
    as (_ & Hnew & Hlen).
  split; [by apply Hnew|exact Hlen].
Qed.

(** X17. When the light lookup of the nested candidates fails, or answers
    without data, no nested identifier is kept: the queue becomes empty,
    and the last stage then issues no call and hands on the main list and
    the two results as they are. *)
Theorem failed_validation_drops_candidates client candidate others sitecoreContextId
    language w currentItemId referencedByMap authoringResult liveResult itemIds :
  let candidates := candidate :: others in
  let answer := mutate client "xmc.authoring.graphql"
                  (authoringParams candidates sitecoreContextId language) (outside w) in
  innerData (authoringResultOf answer.1) = None ->
  validateNested client candidates sitecoreContextId language w
  = (Returned [], after w answer.2 [authoringCall candidates sitecoreContextId language answer.1])
  /\ forall w',
       fetchNested client sitecoreContextId language currentItemId referencedByMap
         authoringResult liveResult itemIds [] w'
       = (Returned {| cd_authoringResult := authoringResult; cd_liveResult := liveResult;
                      cd_itemIds := itemIds; cd_currentItemId := currentItemId;
                      cd_referencedByMap := referencedByMap |}, w').
Proof.
  intros candidates answer Hnone. split; [|reflexivity].
  subst candidates answer. unfold validateNested. cbn [bind]. unfold bind.
  rewrite getItemsFromAuthoring_run by done.
  unfold validNestedIdsOf. by rewrite Hnone.
Qed.

(** ** Merging the nested results *)

Lemma ofNat_inj a b : Js.ofNat a = Js.ofNat b -> a = b.
Proof.
  unfold Js.ofNat. intros Heq. apply DecimalNat.Unsigned.to_uint_inj.
  assert (Hsome : Some (Nat.to_uint a) = Some (Nat.to_uint b)).
  { by rewrite <- !NilEmpty.usu, Heq. }
  by injection Hsome.
Qed.

Lemma alias_fresh n : ("item" +:+ Js.ofNat n) ∉ aliases n.
Proof.
  unfold aliases. intros Hin. apply list_elem_of_fmap in Hin as (index & Heq & Hin).
  injection Heq as Heq. apply ofNat_inj in Heq as <-.
  apply elem_of_seq in Hin. lia.
Qed.

Lemma aliases_S n : aliases (S n) = aliases n ++ ["item" +:+ Js.ofNat n].
Proof. unfold aliases. by rewrite seq_S, fmap_app. Qed.

Lemma set_fresh {V : Type} k (v : V) (o : JSObj V) :
  k ∉ Obj.keys o -> Obj.set k v o = o ++ [(k, v)].
Proof.
  unfold Obj.keys. induction o as [|[k' v'] o IH]; simpl; [done|].
  rewrite not_elem_of_cons. intros [Hne Hout].
  destruct (decide (k = k')); [done|]. by rewrite IH.
Qed.

Lemma fold_appendEntries n values : forall offset (merged : ItemsData),
  positional (n + offset) merged ->
  let final :=
    fold_left
      (fun merged entry => Obj.set ("item" +:+ Js.ofNat (n + entry.1)) entry.2 merged)
      (imap (fun index value => (offset + index, value)) values) merged in
  positional (n + offset + length values) final
  /\ Obj.values final = Obj.values merged ++ values.
Proof.
  induction values as [|value values IH]; intros offset merged Hpos; cbn [imap fold_left].
  - rewrite Nat.add_0_r, app_nil_r. done.
  - cbn [fst snd]. rewrite Nat.add_0_r.
    assert (Hset : Obj.set ("item" +:+ Js.ofNat (n + offset)) value merged
                   = merged ++ [("item" +:+ Js.ofNat (n + offset), value)]).
    { apply set_fresh. unfold positional in Hpos. rewrite Hpos. apply alias_fresh. }
    rewrite Hset.
    assert (Hpos' : positional (n + S offset)
                      (merged ++ [("item" +:+ Js.ofNat (n + offset), value)])).
    { unfold positional, Obj.keys in *. rewrite fmap_app, Hpos.
      replace (n + S offset) with (S (n + offset)) by lia. by rewrite aliases_S. }
    destruct (IH (S offset) _ Hpos') as [Hfinal Hvalues].
    assert (Himap : imap ((fun index value0 => (offset + index, value0)) ∘ S) values
                    = imap (fun index value0 => (S offset + index, value0)) values).
    { apply imap_ext. intros i x _. simpl. f_equal. lia. }
    rewrite Himap. split.
    + replace (n + offset + length (value :: values))
        with (n + S offset + length values) by (simpl; lia). exact Hfinal.
    + rewrite Hvalues. unfold Obj.values. rewrite fmap_app. simpl.
      by rewrite <- app_assoc.
Qed.

(** X18. When the original record answers [n] identifiers under the aliases
    [item0] to [item(n-1)], the merge keeps its entries and appends the
    nested values in order under the next aliases, so no entry is
    overwritten. When either result has no data the original result is
    left as it is. *)
Theorem merge_appends_under_fresh_aliases original nested originalData nestedData n :
  innerData original = Some originalData ->
  innerData nested = Some nestedData ->
  positional n originalData ->
  exists merged,
    innerData (mergeNested original nested) = Some merged
    /\ Obj.values merged = Obj.values originalData ++ Obj.values nestedData
    /\ positional (n + length nestedData) merged
    /\ (forall other, innerData other = None ->
          mergeNested original other = original /\ mergeNested other nested = other).
Proof.
  intros Horiginal Hnested Hpos.
  assert (Hlen : length (Obj.keys originalData) = n).
  { unfold positional in Hpos. rewrite Hpos. unfold aliases.
    by rewrite length_fmap, length_seq. }
  destruct (fold_appendEntries n (Obj.values nestedData) 0 originalData) as [Hfinal Hvalues].
  { by rewrite Nat.add_0_r. }
  exists (appendEntries originalData nestedData).
  assert (Happend : appendEntries originalData nestedData
                    = fold_left
                        (fun merged entry =>
                           Obj.set ("item" +:+ Js.ofNat (n + entry.1)) entry.2 merged)
                        (imap (fun index value => (0 + index, value)) (Obj.values nestedData))
                        originalData).
  { unfold appendEntries. by rewrite Hlen. }
  split; [|split; [|split]].
  - unfold mergeNested. rewrite Hnested, Horiginal.
    destruct original as [q|]; [reflexivity|discriminate].
  - rewrite Happend. exact Hvalues.
  - rewrite Happend. unfold Obj.values in Hfinal. rewrite length_fmap, Nat.add_0_r in Hfinal.
    exact Hfinal.
  - intros other Hother. unfold mergeNested. rewrite Hother. split; [reflexivity|].
    rewrite Hnested. reflexivity.
Qed.

End Pipeline.

(** * Concrete runs *)

Arguments mkClient {St PageContext} _ _ _.
Arguments mkWorld {St ItemInformationResponse ProcessedItemInfo} _ _ _.
Arguments mkHook {ItemInformationResponse ProcessedItemInfo} _ _ _ _.
Arguments outside {St ItemInformationResponse ProcessedItemInfo} _.
Arguments calls {St ItemInformationResponse ProcessedItemInfo} _.
Arguments hook {St ItemInformationResponse ProcessedItemInfo} _.
Arguments data {ItemInformationResponse ProcessedItemInfo} _.
Arguments items {ItemInformationResponse ProcessedItemInfo} _.
Arguments loading {ItemInformationResponse ProcessedItemInfo} _.
Arguments error {ItemInformationResponse ProcessedItemInfo} _.
Arguments after {St ItemInformationResponse ProcessedItemInfo} _ _ _.
Arguments withHook {St ItemInformationResponse ProcessedItemInfo} _ _.
Arguments failedWith {ItemInformationResponse ProcessedItemInfo} _.

Module Runs.

(** The outside state of the runs counts the authoring calls answered so
    far. The page context of the runs is the extraction itself, a
    processed item is its identifier, and the response is the number of
    items. *)
Definition TestWorld : Type := World nat nat string.
Definition TestClient : Type := ClientSDK nat ExtractionResult.

Definition world0 : TestWorld :=
  mkWorld 0 [] (mkHook None [] false None).

(** A world in which an earlier cycle has published a result. *)
Definition worldWithResult : TestWorld :=
  mkWorld 0 [] (mkHook (Some 1) ["11111111-1111-1111-1111-111111111111"] false None).

Definition noEnv : ImportMetaEnv :=
  {| VITE_SITECORE_EDGE_TOKEN := None; VITE_SITECORE_EDGE_ENDPOINT := None |}.
Definition edgeEnv : ImportMetaEnv :=
  {| VITE_SITECORE_EDGE_TOKEN := Some "token"; VITE_SITECORE_EDGE_ENDPOINT := None |}.

(** The identifiers of the runs are hyphenated already. *)
Definition hyphenated (guid : string) : string := guid.

Definition processIds (_authoring _live : option ItemQueryResult) (itemIds : list string)
    (_current : option string) (_refs : option (gmap string (list ParentInfo)))
    : list string := itemIds.

Definition countItems (processed : list string) : nat := length processed.

Definition dataResult (itemsData : ItemsData) : outcome (option ItemQueryResult) :=
  Returned (Some {| qr_data := Some {| body_data := Some itemsData |}; qr_error := None |}).

Definition authoringItem (itemId name path : string) (nodes : list Field) : Item :=
  mkItem (Some itemId) None (Some name) (Some path) (Some 1) (Some "Page") (Some "en")
    (Some nodes).

Definition liveItem (id name : string) : Item :=
  mkItem None (Some id) (Some name) None (Some 1) None (Some "en") None.

(** A live endpoint that is down. *)
Definition fetchDown (_url : string) (_init : FetchInit) (s : nat)
    : outcome HttpResponse * nat :=
  (Threw (ErrorObj "Failed to fetch"), s).

(** A live endpoint that answers with one published item. *)
Definition fetchOk (_url : string) (_init : FetchInit) (s : nat)
    : outcome HttpResponse * nat :=
  (Returned (mkResponse true 200
     (Returned (Some {| body_data :=
        Some [("item0", Some (liveItem "11111111111111111111111111111111" "Home"))] |}))),
   s).

Definition noPages (s : nat) : outcome ExtractionResult * nat :=
  (Returned (mkExtraction [] [] EmptyString "en"), s).

Definition noAppContext (s : nat) : outcome (option AppContext) * nat :=
  (Returned None, s).

(** An authoring store that finds nothing at any path. *)
Definition silentClient : TestClient :=
  mkClient noPages noAppContext
    (fun _endpoint _params s => (dataResult [("path0", None); ("path1", None)], S s)).

Definition headerId : string := "{aaaaaaaa-0000-0000-0000-000000000001}".
Definition textId : string := "{bbbbbbbb-0000-0000-0000-000000000002}".

(** An authoring store in which the first strategy finds the first path
    only, the second strategy the second path only, and the others
    nothing. *)
Definition scatteredClient : TestClient :=
  mkClient noPages noAppContext
    (fun _endpoint _params s =>
       (match s with
        | 0 => dataResult
                 [("path0", Some (authoringItem headerId "Article Header" "/a" []));
                  ("path1", None)]
        | 1 => dataResult
                 [("path0", None);
                  ("path1", Some (authoringItem textId "Text 1" "/b" []))]
        | _ => dataResult [("path0", None); ("path1", None)]
        end, S s)).

Definition twoPaths : list string := ["Data/Article Header"; "Data/Text 1"].

(** A client none of whose calls succeeds. *)
Definition offlineClient : TestClient :=
  mkClient
    (fun s => (Threw (ErrorObj "offline"), s))
    (fun s => (Threw (ErrorObj "offline"), s))
    (fun _endpoint _params s => (Threw (ErrorObj "offline"), S s)).

Definition pageId : string := "11111111-1111-1111-1111-111111111111".
Definition faqId : string := "AAAAAAAA-BBBB-CCCC-DDDD-EEEEEEEEEEEE".
Definition settingId : string := "F1111111-2222-3333-4444-555555555555".
Definition resolvedId : string := "CCCCCCCC-0000-0000-0000-000000000003".

Definition relatedField : Field :=
  mkField "Related"
    (Some "Related: {AAAAAAAA-BBBB-CCCC-DDDD-EEEEEEEEEEEE}, and F1111111-2222-3333-4444-555555555555").

Definition pageItem : Item :=
  authoringItem "{11111111-1111-1111-1111-111111111111}" "Home"
    "/sitecore/content/Site/Home"
    [mkField "Title" (Some "Welcome"); relatedField;
     mkField "__Updated by" (Some "{DDDDDDDD-0000-0000-0000-000000000004}")].

Definition faqItem : Item :=
  authoringItem "{aaaaaaaa-bbbb-cccc-dddd-eeeeeeeeeeee}" "FAQ"
    "/sitecore/content/Site/Home/Data/FAQ" [mkField "Question" (Some "Why?")].

Definition settingItem : Item :=
  authoringItem "{f1111111-2222-3333-4444-555555555555}" "Setting"
    "/sitecore/system/Settings/Setting" [].

Definition textItem : Item :=
  authoringItem "{cccccccc-0000-0000-0000-000000000003}" "Text 1"
    "/sitecore/content/Site/Home/Data/Text 1"
    [mkField "Link" (Some "11111111-1111-1111-1111-111111111111")].

Definition sitePages (s : nat) : outcome ExtractionResult * nat :=
  (Returned (mkExtraction [pageId] ["Data/Text 1"] "/sitecore/content/Site/Home" "en"), s).

Definition siteAppContext (s : nat) : outcome (option AppContext) * nat :=
  (Returned (Some (mkAppContext
     (Some [Some (mkResourceAccess (Some (mkResourceContext (Some "preview-ctx") None None)))])
     None None)), s).

(** A site whose home page has a local datasource and references a
    content item and a system item. Its authoring store answers, in
    order: the first resolution strategy, the lookup of the main
    identifiers, the light lookup of the nested candidates, and their
    full lookup. *)
Definition siteClient : TestClient :=
  mkClient sitePages siteAppContext
    (fun _endpoint _params s =>
       (match s with
        | 0 => dataResult [("path0", Some textItem)]
        | 1 => dataResult [("item0", Some pageItem); ("item1", Some textItem)]
        | 2 => dataResult [("item0", Some faqItem); ("item1", Some settingItem)]
        | _ => dataResult [("item0", Some faqItem)]
        end, S s)).

Definition siteDiscovery : Discovery :=
  mkDiscovery [pageId] (Some pageId) ["Data/Text 1"] "/sitecore/content/Site/Home" "en".

Definition siteRun : outcome CycleData * TestWorld :=
  gather nat ExtractionResult nat string edgeEnv fetchOk hyphenated siteClient siteDiscovery world0.

Definition siteData : CycleData :=
  match siteRun.1 with
  | Returned cd => cd
  | Threw _ => mkCycleData None None [] None ∅
  end.

(** The light lookup of the two nested candidates of the site. *)
Definition nestedLookup : option ItemQueryResult :=
  Some {| qr_data := Some {| body_data :=
            Some [("item0", Some faqItem); ("item1", Some settingItem)] |};
          qr_error := None |}.

(** The authoring result for the home page alone. *)
Definition homeLookup : option ItemQueryResult :=
  Some {| qr_data := Some {| body_data := Some [("item0", Some pageItem)] |};
          qr_error := None |}.

Definition homeNodes : list Field :=
  [mkField "Title" (Some "Welcome"); relatedField;
   mkField "__Updated by" (Some "{DDDDDDDD-0000-0000-0000-000000000004}")].


Definition resolveScattered : outcome (JSObj (option string)) * TestWorld :=
  resolveLocalDatasourcePaths nat ExtractionResult nat string (Some scatteredClient)
    twoPaths "/sitecore/content/Site/Home" "ctx" "en" world0.

Definition resolveSilent : outcome (JSObj (option string)) * TestWorld :=
  resolveLocalDatasourcePaths nat ExtractionResult nat string (Some silentClient)
    ["Data/Text 1"] "/sitecore/content/Site/Home" "ctx" "en" world0.


(** The resolver on the site: the first strategy finds the one path. *)
Definition resolveSite : outcome (JSObj (option string)) * TestWorld :=
  resolveLocalDatasourcePaths nat ExtractionResult nat string (Some siteClient)
    ["Data/Text 1"] "/sitecore/content/Site/Home" "preview-ctx" "en" world0.

(** A record whose keys are not the positional aliases. *)
Definition gappedData : ItemsData :=
  [("item0", Some pageItem); ("item2", Some textItem)].

(** A page listed under its braced identifier, with a field that links to
    the page itself. The authoring store answers every lookup with the
    page. *)
Definition bracedPageId : string := "{11111111-1111-1111-1111-111111111111}".

Definition selfLinkedPage : Item :=
  authoringItem bracedPageId "Home" "/sitecore/content/Site/Home"
    [mkField "Canonical" (Some "{11111111-1111-1111-1111-111111111111}")].

Definition selfLinkedClient : TestClient :=
  mkClient noPages noAppContext
    (fun _endpoint _params s => (dataResult [("item0", Some selfLinkedPage)], S s)).

Definition bracedDiscovery : Discovery :=
  mkDiscovery [bracedPageId] (Some bracedPageId) [] EmptyString "en".

Definition bracedRun : outcome CycleData * TestWorld :=
  gather nat ExtractionResult nat string edgeEnv fetchOk hyphenated selfLinkedClient
    bracedDiscovery world0.

Definition bracedData : CycleData :=
  match bracedRun.1 with
  | Returned cd => cd
  | Threw _ => mkCycleData None None [] None ∅
  end.

(** The site while the live endpoint is down. *)
Definition liveDownRun : outcome CycleData * TestWorld :=
  gather nat ExtractionResult nat string edgeEnv fetchDown hyphenated siteClient
    siteDiscovery world0.

Definition liveDownData : CycleData :=
  match liveDownRun.1 with
  | Returned cd => cd
  | Threw _ => mkCycleData None None [] None ∅
  end.

(** The site while the authoring store is down. *)
Definition authoringDownClient : TestClient :=
  mkClient sitePages siteAppContext
    (fun _endpoint _params s => (Threw (ErrorObj "offline"), S s)).

Definition authoringDownRun : outcome CycleData * TestWorld :=
  gather nat ExtractionResult nat string edgeEnv fetchOk hyphenated authoringDownClient
    siteDiscovery world0.

Definition authoringDownData : CycleData :=
  match authoringDownRun.1 with
  | Returned cd => cd
  | Threw _ => mkCycleData None None [] None ∅
  end.

End Runs.

(** ** The examples of the specification *)

Example matches_spec_example :
  GuidRegex.matches
    "Related: {AAAAAAAA-BBBB-CCCC-DDDD-EEEEEEEEEEEE}, and F1111111-2222-3333-4444-555555555555"
  = ["{AAAAAAAA-BBBB-CCCC-DDDD-EEEEEEEEEEEE}"; "F1111111-2222-3333-4444-555555555555"].
Proof. reflexivity. Qed.

Example cleanGuid_example :
  cleanGuid "{aaaaaaaa-bbbb-cccc-dddd-eeeeeeeeeeee}" = "AAAAAAAA-BBBB-CCCC-DDDD-EEEEEEEEEEEE".
Proof. reflexivity. Qed.

Example replaceFirst_example :
  Js.replaceFirst "Page Components/" "" "Data/Page Components/Text 1" = "Data/Text 1".
Proof. reflexivity. Qed.

(** The field value of the specification yields two canonical
    identifiers, each with the source entity as its parent; the system
    field next to it is not scanned. *)
Example extractReferences_spec_example :
  let scan := extractReferences [Runs.pageId] Runs.homeLookup in
  scan.2 = [Runs.faqId; Runs.settingId]
  /\ (parent_id <$> default [] (scan.1 !! Runs.faqId)) = [Runs.pageId]
  /\ (parent_id <$> default [] (scan.1 !! Runs.settingId)) = [Runs.pageId]
  /\ scan.1 !! "DDDDDDDD-0000-0000-0000-000000000004" = None.
Proof. vm_compute. auto. Qed.

Example validNestedIdsOf_example :
  validNestedIdsOf Runs.nestedLookup = [Runs.faqId].
Proof. reflexivity. Qed.

(** The cycle of the site: the page, its resolved local datasource, and
    the one nested item that is not a system item. *)
Example site_cycle_identifiers :
  cd_itemIds Runs.siteData = [Runs.pageId; Runs.resolvedId; Runs.faqId]
  /\ length (calls Runs.siteRun.2) = 7.
Proof. vm_compute. auto. Qed.

(** ** The claims on concrete runs *)

(** C1. The first strategy resolves [Data/Article Header]; the second
    resolves only [Data/Text 1], and its record, spread over the
    accumulator, puts null where the identifier was. *)
Lemma later_strategy_overwrites_resolved_path :
  (exists first,
     calls Runs.resolveScattered.2 !! 0 = Some first
     /\ Obj.get "Data/Article Header" (resultIn Runs.twoPaths first)
        = Some (Some "AAAAAAAA-0000-0000-0000-000000000001"))
  /\ Runs.resolveScattered.1
     = Returned [("Data/Article Header", None);
                 ("Data/Text 1", Some "BBBBBBBB-0000-0000-0000-000000000002")].
Proof.
  split; [|vm_compute; reflexivity].
  eexists. split; [vm_compute; reflexivity|]. vm_compute. reflexivity.
Qed.

Lemma discovered_reference_recorded_witness :
  let scan := extractReferences [Runs.pageId; Runs.faqId] Runs.homeLookup in
  (Runs.faqId ∉ scan.2)
  /\ (Runs.settingId ∈ scan.2)
  /\ exists refs,
       scan.1 !! Runs.faqId = Some refs
       /\ Runs.pageId ∈ parent_id <$> refs
       /\ NoDup (parent_id <$> refs).
Proof.
  pose proof (discovered_reference_recorded [Runs.pageId; Runs.faqId] Runs.homeLookup
                [("item0", Some Runs.pageItem)] Runs.pageItem Runs.homeNodes
                Runs.relatedField
                "Related: {AAAAAAAA-BBBB-CCCC-DDDD-EEEEEEEEEEEE}, and F1111111-2222-3333-4444-555555555555"
                "{AAAAAAAA-BBBB-CCCC-DDDD-EEEEEEEEEEEE}") as Hfaq.
  destruct Hfaq as (Hknown & _ & Hrefs);
    [reflexivity | apply list_elem_of_here | reflexivity
    | apply list_elem_of_further, list_elem_of_here | reflexivity
    | vm_compute; apply list_elem_of_here |].
  split; [|split].
  - apply Hknown. apply list_elem_of_further, list_elem_of_here.
  - vm_compute. apply list_elem_of_here.
  - exact Hrefs.
Defined.

Lemma system_paths_filtered_witness :
  Runs.settingId ∉ validNestedIdsOf Runs.nestedLookup.
Proof.
  apply (system_paths_filtered Runs.nestedLookup Runs.settingId).
  intros nestedItem Hin Hid.
  apply elem_of_cons in Hin as [->|Hin]; [vm_compute in Hid; discriminate|].
  apply list_elem_of_singleton in Hin as ->.
  right. left. reflexivity.
Defined.


Lemma no_identifiers_is_fatal_witness :
  fetchItemInformation nat ExtractionResult nat string Runs.noEnv Runs.fetchDown
    Runs.hyphenated id Runs.processIds Runs.countItems
    (Some Runs.silentClient) true None Runs.worldWithResult
  = (Returned tt,
     withHook (after Runs.worldWithResult 0 [QueryCall "pages.context"])
       (failedWith "No item IDs found in current context")).
Proof.
  apply (no_identifiers_is_fatal nat ExtractionResult nat string Runs.noEnv Runs.fetchDown
           Runs.hyphenated id Runs.processIds Runs.countItems Runs.silentClient None
           Runs.worldWithResult (mkExtraction [] [] EmptyString "en") 0).
  - left. reflexivity.
  - reflexivity.
  - reflexivity.
Defined.

(** C4, as stated, fails: every strategy has been tried, none resolved
    every path, and the path has no entry in the record returned. *)
Lemma exhausted_resolver_returns_empty :
  length (calls Runs.resolveSilent.2) = length pathStrategies
  /\ forallb (fun call => negb (resolvesAll ["Data/Text 1"] call))
       (calls Runs.resolveSilent.2) = true
  /\ exists result,
       Runs.resolveSilent.1 = Returned result
       /\ Obj.get "Data/Text 1" result = None.
Proof.
  split; [vm_compute; reflexivity|]. split; [vm_compute; reflexivity|].
  exists []. split; vm_compute; reflexivity.
Qed.


(** ** Further properties on concrete runs *)

Example site_resolution_is_complete :
  Runs.resolveSite.1 = Returned [("Data/Text 1", Some Runs.resolvedId)]
  /\ length (calls Runs.resolveSite.2) = 1.
Proof. vm_compute. auto. Qed.

(** Without positional aliases the merge can overwrite: the first nested
    entry takes the alias [item2], which the original record already has. *)
Example merge_overwrites_a_taken_alias :
  appendEntries Runs.gappedData [("item0", Some Runs.faqItem)]
  = [("item0", Some Runs.pageItem); ("item2", Some Runs.faqItem)].
Proof. reflexivity. Qed.

Lemma matches_are_canonical_guids_witness :
  isCanonicalGuid (cleanGuid "{aaaaaaaa-bbbb-cccc-dddd-eeeeeeeeeeee}") = true
  /\ String.length (cleanGuid "{aaaaaaaa-bbbb-cccc-dddd-eeeeeeeeeeee}") = 36
  /\ exists before after,
       "see {aaaaaaaa-bbbb-cccc-dddd-eeeeeeeeeeee}."
       = before +:+ "{aaaaaaaa-bbbb-cccc-dddd-eeeeeeeeeeee}" +:+ after.
Proof.
  apply (matches_are_canonical_guids "see {aaaaaaaa-bbbb-cccc-dddd-eeeeeeeeeeee}."
           "{aaaaaaaa-bbbb-cccc-dddd-eeeeeeeeeeee}").
  vm_compute. apply list_elem_of_here.
Defined.

Lemma strategies_without_prefix_repeat_witness :
  let requests :=
    strategyParams Runs.twoPaths "/sitecore/content/Site/Home" "ctx" "en"
      <$> pathStrategies in
  requests !! 2 = requests !! 0 /\ requests !! 3 = requests !! 1.
Proof.
  destruct (strategies_without_prefix_repeat Runs.twoPaths "/sitecore/content/Site/Home"
              "ctx" "en") as (Hthird & Hfourth & _).
  - repeat constructor.
  - split; [exact Hthird|exact Hfourth].
Defined.

Lemma live_lookup_needs_token_witness :
  getItemsFromLive nat ExtractionResult nat string Runs.noEnv Runs.fetchOk Runs.hyphenated
    (Some Runs.siteClient) [Runs.pageId] None "en" Runs.world0
  = (Returned (errorMarker tokenMissing), Runs.world0).
Proof.
  destruct (live_lookup_needs_token nat ExtractionResult nat string Runs.noEnv Runs.fetchOk
              Runs.hyphenated (Some Runs.siteClient) [Runs.pageId] None "en" Runs.world0)
    as [Hnone _].
  - discriminate.
  - apply Hnone. reflexivity.
Defined.

Lemma uninitialized_client_sets_error_only_witness :
  fetchItemInformation nat ExtractionResult nat string Runs.noEnv Runs.fetchDown
    Runs.hyphenated id Runs.processIds Runs.countItems
    (Some Runs.siteClient) false None Runs.worldWithResult
  = (Returned tt,
     withHook Runs.worldWithResult
       (mkHook (Some 1) ["11111111-1111-1111-1111-111111111111"] false
          (Some "Marketplace client not initialized"))).
Proof.
  destruct (uninitialized_client_sets_error_only nat ExtractionResult nat string Runs.noEnv
              Runs.fetchDown Runs.hyphenated id Runs.processIds Runs.countItems
              (Some Runs.siteClient) false None Runs.pageId [] Runs.worldWithResult)
    as [Hcycle _].
  - right. reflexivity.
  - exact Hcycle.
Defined.

Lemma validation_keeps_accepted_witness :
  Runs.faqId ∈ validNestedIdsOf Runs.nestedLookup
  /\ length (validNestedIdsOf Runs.nestedLookup) <= 2.
Proof.
  apply (validation_keeps_accepted Runs.nestedLookup (Some Runs.faqItem)).
  - apply list_elem_of_here.
  - intros [Hempty|[Hsystem|[Htemplates|Hlayout]]]; discriminate.
Defined.

Lemma failed_validation_drops_candidates_witness :
  validateNested nat ExtractionResult nat string Runs.offlineClient [Runs.faqId] None "en"
    Runs.world0
  = (Returned [],
     after Runs.world0 1
       [authoringCall [Runs.faqId] None "en" (Threw (ErrorObj "offline"))]).
Proof.
  destruct (failed_validation_drops_candidates nat ExtractionResult nat string Runs.noEnv
              Runs.fetchDown Runs.hyphenated Runs.offlineClient Runs.faqId [] None "en"
              Runs.world0 None ∅ None None []) as [Hqueue _].
  - reflexivity.
  - exact Hqueue.
Defined.

Lemma merge_appends_under_fresh_aliases_witness :
  exists merged,
    innerData (mergeNested Runs.homeLookup Runs.nestedLookup) = Some merged
    /\ Obj.values merged
       = [Some Runs.pageItem; Some Runs.faqItem; Some Runs.settingItem]
    /\ Obj.keys merged = ["item0"; "item1"; "item2"].
Proof.
  destruct (merge_appends_under_fresh_aliases Runs.homeLookup Runs.nestedLookup
              [("item0", Some Runs.pageItem)]
              [("item0", Some Runs.faqItem); ("item1", Some Runs.settingItem)] 1)
    as (merged & Hdata & Hvalues & Hkeys & _).
  - reflexivity.
  - reflexivity.
  - reflexivity.
  - exists merged. split; [exact Hdata|]. split; [exact Hvalues|exact Hkeys].
Defined.

(** A list that holds an identifier in braces is not protected: the scan
    finds the same identifier, canonicalizes it, does not find that text
    in the list, and the identifier ends up in the list twice, although
    the list had no duplicate and every lookup answered what it was asked. *)
Example braced_id_listed_twice :
  cd_itemIds Runs.bracedData = [Runs.bracedPageId; Runs.pageId]
  /\ cleanGuid Runs.bracedPageId = cleanGuid Runs.pageId
  /\ NoDup (d_itemIds Runs.bracedDiscovery)
  /\ forallb faithfulCall (calls Runs.bracedRun.2) = true
  /\ ~ NoDup (cleanGuid <$> cd_itemIds Runs.bracedData).
Proof.
  assert (Hids : cd_itemIds Runs.bracedData = [Runs.bracedPageId; Runs.pageId]).
  { vm_compute. reflexivity. }
  split; [exact Hids|]. split; [vm_compute; reflexivity|].
  split; [apply NoDup_singleton|]. split; [vm_compute; reflexivity|].
  rewrite Hids. intros Hnd. apply NoDup_cons in Hnd as [Hfresh _].
  apply Hfresh. vm_compute. apply list_elem_of_here.
Qed.

(** With the live endpoint down the cycle hands on the authoring data of
    the page, its datasource and the nested item, next to the error
    marker of the live lookup. *)
Example live_down_hands_on_authoring_data :
  entriesOf (cd_authoringResult Runs.liveDownData)
  = [Some Runs.pageItem; Some Runs.textItem; Some Runs.faqItem]
  /\ cd_liveResult Runs.liveDownData = Some (errorMarker (ErrorObj "Failed to fetch"))
  /\ cd_itemIds Runs.liveDownData = [Runs.pageId; Runs.resolvedId; Runs.faqId].
Proof. vm_compute. auto. Qed.

(** With the authoring store down the cycle hands on the live data, next
    to the error marker of the authoring lookup. *)
Example authoring_down_hands_on_live_data :
  cd_authoringResult Runs.authoringDownData = Some (errorMarker (ErrorObj "offline"))
  /\ entriesOf (cd_liveResult Runs.authoringDownData)
     = [Some (Runs.liveItem "11111111111111111111111111111111" "Home")]
  /\ cd_itemIds Runs.authoringDownData = [Runs.pageId].
Proof. vm_compute. auto. Qed.
